(** * Reverse single-source Dijkstra for ambulance dispatch

    A shallow embedding of [src/Djikastra.py] (class
    [ReverseSingleSourceDijkstra]) and the properties of its specification.

    Conventions of the embedding.
    - Python numbers are exact rationals ([Q]); [float('inf')] is the extra
      value [Inf] of [num]. What is proved of these definitions is proved of
      the program in exact arithmetic. The module [Py] repeats the embedding
      on Python's own numbers, integers of any size and IEEE 754 doubles,
      where a result is rounded, can overflow to [inf], and where an integer
      beyond the doubles raises [OverflowError].
    - Python dictionaries used as maps are [gmap]s, the set of vertices is a
      [gset]; [found_hospitals], whose insertion order decides the result of
      [min], is an association list in insertion order, and the set
      [visited] is kept as the list of its [add] calls, oldest first.
    - [heapq] is modelled by its contract: the queue is a list of entries and
      [heappop] removes a least entry for Python's order on tuples.
    - Exceptions are explicit: a computation returns [Ok] or [Raise];
      [while] loops run on fuel and raise [FuelExhausted] when it runs out.
    - Console output of [find_optimal_dispatch] is left out; the report of
      [print_results] is modelled by the values it writes. *)

From Stdlib Require Import QArith Qabs Lqa String Permutation OrderedTypeEx.
From Stdlib Require Import PrimFloat SpecFloat FloatOps FloatAxioms.
From stdpp Require Import gmap strings list fin_maps.

Local Open Scope string_scope.
Local Open Scope list_scope.

(** ** Exceptions *)

Inductive exn : Type :=
| KeyError (key : string)
| IndexError
| OverflowError
| FuelExhausted.

Inductive exc (A : Type) : Type :=
| Ok (a : A)
| Raise (e : exn).
Arguments Ok {A} a.
Arguments Raise {A} e.

Definition exc_bind {A B : Type} (f : A → exc B) (m : exc A) : exc B :=
  match m with
  | Ok a => f a
  | Raise e => Raise e
  end.

#[global] Instance exc_ret : MRet exc := λ A a, Ok a.
#[global] Instance exc_mbind : MBind exc := λ A B f m, exc_bind f m.

(** [d[k]] on a dictionary: [KeyError] when the key is absent. *)
Definition getitem {A : Type} (d : gmap string A) (k : string) : exc A :=
  match d !! k with
  | Some a => Ok a
  | None => Raise (KeyError k)
  end.

(** [d.get(k, dflt)]. *)
Definition get_default {A : Type} (d : gmap string A) (k : string) (dflt : A) : A :=
  default dflt (d !! k).

(** A [for] loop over a list whose body may raise. *)
Fixpoint for_each {A S : Type} (body : S → A → exc S) (s : S) (l : list A) : exc S :=
  match l with
  | [] => Ok s
  | x :: l' =>
      match body s x with
      | Ok s' => for_each body s' l'
      | Raise e => Raise e
      end
  end.

(** ** Data model *)

(** The value under ['it_risk'] of an edge payload. *)
Record risk : Type := mk_risk {
  network : Q;
  gps : Q;
  data : Q
}.

(** An edge payload: [{'time': _, 'cost': _, 'it_risk': {...}}]. *)
Record attributes : Type := mk_attributes {
  time : Q;
  cost : Q;
  it_risk : risk
}.

(** [attributes.copy()]: a new dictionary with the same entries. *)
Definition copy (a : attributes) : attributes :=
  {| time := time a; cost := cost a; it_risk := it_risk a |}.

Abbreviation graph := (gmap string (gmap string attributes)).

(** Python floats as used here: a finite number or [float('inf')]. *)
Inductive num : Type :=
| Fin (q : Q)
| Inf.

Definition Qltb (a b : Q) : bool :=
  match (a ?= b)%Q with
  | Lt => true
  | _ => false
  end.

(** [a < b] on numbers. *)
Definition num_ltb (a b : num) : bool :=
  match a, b with
  | Fin x, Fin y => Qltb x y
  | Fin _, Inf => true
  | Inf, _ => false
  end.

(** ** The priority queue *)

Definition entry : Type := Q * string.

(** [a < b] on the tuples [(distance, node)]: the first components decide
    unless they are equal, then the node identifiers do. *)
Definition entry_ltb (a b : entry) : bool :=
  match (a.1 ?= b.1)%Q with
  | Lt => true
  | Gt => false
  | Eq => String.ltb a.2 b.2
  end.

Definition heappush (q : list entry) (e : entry) : list entry := q ++ [e].

(** [extract e q]: a least entry of [e :: q] and the other entries. *)
Fixpoint extract (e : entry) (q : list entry) : entry * list entry :=
  match q with
  | [] => (e, [])
  | x :: q' =>
      if entry_ltb x e
      then let '(m, r) := extract x q' in (m, e :: r)
      else let '(m, r) := extract e q' in (m, x :: r)
  end.

(** [heappop q]: [None] stands for the empty queue, which the caller tests. *)
Definition heappop (q : list entry) : option (entry * list entry) :=
  match q with
  | [] => None
  | e :: q' => Some (extract e q')
  end.

(** ** The class *)

Record ReverseSingleSourceDijkstra : Type := mk_self {
  G : graph;
  G_prime : graph;
  V : gset string;
  w_T : Q;
  w_R : Q;
  w_C : Q;
  v_net : Q;
  v_gps : Q;
  v_data : Q
}.

(** The vertices collected by the two nested loops over [G.items()]. *)
Definition collect_vertices (g : graph) : gset string :=
  foldl (λ (acc : gset string) (un : string * gmap string attributes),
           foldl (λ (acc' : gset string) (va : string * attributes), acc' ∪ {[va.1]})
                 (acc ∪ {[un.1]}) (map_to_list un.2))
        ∅ (map_to_list g).

(** [G_prime[v][u] = attributes.copy()]. *)
Definition set_edge (gp : graph) (v u : string) (a : attributes) : exc graph :=
  row ← getitem gp v;
  Ok (<[v := <[u := copy a]> row]> gp).

Definition _reverse_graph (g : graph) : exc graph :=
  let all_vertices := collect_vertices g in
  let G_prime0 : graph :=
    foldl (λ (gp : graph) (vertex : string), <[vertex := ∅]> gp) ∅ (elements all_vertices) in
  for_each (λ (gp : graph) (un : string * gmap string attributes),
              for_each (λ (gp' : graph) (va : string * attributes),
                          set_edge gp' va.1 un.1 va.2)
                       gp (map_to_list un.2))
           G_prime0 (map_to_list g).

Definition _get_all_nodes (g : graph) : gset string := collect_vertices g.

(** [__init__]. *)
Definition init (original_graph : graph) : exc ReverseSingleSourceDijkstra :=
  gp ← _reverse_graph original_graph;
  Ok {| G := original_graph;
        G_prime := gp;
        V := _get_all_nodes original_graph;
        w_T := 0.619;
        w_R := 0.284;
        w_C := 0.096;
        v_net := 0.623;
        v_gps := 0.239;
        v_data := 0.137 |}.

Definition _calculate_composite_weight (self : ReverseSingleSourceDijkstra)
    (a : attributes) : Q :=
  let t := time a in
  let c := cost a in
  let r := it_risk a in
  let IT_composite :=
    (v_net self * network r + v_gps self * gps r + v_data self * data r)%Q in
  (w_T self * t + w_R self * IT_composite + w_C self * c)%Q.

(** ** The search state of [find_optimal_dispatch] *)

Record state : Type := mk_state {
  lam : gmap string num;              (* λ *)
  pred : gmap string (option string);
  queue : list entry;                 (* Q *)
  visited : list string;
  found_hospitals : list (string * num)
}.

(** [k in found_hospitals]. *)
Definition in_found (k : string) (found : list (string * num)) : bool :=
  bool_decide (k ∈ found.*1).

(** [found_hospitals[h]]. *)
Fixpoint found_get (found : list (string * num)) (h : string) : exc num :=
  match found with
  | [] => Raise (KeyError h)
  | (k, x) :: found' => if decide (k = h) then Ok x else found_get found' h
  end.

(** The body of the loop over the neighbours of [k] in the reversed graph. *)
Definition relax (self : ReverseSingleSourceDijkstra) (lam_k : Q) (k : string)
    (st : state) (na : string * attributes) : exc state :=
  let neighbor := na.1 in
  let attrs := na.2 in
  if bool_decide (neighbor ∈ visited st) then Ok st
  else
    let w := _calculate_composite_weight self attrs in
    let new_lam := (lam_k + w)%Q in
    cur ← getitem (lam st) neighbor;
    if num_ltb (Fin new_lam) cur
    then Ok {| lam := <[neighbor := Fin new_lam]> (lam st);
               pred := <[neighbor := Some k]> (pred st);
               queue := heappush (queue st) (new_lam, neighbor);
               visited := visited st;
               found_hospitals := found_hospitals st |}
    else Ok st.

(** One iteration of the [while Q] loop, entered with [heappop]'s result. *)
Definition iteration (self : ReverseSingleSourceDijkstra) (hospitals : list string)
    (st : state) (lam_k : Q) (k : string) (rest : list entry) : exc state :=
  cur ← getitem (lam st) k;
  if num_ltb cur (Fin lam_k) || bool_decide (k ∈ visited st)
  then Ok {| lam := lam st; pred := pred st; queue := rest;
             visited := visited st; found_hospitals := found_hospitals st |}
  else
    let visited' := visited st ++ [k] in
    found' ←
      (if bool_decide (k ∈ hospitals) && negb (in_found k (found_hospitals st))
       then x ← getitem (lam st) k; Ok (found_hospitals st ++ [(k, x)])
       else Ok (found_hospitals st));
    for_each (relax self lam_k k)
      {| lam := lam st; pred := pred st; queue := rest;
         visited := visited'; found_hospitals := found' |}
      (map_to_list (get_default (G_prime self) k ∅)).

(** The [while Q] loop. *)
Fixpoint dijkstra_loop (self : ReverseSingleSourceDijkstra) (hospitals : list string)
    (fuel : nat) (st : state) : exc state :=
  match heappop (queue st) with
  | None => Ok st
  | Some ((lam_k, k), rest) =>
      match fuel with
      | O => Raise FuelExhausted
      | S fuel' =>
          match iteration self hospitals st lam_k k rest with
          | Ok st' => dijkstra_loop self hospitals fuel' st'
          | Raise e => Raise e
          end
      end
  end.

(** Step 1 of [find_optimal_dispatch]. *)
Definition initial_state (self : ReverseSingleSourceDijkstra) (destination : string) : state :=
  {| lam := <[destination := Fin 0]> (gset_to_gmap Inf (V self));
     pred := gset_to_gmap None (V self);
     queue := heappush [] (0%Q, destination);
     visited := [];
     found_hospitals := [] |}.

(** Every iteration either shortens the queue or visits a new node, whose
    edges bound what it pushes: this many iterations are enough. *)
Definition loop_fuel (self : ReverseSingleSourceDijkstra) : nat :=
  S (sum_list ((λ um : string * gmap string attributes, size um.2) <$> map_to_list (G_prime self))).

Definition search (self : ReverseSingleSourceDijkstra) (destination : string)
    (hospitals : list string) : exc state :=
  dijkstra_loop self hospitals (loop_fuel self) (initial_state self destination).

(** ** Solution extraction *)

(** [min(found_hospitals.keys(), key=lambda h: found_hospitals[h])] on a
    non-empty dictionary: the first key is kept until a later one has a
    strictly smaller value. *)
Definition argmin_found (found : list (string * num)) (first : string)
    (others : list string) : exc string :=
  for_each (λ (best : string) (h : string),
              kh ← found_get found h;
              kb ← found_get found best;
              if num_ltb kh kb then Ok h else Ok best)
           first others.

(** [while current is not None: path.append(current); current = pred.get(current)]. *)
Fixpoint trace_pred (pred : gmap string (option string)) (fuel : nat)
    (current : option string) : exc (list string) :=
  match current with
  | None => Ok []
  | Some c =>
      match fuel with
      | O => Raise FuelExhausted
      | S fuel' =>
          match trace_pred pred fuel' (get_default pred c None) with
          | Ok path => Ok (c :: path)
          | Raise e => Raise e
          end
      end
  end.

(** The helper [_reconstruct_original_path], which nothing calls. *)
Definition _reconstruct_original_path (fuel : nat) (hospital : string)
    (pred : gmap string (option string)) : exc (list string) :=
  trace_pred pred fuel (Some hospital).

(** ** Metrics *)

Record metrics : Type := mk_metrics {
  travel_time : Q;
  total_cost : Q;
  it_components : risk
}.

Definition metrics_zero : metrics :=
  {| travel_time := 0; total_cost := 0;
     it_components := {| network := 0; gps := 0; data := 0 |} |}.

(** [route[i]]. *)
Definition route_at (route : list string) (i : nat) : exc string :=
  match route !! i with
  | Some u => Ok u
  | None => Raise IndexError
  end.

(** The body of the loop of [_calculate_route_metrics] at index [i]. *)
Definition metrics_step (self : ReverseSingleSourceDijkstra) (route : list string)
    (acc : metrics) (i : nat) : exc metrics :=
  u ← route_at route i;
  v ← route_at route (i + 1);
  match G self !! u with
  | Some row =>
      match row !! v with
      | Some edge_data =>
          let r := it_risk edge_data in
          let c := it_components acc in
          Ok {| travel_time := (travel_time acc + time edge_data)%Q;
                total_cost := (total_cost acc + cost edge_data)%Q;
                it_components :=
                  {| network := (network c + w_R self * v_net self * network r)%Q;
                     gps := (gps c + w_R self * v_gps self * gps r)%Q;
                     data := (data c + w_R self * v_data self * data r)%Q |} |}
      | None => Ok acc
      end
  | None => Ok acc
  end.

Definition _calculate_route_metrics (self : ReverseSingleSourceDijkstra)
    (route : list string) : exc metrics :=
  for_each (metrics_step self route) metrics_zero (seq 0 (length route - 1)).

(** ** The result of a dispatch *)

Record hospital_detail : Type := mk_detail {
  detail_lam : num;                 (* 'λ' *)
  detail_route : list string;       (* 'route' *)
  detail_travel_time : Q;           (* 'travel_time' *)
  detail_total_cost : Q;            (* 'total_cost' *)
  detail_it_components : risk       (* 'it_components' *)
}.

Record dispatch : Type := mk_dispatch {
  optimal_hospital : string;
  optimal_cost : num;
  optimal_route : list string;
  all_hospitals : list (string * hospital_detail);
  result_pred : gmap string (option string);   (* 'pred' *)
  result_lambda : gmap string num              (* 'lambda' *)
}.

Inductive dispatch_result : Type :=
| NoReachable (error : string)
| Dispatched (r : dispatch).

(** The route the code returns for [h]: the predecessor chain, reversed. *)
Definition route_of (st : state) (h : string) : exc (list string) :=
  path_G_prime ← trace_pred (pred st) (S (length (visited st))) (Some h);
  Ok (reverse path_G_prime).

(** The body of the loop [for hospital in found_hospitals]. *)
Definition detail_step (self : ReverseSingleSourceDijkstra) (st : state)
    (hospital_details : list (string * hospital_detail)) (hx : string * num)
    : exc (list (string * hospital_detail)) :=
  let hospital := hx.1 in
  route ← route_of st hospital;
  m ← _calculate_route_metrics self route;
  x ← found_get (found_hospitals st) hospital;
  Ok (hospital_details ++
        [(hospital, {| detail_lam := x;
                       detail_route := route;
                       detail_travel_time := travel_time m;
                       detail_total_cost := total_cost m;
                       detail_it_components := it_components m |})]).

(** Steps 3 to 5 of [find_optimal_dispatch], from the state the loop left. *)
Definition extract_solution (self : ReverseSingleSourceDijkstra) (st : state)
    : exc dispatch_result :=
  match found_hospitals st with
  | [] => Ok (NoReachable "No reachable hospitals found")
  | (first, _) :: others =>
      h_star ← argmin_found (found_hospitals st) first others.*1;
      C_star ← found_get (found_hospitals st) h_star;
      optimal_route ← route_of st h_star;
      optimal_metrics ← _calculate_route_metrics self optimal_route;
      hospital_details ← for_each (detail_step self st) [] (found_hospitals st);
      Ok (Dispatched {| optimal_hospital := h_star;
                        optimal_cost := C_star;
                        optimal_route := optimal_route;
                        all_hospitals := hospital_details;
                        result_pred := pred st;
                        result_lambda := lam st |})
  end.

Definition find_optimal_dispatch (self : ReverseSingleSourceDijkstra)
    (destination : string) (hospitals : list string) : exc dispatch_result :=
  st ← search self destination hospitals;
  extract_solution self st.

(** ** The network of [create_network] *)

Definition edge (t c n g d : Q) : attributes :=
  {| time := t; cost := c; it_risk := {| network := n; gps := g; data := d |} |}.

Definition create_network : graph :=
  list_to_map [
    ("Mongi_Slim", list_to_map [
       ("Ain_Zaghouan", edge 3 0.76 0.4 0.5 0.3);
       ("Jardin_Carthage", edge 5 1.77 0.3 0.4 0.2)]);
    ("Charles_Nicolle", list_to_map [
       ("Bab_Sadoun", edge 2 0.88 0.5 0.6 0.4);
       ("Beb_Bhar", edge 9 1.89 0.4 0.5 0.3)]);
    ("Habib_Thamer", list_to_map [
       ("Avenue_Moncef_Bey", edge 5 1.07 0.3 0.4 0.2)]);
    ("Rabta", list_to_map [
       ("Bab_Sadoun", edge 5 0.88 0.4 0.5 0.4)]);
    ("Ain_Zaghouan", list_to_map [
       ("Tunisia_Mall", edge 6 1.83 0.6 0.7 0.5)]);
    ("Jardin_Carthage", list_to_map [
       ("Tunisia_Mall", edge 9 1.96 0.2 0.3 0.1)]);
    ("Avenue_Moncef_Bey", list_to_map [
       ("Tunisia_Mall", edge 19 7.575 0.3 0.4 0.2)]);
    ("Bab_Sadoun", list_to_map [
       ("Tunisia_Mall", edge 22 8.21 0.5 0.6 0.4)]);
    ("Beb_Bhar", list_to_map [
       ("Tunisia_Mall", edge 22 8.21 0.4 0.5 0.3)]);
    ("Tunisia_Mall", ∅)].

Definition main_hospitals : list string :=
  ["Mongi_Slim"; "Charles_Nicolle"; "Habib_Thamer"; "Rabta"].

Definition run (g : graph) (destination : string) (hospitals : list string)
    : exc dispatch_result :=
  self ← init g;
  find_optimal_dispatch self destination hospitals.

(** * Notions of the specification *)

(** [entry_le a b]: [a] is not after [b] in the order of the queue. *)
Definition entry_le (a b : entry) : Prop :=
  (a.1 < b.1)%Q ∨ (a.1 == b.1 ∧ (a.2 ?= b.2)%string ≠ Gt).

(** [has_edge g u v a]: the graph has the edge [u → v] with payload [a]. *)
Definition has_edge (g : graph) (u v : string) (a : attributes) : Prop :=
  ∃ row, g !! u = Some row ∧ row !! v = Some a.

(** [walk self d n c]: the reversed graph has a walk from [d] to [n] whose
    composite edge weights, added in the order of the walk, give [c]. *)
Inductive walk (self : ReverseSingleSourceDijkstra) (d : string) : string → Q → Prop :=
| walk_here : walk self d d 0
| walk_edge (k n : string) (a : attributes) (c : Q) :
    walk self d k c →
    has_edge (G_prime self) k n a →
    walk self d n (c + _calculate_composite_weight self a).

(** Every edge attribute of the graph is non-negative. *)
Definition nonnegative (g : graph) : Prop :=
  ∀ u v a, has_edge g u v a →
    (0 <= time a ∧ 0 <= cost a ∧
     0 <= network (it_risk a) ∧ 0 <= gps (it_risk a) ∧ 0 <= data (it_risk a))%Q.

Definition nonneg_attributes (a : attributes) : bool :=
  Qle_bool 0 (time a) && Qle_bool 0 (cost a) && Qle_bool 0 (network (it_risk a))
  && Qle_bool 0 (gps (it_risk a)) && Qle_bool 0 (data (it_risk a)).

(** The same, as a test that can be run on a given graph. *)
Definition nonnegativeb (g : graph) : bool :=
  forallb (λ un : string * gmap string attributes,
             forallb (λ va : string * attributes, nonneg_attributes va.2) (map_to_list un.2))
          (map_to_list g).

(** [relaxes st q a n]: the loop body of [relax], entered in state [st] for
    the edge to [n] with payload [a], updates [n]. *)
Definition relaxes (self : ReverseSingleSourceDijkstra) (st : state) (q : Q)
    (a : attributes) (n : string) : bool :=
  negb (bool_decide (n ∈ visited st)) &&
  match lam st !! n with
  | Some x => num_ltb (Fin (q + _calculate_composite_weight self a)) x
  | None => false
  end.

(** What the loop over the neighbours of [k] has done once it went through
    the edges [row]. *)
Record relax_post (self : ReverseSingleSourceDijkstra) (q : Q) (k : string)
    (row : gmap string attributes) (st0 st1 : state) : Prop := {
  post_visited : visited st1 = visited st0;
  post_found : found_hospitals st1 = found_hospitals st0;
  post_lam : ∀ n,
    lam st1 !! n =
      match row !! n with
      | Some a => if relaxes self st0 q a n
                  then Some (Fin (q + _calculate_composite_weight self a))
                  else lam st0 !! n
      | None => lam st0 !! n
      end;
  post_pred : ∀ n,
    pred st1 !! n =
      match row !! n with
      | Some a => if relaxes self st0 q a n then Some (Some k) else pred st0 !! n
      | None => pred st0 !! n
      end;
  post_queue : ∀ e,
    e ∈ queue st1 ↔
      e ∈ queue st0 ∨
      ∃ a, row !! e.2 = Some a ∧ relaxes self st0 q a e.2 = true ∧
           e.1 = (q + _calculate_composite_weight self a)%Q;
  post_length : (length (queue st1) ≤ length (queue st0) + size row)%nat
}.

(** The dictionary [found_hospitals] as the loop builds it: the visited
    hospitals in the order of their visits, each with its distance. *)
Definition found_of (hospitals : list string) (lam : gmap string num)
    (visited : list string) : list (string * num) :=
  (λ h, (h, default Inf (lam !! h))) <$> filter (λ h, h ∈ hospitals) visited.

(** Invariant of the [while Q] loop, for any edge attributes. *)
Record inv (self : ReverseSingleSourceDijkstra) (destination : string)
    (hospitals : list string) (st : state) : Prop := {
  inv_keys : ∀ n, n ∈ V self → is_Some (lam st !! n);
  inv_queue : ∀ q n, (q, n) ∈ queue st →
    ∃ c, lam st !! n = Some (Fin c) ∧ (c = q ∨ (c < q)%Q);
  inv_walk : ∀ n c, lam st !! n = Some (Fin c) → walk self destination n c;
  inv_visited : ∀ n, n ∈ visited st → ∃ c, lam st !! n = Some (Fin c);
  inv_pending : ∀ n c, n ∉ visited st → lam st !! n = Some (Fin c) → (c, n) ∈ queue st;
  inv_dest : ∃ c, lam st !! destination = Some (Fin c) ∧ (c = 0%Q ∨ (c < 0)%Q);
  inv_unreached : ∀ n, n ∈ V self → lam st !! n = Some Inf → pred st !! n = Some None;
  inv_nodup : NoDup (visited st);
  inv_found : found_hospitals st = found_of hospitals (lam st) (visited st);
  inv_pred : ∀ n k, pred st !! n = Some (Some k) →
    ∃ i, visited st !! i = Some k ∧ ∀ j, visited st !! j = Some n → (i < j)%nat;
  inv_first : st = initial_state self destination ∨ ∃ tail, visited st = destination :: tail
}.

(** Invariant of the loop that needs non-negative weights. *)
Record opt (self : ReverseSingleSourceDijkstra) (st : state) : Prop := {
  opt_relaxed : ∀ k c n a,
    k ∈ visited st → lam st !! k = Some (Fin c) → has_edge (G_prime self) k n a →
    ∃ c', lam st !! n = Some (Fin c') ∧ (c' <= c + _calculate_composite_weight self a)%Q;
  opt_frontier : ∀ n c e,
    n ∈ visited st → lam st !! n = Some (Fin c) → e ∈ queue st → (c <= e.1)%Q
}.

(** The sum of the out-degrees, in the reversed graph, of the nodes not yet
    visited: with the length of the queue, it decreases at every iteration. *)
Definition unvisited_degree (self : ReverseSingleSourceDijkstra) (visited : list string) : nat :=
  sum_list ((λ um : string * gmap string attributes,
               if bool_decide (um.1 ∈ visited) then 0 else size um.2)
            <$> map_to_list (G_prime self)).

(** [visited_before l a b]: [a] was marked visited before [b]. *)
Definition visited_before (l : list string) (a b : string) : Prop :=
  ∃ i j, l !! i = Some a ∧ l !! j = Some b ∧ (i < j)%nat.

(** The state after an iteration that discards the popped entry. *)
Definition skip_state (st : state) (rest : list entry) : state :=
  {| lam := lam st; pred := pred st; queue := rest;
     visited := visited st; found_hospitals := found_hospitals st |}.

(** The state of an iteration that visits [k], before the loop over the
    neighbours of [k]. *)
Definition visit_state (hospitals : list string) (st : state) (q : Q) (k : string)
    (rest : list entry) : state :=
  {| lam := lam st; pred := pred st; queue := rest;
     visited := visited st ++ [k];
     found_hospitals :=
       if bool_decide (k ∈ hospitals)
       then found_hospitals st ++ [(k, Fin q)]
       else found_hospitals st |}.

(** The composite weight of every edge of the reversed graph is non-negative. *)
Definition nonneg_weights (self : ReverseSingleSourceDijkstra) : Prop :=
  ∀ k n a, has_edge (G_prime self) k n a → (0 <= _calculate_composite_weight self a)%Q.

(** [G[u][v]] when both keys are present, as [_calculate_route_metrics] tests it. *)
Definition edge_lookup (g : graph) (u v : string) : option attributes :=
  match g !! u with
  | Some row => row !! v
  | None => None
  end.

(** * The report of [print_results] *)

(** What [print_results] writes, by the values it formats: the fixed text and
    the formatting of the numbers are left out, and a report that raises is
    the exception alone. *)
Inductive report_line : Type :=
| PError (msg : string)                              (* the error message *)
| PSolution (h_star : string) (cost : num)           (* h* and λ* *)
| PRoute (route_str : string)                        (* P* *)
| PCheck (ok : bool)                                 (* the direction check *)
| PMetrics (t c : Q)                                 (* ∑ t_e and ∑ c_e *)
| PVerification (lam_calculated : Q) (cost : num)    (* λ and the Dijkstra result *)
| PRow (marker : bool) (hospital : string) (lam : num) (route_str : string).

(** [' → '.join(route)]. *)
Definition join_arrow (route : list string) : string :=
  String.concat " → " route.

(** [route[-1]]. *)
Definition route_last (route : list string) : exc string :=
  match last route with
  | Some u => Ok u
  | None => Raise IndexError
  end.

(** [result['all_hospitals'][h]]. *)
Fixpoint details_get (details : list (string * hospital_detail)) (h : string)
    : exc hospital_detail :=
  match details with
  | [] => Raise (KeyError h)
  | (k, d) :: details' => if decide (k = h) then Ok d else details_get details' h
  end.

(** Insertion of an item behind the items that are not after it. *)
Fixpoint insert_by_lam (x : string * hospital_detail)
    (l : list (string * hospital_detail)) : list (string * hospital_detail) :=
  match l with
  | [] => [x]
  | y :: l' =>
      if num_ltb (detail_lam x.2) (detail_lam y.2)
      then x :: y :: l'
      else y :: insert_by_lam x l'
  end.

(** [sorted(items, key=lambda x: x[1]['λ'])]: the stable sort. *)
Definition sorted_by_lam (items : list (string * hospital_detail))
    : list (string * hospital_detail) :=
  foldl (λ acc x, insert_by_lam x acc) [] items.

(** The route column of a row of the table. *)
Definition row_route_str (route : list string) : exc string :=
  if bool_decide (length route ≤ 3)%nat then Ok (join_arrow route)
  else
    first ← route_at route 0;
    final ← route_last route;
    Ok (first +:+ " → ... → " +:+ final).

(** The condition of the direction check, with Python's [and]. *)
Definition direction_check (r : dispatch) : exc bool :=
  first ← route_at (optimal_route r) 0;
  if decide (first = optimal_hospital r)
  then final ← route_last (optimal_route r);
       Ok (bool_decide (final = "Tunisia_Mall"))
  else Ok false.

Definition print_row (r : dispatch) (acc : list report_line)
    (hd : string * hospital_detail) : exc (list report_line) :=
  let marker := bool_decide (hd.1 = optimal_hospital r) in
  route_str ← row_route_str (detail_route hd.2);
  Ok (acc ++ [PRow marker hd.1 (detail_lam hd.2) route_str]).

Definition print_results (result : dispatch_result) : exc (list report_line) :=
  match result with
  | NoReachable msg => Ok [PError msg]
  | Dispatched r =>
      optimal ← details_get (all_hospitals r) (optimal_hospital r);
      ok ← direction_check r;
      let c := detail_it_components optimal in
      let lam_calculated :=
        (0.619 * detail_travel_time optimal / 10
         + network c + gps c + data c
         + 0.096 * detail_total_cost optimal / 10)%Q in
      for_each (print_row r)
        [PSolution (optimal_hospital r) (optimal_cost r);
         PRoute (join_arrow (optimal_route r));
         PCheck ok;
         PMetrics (detail_travel_time optimal) (detail_total_cost optimal);
         PVerification lam_calculated (optimal_cost r)]
        (sorted_by_lam (all_hospitals r))
  end.

(** * Further notions *)

(** The payloads of the consecutive pairs of [p] when each pair is an edge
    of [g]; [None] when some pair is not. *)
Fixpoint path_edges (g : graph) (p : list string) : option (list attributes) :=
  match p with
  | u :: ((v :: _) as p') =>
      match edge_lookup g u v, path_edges g p' with
      | Some a, Some l => Some (a :: l)
      | _, _ => None
      end
  | _ => Some []
  end.

(** The payloads of the consecutive pairs of [p] that are edges of [g]. *)
Fixpoint route_payloads (g : graph) (p : list string) : list attributes :=
  match p with
  | u :: ((v :: _) as p') =>
      match edge_lookup g u v with
      | Some a => a :: route_payloads g p'
      | None => route_payloads g p'
      end
  | _ => []
  end.

Definition Qsum (l : list Q) : Q := foldr Qplus 0%Q l.

(** The composite cost that the totals of [m] stand for. *)
Definition metrics_cost (self : ReverseSingleSourceDijkstra) (m : metrics) : Q :=
  (w_T self * travel_time m
   + (network (it_components m) + gps (it_components m) + data (it_components m))
   + w_C self * total_cost m)%Q.

(** The totals after the segment [u → v], when it is an edge or not. *)
Definition add_segment (self : ReverseSingleSourceDijkstra) (acc : metrics)
    (u v : string) : metrics :=
  match edge_lookup (G self) u v with
  | Some edge_data =>
      let r := it_risk edge_data in
      let c := it_components acc in
      {| travel_time := (travel_time acc + time edge_data)%Q;
         total_cost := (total_cost acc + cost edge_data)%Q;
         it_components :=
           {| network := (network c + w_R self * v_net self * network r)%Q;
              gps := (gps c + w_R self * v_gps self * gps r)%Q;
              data := (data c + w_R self * v_data self * data r)%Q |} |}
  | None => acc
  end.

(** The totals over the consecutive pairs of a route, by recursion on it. *)
Fixpoint metrics_along (self : ReverseSingleSourceDijkstra) (acc : metrics)
    (p : list string) : metrics :=
  match p with
  | u :: ((v :: _) as p') => metrics_along self (add_segment self acc u v) p'
  | _ => acc
  end.

(** Invariant of the [while Q] loop on the predecessors: they form a tree
    rooted at the destination. *)
Record tree (self : ReverseSingleSourceDijkstra) (destination : string)
    (st : state) : Prop := {
  tree_dest_lam : lam st !! destination = Some (Fin 0);
  tree_dest_pred : get_default (pred st) destination None = None;
  tree_pred : ∀ n k, pred st !! n = Some (Some k) →
    k ∈ visited st ∧
    ∃ a c, has_edge (G_prime self) k n a ∧ lam st !! k = Some (Fin c) ∧
           lam st !! n = Some (Fin (c + _calculate_composite_weight self a));
  tree_root : ∀ n c, lam st !! n = Some (Fin c) →
    n = destination ∨ ∃ k, pred st !! n = Some (Some k);
  tree_reach : ∀ k n a, k ∈ visited st → has_edge (G_prime self) k n a →
    ∃ c, lam st !! n = Some (Fin c)
}.

(** The nodes were visited in the order of their distances. *)
Definition ordered_visits (st : state) : Prop :=
  ∀ i j n m c d, (i < j)%nat →
    visited st !! i = Some n → visited st !! j = Some m →
    lam st !! n = Some (Fin c) → lam st !! m = Some (Fin d) → (c <= d)%Q.

(** The state without the record of the hospitals found. *)
Definition forget_found (st : state) : state :=
  {| lam := lam st; pred := pred st; queue := queue st;
     visited := visited st; found_hospitals := [] |}.

Definition exc_map {A B : Type} (f : A → B) (m : exc A) : exc B :=
  match m with
  | Ok a => Ok (f a)
  | Raise e => Raise e
  end.

(** No two nodes are joined by edges in both directions. *)
Definition one_way (g : graph) : Prop :=
  ∀ u v a, has_edge g u v a → edge_lookup g v u = None.

Definition one_wayb (g : graph) : bool :=
  forallb (λ un : string * gmap string attributes,
             forallb (λ va : string * attributes,
                        match edge_lookup g va.1 un.1 with Some _ => false | None => true end)
                     (map_to_list un.2))
          (map_to_list g).


(** The items are in the order of their distances. *)
Definition sorted_details (l : list (string * hospital_detail)) : Prop :=
  ∀ i j x y, (i < j)%nat → l !! i = Some x → l !! j = Some y →
    num_ltb (detail_lam y.2) (detail_lam x.2) = false.

(** * The program on Python's numbers

    The definitions above compute with exact rationals. Python computes
    with integers of any size and with IEEE 754 doubles: a double result is
    rounded, a result beyond the largest double is [inf], and an integer
    that no double is near raises [OverflowError] where it meets a double.
    The module [Py] is the same embedding with these numbers; it is used to
    run the program where the two arithmetics part. *)

Module Py.

#[local] Set Warnings "-inexact-float".

(** ** Numbers *)

(** A Python number: an [int] or a [float]. *)
Inductive number : Type :=
| PyInt (z : Z)
| PyFloat (f : float).

(** The conversion of an [int] to a [float]: the nearest double, ties to
    even, and [OverflowError] when the integer is beyond the doubles. *)
Definition int_to_float (z : Z) : exc float :=
  match binary_normalize 53 1024 z 0 false with
  | S754_infinity _ => Raise OverflowError
  | x => Ok (SF2Prim x)
  end.

Definition to_float (a : number) : exc float :=
  match a with
  | PyInt z => int_to_float z
  | PyFloat f => Ok f
  end.

(** [a + b]: exact on two [int]s, on doubles otherwise. *)
Definition number_add (a b : number) : exc number :=
  match a, b with
  | PyInt x, PyInt y => Ok (PyInt (x + y))
  | _, _ => x ← to_float a; y ← to_float b; Ok (PyFloat (x + y)%float)
  end.

(** [a * b]. *)
Definition number_mul (a b : number) : exc number :=
  match a, b with
  | PyInt x, PyInt y => Ok (PyInt (x * y))
  | _, _ => x ← to_float a; y ← to_float b; Ok (PyFloat (x * y)%float)
  end.

(** The order of an [int] and a [float], which Python decides on their exact
    values; [None] for a NaN, which compares with nothing. *)
Definition compare_int_float (z : Z) (f : float) : option comparison :=
  match Prim2SF f with
  | S754_nan => None
  | S754_infinity s => Some (if s then Gt else Lt)
  | S754_zero _ => Some (z ?= 0)%Z
  | S754_finite s m e =>
      let v := if s then Z.neg m else Z.pos m in
      if (0 <=? e)%Z then Some (z ?= v * 2 ^ e)%Z
      else Some (z * 2 ^ (- e) ?= v)%Z
  end.

(** [a < b]. *)
Definition number_ltb (a b : number) : bool :=
  match a, b with
  | PyInt x, PyInt y => (x <? y)%Z
  | PyFloat x, PyFloat y => (x <? y)%float
  | PyInt x, PyFloat y =>
      match compare_int_float x y with Some Lt => true | _ => false end
  | PyFloat x, PyInt y =>
      match compare_int_float y x with Some Gt => true | _ => false end
  end.

(** [a == b]. *)
Definition number_eqb (a b : number) : bool :=
  match a, b with
  | PyInt x, PyInt y => (x =? y)%Z
  | PyFloat x, PyFloat y => (x =? y)%float
  | PyInt x, PyFloat y
  | PyFloat y, PyInt x =>
      match compare_int_float x y with Some Eq => true | _ => false end
  end.


(** ** Data model *)

Record risk : Type := mk_risk {
  network : number;
  gps : number;
  data : number
}.

Record attributes : Type := mk_attributes {
  time : number;
  cost : number;
  it_risk : risk
}.

Definition copy (a : attributes) : attributes :=
  {| time := time a; cost := cost a; it_risk := it_risk a |}.

Abbreviation graph := (gmap string (gmap string attributes)).

(** ** The priority queue *)

Definition entry : Type := number * string.

(** [a < b] on the tuples [(distance, node)]: the first components that are
    not equal decide. *)
Definition entry_ltb (a b : entry) : bool :=
  if number_eqb a.1 b.1 then String.ltb a.2 b.2 else number_ltb a.1 b.1.

Definition heappush (q : list entry) (e : entry) : list entry := q ++ [e].

Fixpoint extract (e : entry) (q : list entry) : entry * list entry :=
  match q with
  | [] => (e, [])
  | x :: q' =>
      if entry_ltb x e
      then let '(m, r) := extract x q' in (m, e :: r)
      else let '(m, r) := extract e q' in (m, x :: r)
  end.

Definition heappop (q : list entry) : option (entry * list entry) :=
  match q with
  | [] => None
  | e :: q' => Some (extract e q')
  end.

(** ** The class *)

Record ReverseSingleSourceDijkstra : Type := mk_self {
  G : graph;
  G_prime : graph;
  V : gset string;
  w_T : float;
  w_R : float;
  w_C : float;
  v_net : float;
  v_gps : float;
  v_data : float
}.

Definition collect_vertices (g : graph) : gset string :=
  foldl (λ (acc : gset string) (un : string * gmap string attributes),
           foldl (λ (acc' : gset string) (va : string * attributes), acc' ∪ {[va.1]})
                 (acc ∪ {[un.1]}) (map_to_list un.2))
        ∅ (map_to_list g).

Definition set_edge (gp : graph) (v u : string) (a : attributes) : exc graph :=
  row ← getitem gp v;
  Ok (<[v := <[u := copy a]> row]> gp).

Definition _reverse_graph (g : graph) : exc graph :=
  let all_vertices := collect_vertices g in
  let G_prime0 : graph :=
    foldl (λ (gp : graph) (vertex : string), <[vertex := ∅]> gp) ∅ (elements all_vertices) in
  for_each (λ (gp : graph) (un : string * gmap string attributes),
              for_each (λ (gp' : graph) (va : string * attributes),
                          set_edge gp' va.1 un.1 va.2)
                       gp (map_to_list un.2))
           G_prime0 (map_to_list g).

Definition _get_all_nodes (g : graph) : gset string := collect_vertices g.

Definition init (original_graph : graph) : exc ReverseSingleSourceDijkstra :=
  gp ← _reverse_graph original_graph;
  Ok {| G := original_graph;
        G_prime := gp;
        V := _get_all_nodes original_graph;
        w_T := 0.619;
        w_R := 0.284;
        w_C := 0.096;
        v_net := 0.623;
        v_gps := 0.239;
        v_data := 0.137 |}.

(** The sums associate to the left, as Python evaluates them. *)
Definition _calculate_composite_weight (self : ReverseSingleSourceDijkstra)
    (a : attributes) : exc number :=
  let t := time a in
  let c := cost a in
  let r := it_risk a in
  x_net ← number_mul (PyFloat (v_net self)) (network r);
  x_gps ← number_mul (PyFloat (v_gps self)) (gps r);
  s ← number_add x_net x_gps;
  x_data ← number_mul (PyFloat (v_data self)) (data r);
  IT_composite ← number_add s x_data;
  y_T ← number_mul (PyFloat (w_T self)) t;
  y_R ← number_mul (PyFloat (w_R self)) IT_composite;
  s' ← number_add y_T y_R;
  y_C ← number_mul (PyFloat (w_C self)) c;
  number_add s' y_C.

(** ** The search *)

Record state : Type := mk_state {
  lam : gmap string number;
  pred : gmap string (option string);
  queue : list entry;
  visited : list string;
  found_hospitals : list (string * number)
}.

Definition in_found (k : string) (found : list (string * number)) : bool :=
  bool_decide (k ∈ found.*1).

Fixpoint found_get (found : list (string * number)) (h : string) : exc number :=
  match found with
  | [] => Raise (KeyError h)
  | (k, x) :: found' => if decide (k = h) then Ok x else found_get found' h
  end.

Definition relax (self : ReverseSingleSourceDijkstra) (lam_k : number) (k : string)
    (st : state) (na : string * attributes) : exc state :=
  let neighbor := na.1 in
  let attrs := na.2 in
  if bool_decide (neighbor ∈ visited st) then Ok st
  else
    w ← _calculate_composite_weight self attrs;
    new_lam ← number_add lam_k w;
    cur ← getitem (lam st) neighbor;
    if number_ltb new_lam cur
    then Ok {| lam := <[neighbor := new_lam]> (lam st);
               pred := <[neighbor := Some k]> (pred st);
               queue := heappush (queue st) (new_lam, neighbor);
               visited := visited st;
               found_hospitals := found_hospitals st |}
    else Ok st.

Definition iteration (self : ReverseSingleSourceDijkstra) (hospitals : list string)
    (st : state) (lam_k : number) (k : string) (rest : list entry) : exc state :=
  cur ← getitem (lam st) k;
  if number_ltb cur lam_k || bool_decide (k ∈ visited st)
  then Ok {| lam := lam st; pred := pred st; queue := rest;
             visited := visited st; found_hospitals := found_hospitals st |}
  else
    let visited' := visited st ++ [k] in
    found' ←
      (if bool_decide (k ∈ hospitals) && negb (in_found k (found_hospitals st))
       then x ← getitem (lam st) k; Ok (found_hospitals st ++ [(k, x)])
       else Ok (found_hospitals st));
    for_each (relax self lam_k k)
      {| lam := lam st; pred := pred st; queue := rest;
         visited := visited'; found_hospitals := found' |}
      (map_to_list (get_default (G_prime self) k ∅)).

Fixpoint dijkstra_loop (self : ReverseSingleSourceDijkstra) (hospitals : list string)
    (fuel : nat) (st : state) : exc state :=
  match heappop (queue st) with
  | None => Ok st
  | Some ((lam_k, k), rest) =>
      match fuel with
      | O => Raise FuelExhausted
      | S fuel' =>
          match iteration self hospitals st lam_k k rest with
          | Ok st' => dijkstra_loop self hospitals fuel' st'
          | Raise e => Raise e
          end
      end
  end.

(** [λ[destination] = 0] and the first queue entry hold the [int] 0. *)
Definition initial_state (self : ReverseSingleSourceDijkstra) (destination : string) : state :=
  {| lam := <[destination := PyInt 0]> (gset_to_gmap (PyFloat infinity) (V self));
     pred := gset_to_gmap None (V self);
     queue := heappush [] (PyInt 0, destination);
     visited := [];
     found_hospitals := [] |}.

Definition loop_fuel (self : ReverseSingleSourceDijkstra) : nat :=
  S (sum_list ((λ um : string * gmap string attributes, size um.2) <$> map_to_list (G_prime self))).

Definition search (self : ReverseSingleSourceDijkstra) (destination : string)
    (hospitals : list string) : exc state :=
  dijkstra_loop self hospitals (loop_fuel self) (initial_state self destination).

(** ** Solution extraction *)

Definition argmin_found (found : list (string * number)) (first : string)
    (others : list string) : exc string :=
  for_each (λ (best : string) (h : string),
              kh ← found_get found h;
              kb ← found_get found best;
              if number_ltb kh kb then Ok h else Ok best)
           first others.

Record metrics : Type := mk_metrics {
  travel_time : number;
  total_cost : number;
  it_components : risk
}.

Definition metrics_zero : metrics :=
  {| travel_time := PyInt 0; total_cost := PyInt 0;
     it_components := {| network := PyInt 0; gps := PyInt 0; data := PyInt 0 |} |}.

Definition metrics_step (self : ReverseSingleSourceDijkstra) (route : list string)
    (acc : metrics) (i : nat) : exc metrics :=
  u ← route_at route i;
  v ← route_at route (i + 1);
  match G self !! u with
  | Some row =>
      match row !! v with
      | Some edge_data =>
          let r := it_risk edge_data in
          let c := it_components acc in
          total_time ← number_add (travel_time acc) (time edge_data);
          total_cost' ← number_add (total_cost acc) (cost edge_data);
          x_net ← number_mul (PyFloat (w_R self * v_net self)%float) (network r);
          total_it_network ← number_add (network c) x_net;
          x_gps ← number_mul (PyFloat (w_R self * v_gps self)%float) (gps r);
          total_it_gps ← number_add (gps c) x_gps;
          x_data ← number_mul (PyFloat (w_R self * v_data self)%float) (data r);
          total_it_data ← number_add (data c) x_data;
          Ok {| travel_time := total_time;
                total_cost := total_cost';
                it_components :=
                  {| network := total_it_network;
                     gps := total_it_gps;
                     data := total_it_data |} |}
      | None => Ok acc
      end
  | None => Ok acc
  end.

Definition _calculate_route_metrics (self : ReverseSingleSourceDijkstra)
    (route : list string) : exc metrics :=
  for_each (metrics_step self route) metrics_zero (seq 0 (length route - 1)).

Record hospital_detail : Type := mk_detail {
  detail_lam : number;
  detail_route : list string;
  detail_travel_time : number;
  detail_total_cost : number;
  detail_it_components : risk
}.

Record dispatch : Type := mk_dispatch {
  optimal_hospital : string;
  optimal_cost : number;
  optimal_route : list string;
  all_hospitals : list (string * hospital_detail);
  result_pred : gmap string (option string);
  result_lambda : gmap string number
}.

Inductive dispatch_result : Type :=
| NoReachable (error : string)
| Dispatched (r : dispatch).

Definition route_of (st : state) (h : string) : exc (list string) :=
  path_G_prime ← trace_pred (pred st) (S (length (visited st))) (Some h);
  Ok (reverse path_G_prime).

Definition detail_step (self : ReverseSingleSourceDijkstra) (st : state)
    (hospital_details : list (string * hospital_detail)) (hx : string * number)
    : exc (list (string * hospital_detail)) :=
  let hospital := hx.1 in
  route ← route_of st hospital;
  m ← _calculate_route_metrics self route;
  x ← found_get (found_hospitals st) hospital;
  Ok (hospital_details ++
        [(hospital, {| detail_lam := x;
                       detail_route := route;
                       detail_travel_time := travel_time m;
                       detail_total_cost := total_cost m;
                       detail_it_components := it_components m |})]).

Definition extract_solution (self : ReverseSingleSourceDijkstra) (st : state)
    : exc dispatch_result :=
  match found_hospitals st with
  | [] => Ok (NoReachable "No reachable hospitals found")
  | (first, _) :: others =>
      h_star ← argmin_found (found_hospitals st) first others.*1;
      C_star ← found_get (found_hospitals st) h_star;
      optimal_route ← route_of st h_star;
      optimal_metrics ← _calculate_route_metrics self optimal_route;
      hospital_details ← for_each (detail_step self st) [] (found_hospitals st);
      Ok (Dispatched {| optimal_hospital := h_star;
                        optimal_cost := C_star;
                        optimal_route := optimal_route;
                        all_hospitals := hospital_details;
                        result_pred := pred st;
                        result_lambda := lam st |})
  end.

Definition find_optimal_dispatch (self : ReverseSingleSourceDijkstra)
    (destination : string) (hospitals : list string) : exc dispatch_result :=
  st ← search self destination hospitals;
  extract_solution self st.

Definition edge (t c n g d : number) : attributes :=
  {| time := t; cost := c; it_risk := {| network := n; gps := g; data := d |} |}.

(** ** Notions of the properties *)

Definition has_edge (g : graph) (u v : string) (a : attributes) : Prop :=
  ∃ row, g !! u = Some row ∧ row !! v = Some a.

Definition is_float (x : number) : bool :=
  match x with
  | PyFloat _ => true
  | PyInt _ => false
  end.

(** Every attribute of the payload is a [float]. *)
Definition floats (a : attributes) : bool :=
  is_float (time a) && is_float (cost a) && is_float (network (it_risk a))
  && is_float (gps (it_risk a)) && is_float (data (it_risk a)).

(** Every edge attribute of the graph is a [float]. *)
Definition float_attributes (g : graph) : Prop :=
  ∀ u v a, has_edge g u v a → floats a = true.

(** The numbers that the search keeps as distances: the [int] 0 of the
    destination and doubles. *)
Definition plain (x : number) : Prop := x = PyInt 0 ∨ ∃ f, x = PyFloat f.

(** [reached st n]: the node has a distance other than [float('inf')]. *)
Definition reached (st : state) (n : string) : Prop :=
  ∃ x, lam st !! n = Some x ∧ x ≠ PyFloat infinity.

Definition unvisited_degree (self : ReverseSingleSourceDijkstra) (visited : list string) : nat :=
  sum_list ((λ um : string * gmap string attributes,
               if bool_decide (um.1 ∈ visited) then 0 else size um.2)
            <$> map_to_list (G_prime self)).

(** [walk self d n x]: the reversed graph has a walk from [d] to [n], and
    the additions of the search along it, from the [int] 0, give [x]. *)
Inductive walk (self : ReverseSingleSourceDijkstra) (d : string) : string → number → Prop :=
| walk_here : walk self d d (PyInt 0)
| walk_edge (k n : string) (a : attributes) (c w x : number) :
    walk self d k c →
    has_edge (G_prime self) k n a →
    _calculate_composite_weight self a = Ok w →
    number_add c w = Ok x →
    walk self d n x.

(** Invariant of the [while Q] loop that holds whatever the arithmetic
    does. *)
Record sound (self : ReverseSingleSourceDijkstra) (destination : string)
    (hospitals : list string) (st : state) : Prop := {
  sound_keys : ∀ n, n ∈ V self → is_Some (lam st !! n);
  sound_queue : ∀ q n, (q, n) ∈ queue st →
    plain q ∧ reached st n ∧ walk self destination n q;
  sound_nodup : NoDup (visited st);
  sound_pred : ∀ n k, pred st !! n = Some (Some k) →
    ∃ i, visited st !! i = Some k ∧ ∀ j, visited st !! j = Some n → (i < j)%nat;
  sound_found : (found_hospitals st).*1 = filter (λ h, h ∈ hospitals) (visited st);
  sound_visited : ∀ n, n ∈ visited st → reached st n;
  sound_pending : ∀ n x, n ∉ visited st → lam st !! n = Some x →
    x = PyFloat infinity ∨ (x, n) ∈ queue st;
  sound_unreached : ∀ n, n ∈ V self → lam st !! n = Some (PyFloat infinity) →
    pred st !! n = Some None;
  sound_walk : ∀ n x, lam st !! n = Some x →
    x = PyFloat infinity ∨ walk self destination n x
}.

(** ** Sample graphs *)






End Py.

(** * Executions of the search in any order *)

(** [iteration] with the neighbours of [k] taken in the order of
    [row_items]: the source goes through the items of a dictionary, in an
    order that the maps of the model do not record. *)
Definition iteration_on (self : ReverseSingleSourceDijkstra) (hospitals : list string)
    (st : state) (lam_k : Q) (k : string) (rest : list entry)
    (row_items : list (string * attributes)) : exc state :=
  cur ← getitem (lam st) k;
  if num_ltb cur (Fin lam_k) || bool_decide (k ∈ visited st)
  then Ok {| lam := lam st; pred := pred st; queue := rest;
             visited := visited st; found_hospitals := found_hospitals st |}
  else
    let visited' := visited st ++ [k] in
    found' ←
      (if bool_decide (k ∈ hospitals) && negb (in_found k (found_hospitals st))
       then x ← getitem (lam st) k; Ok (found_hospitals st ++ [(k, x)])
       else Ok (found_hospitals st));
    for_each (relax self lam_k k)
      {| lam := lam st; pred := pred st; queue := rest;
         visited := visited'; found_hospitals := found' |}
      row_items.

(** [run_steps self hospitals n st st']: [n] iterations of the [while Q]
    loop lead from [st] to [st'] in an execution where the queue hands out
    any entry that none of its entries is less than, keeps the others in any
    arrangement, and where the neighbours of the popped node come in any
    order. *)
Inductive run_steps (self : ReverseSingleSourceDijkstra) (hospitals : list string)
    : nat → state → state → Prop :=
| steps_none (st : state) : run_steps self hospitals 0 st st
| steps_next (n : nat) (st st1 st2 : state) (lam_k : Q) (k : string) (rest : list entry)
    (row_items : list (string * attributes)) :
    queue st ≡ₚ (lam_k, k) :: rest →
    (∀ e, e ∈ queue st → entry_ltb e (lam_k, k) = false) →
    row_items ≡ₚ map_to_list (get_default (G_prime self) k ∅) →
    iteration_on self hospitals st lam_k k rest row_items = Ok st1 →
    run_steps self hospitals n st1 st2 →
    run_steps self hospitals (S n) st st2.

(** Such an execution of the whole loop: it ends when the queue is empty. *)
Definition run_loop (self : ReverseSingleSourceDijkstra) (hospitals : list string)
    (st st' : state) : Prop :=
  ∃ n, run_steps self hospitals n st st' ∧ queue st' = [].

(** The pops of the [while Q] loop, in the order of the iterations: each
    popped entry with the queue it was popped from. *)
Fixpoint dijkstra_pops (self : ReverseSingleSourceDijkstra) (hospitals : list string)
    (fuel : nat) (st : state) : exc (list (entry * list entry)) :=
  match heappop (queue st) with
  | None => Ok []
  | Some ((lam_k, k), rest) =>
      match fuel with
      | O => Raise FuelExhausted
      | S fuel' =>
          match iteration self hospitals st lam_k k rest with
          | Ok st' =>
              match dijkstra_pops self hospitals fuel' st' with
              | Ok pops => Ok (((lam_k, k), queue st) :: pops)
              | Raise e => Raise e
              end
          | Raise e => Raise e
          end
      end
  end.

(** The entries that the loop over the neighbours of [k], entered in [st0]
    with the neighbours [l], pushes. *)
Definition pushes (self : ReverseSingleSourceDijkstra) (q : Q) (st0 : state)
    (l : list (string * attributes)) : list entry :=
  omap (λ na : string * attributes,
          if relaxes self st0 q na.2 na.1
          then Some ((q + _calculate_composite_weight self na.2)%Q, na.1)
          else None) l.

(** No two entries of the queue for the same node have equal distances
    unless they are the same entry. *)
Definition no_ties (st : state) : Prop :=
  ∀ q1 q2 n, (q1, n) ∈ queue st → (q2, n) ∈ queue st → (q1 == q2)%Q → q1 = q2.

(** Two states that differ in the arrangement of the queue only. *)
Definition same_up_to_queue (st st' : state) : Prop :=
  lam st = lam st' ∧ pred st = pred st' ∧ visited st = visited st' ∧
  found_hospitals st = found_hospitals st' ∧ queue st ≡ₚ queue st'.

(** The nodes of a sequence of pops in the order of their first pops. *)
Definition first_pops (nodes : list string) : list string :=
  foldl (λ (acc : list string) (k : string),
           if bool_decide (k ∈ acc) then acc else acc ++ [k]) [] nodes.

(** * Properties *)

(** ** Exceptions and loops *)

Lemma bind_Ok {A B : Type} (m : exc A) (f : A → exc B) (b : B) :
  m ≫= f = Ok b ↔ ∃ a, m = Ok a ∧ f a = Ok b.
Proof.
  destruct m as [a|e]; simpl; split.
  - intros H. by exists a.
  - by intros (a' & [= ->] & H).
  - intros H. discriminate H.
  - by intros (a' & [=] & _).
Qed.

Lemma getitem_Ok {A : Type} (d : gmap string A) (k : string) (a : A) :
  getitem d k = Ok a ↔ d !! k = Some a.
Proof. unfold getitem. destruct (d !! k); split; congruence. Qed.

(** The invariant rule of [for_each]: a body that keeps [P] and does not
    raise on the elements of the list makes the loop end in [P]. *)
Lemma for_each_inv {A S : Type} (P : S → Prop) (body : S → A → exc S)
    (l : list A) (s : S) :
  P s →
  (∀ s x, P s → x ∈ l → ∃ s', body s x = Ok s' ∧ P s') →
  ∃ s', for_each body s l = Ok s' ∧ P s'.
Proof.
  revert s. induction l as [|x l IH]; intros s Hs Hbody; simpl.
  - by exists s.
  - destruct (Hbody s x Hs) as (s1 & -> & Hs1); [left|].
    apply IH; [done|]. intros s2 y Hs2 Hy. apply Hbody; [done|by right].
Qed.

(** The same rule with the position in the list: [P] is indexed by the
    elements done so far. *)
Lemma for_each_inv_prefix {A S : Type} (P : list A → S → Prop)
    (body : S → A → exc S) (l : list A) (s : S) :
  P [] s →
  (∀ done x s, P done s → (∃ rest, l = done ++ x :: rest) →
               ∃ s', body s x = Ok s' ∧ P (done ++ [x]) s') →
  ∃ s', for_each body s l = Ok s' ∧ P l s'.
Proof.
  intros H0 Hbody.
  assert (Hgen : ∀ rest done s, l = done ++ rest → P done s →
            ∃ s', for_each body s rest = Ok s' ∧ P l s').
  { induction rest as [|x rest IH]; intros done s0 Hl Hs; simpl.
    - exists s0. rewrite app_nil_r in Hl. by subst.
    - destruct (Hbody done x s0 Hs) as (s1 & -> & Hs1); [by exists rest|].
      apply (IH (done ++ [x])); [|done]. by rewrite <- app_assoc. }
  by apply (Hgen l []).
Qed.

(** ** Order on numbers, strings and queue entries *)

Lemma Qltb_lt (a b : Q) : Qltb a b = true ↔ (a < b)%Q.
Proof.
  unfold Qltb. rewrite Qlt_alt. destruct (a ?= b)%Q; split; congruence.
Qed.

Lemma Qltb_ge (a b : Q) : Qltb a b = false ↔ (b <= a)%Q.
Proof.
  rewrite <- not_true_iff_false, Qltb_lt. split; [apply Qnot_lt_le|apply Qle_not_lt].
Qed.

Lemma string_lt_trans (a b c : string) :
  (a ?= b)%string = Lt → (b ?= c)%string = Lt → (a ?= c)%string = Lt.
Proof.
  intros H1 H2. apply String_as_OT.cmp_lt.
  apply String_as_OT.lt_trans with b; by apply String_as_OT.cmp_lt.
Qed.

Lemma string_compare_refl (a : string) : (a ?= a)%string = Eq.
Proof.
  pose proof (String.compare_antisym a a) as H.
  destruct (a ?= a)%string; simpl in H; congruence.
Qed.

Lemma entry_ltb_false (a b : entry) : entry_ltb a b = false ↔ entry_le b a.
Proof.
  unfold entry_ltb, entry_le, String.ltb.
  rewrite (String.compare_antisym a.2 b.2).
  destruct (Qcompare_spec a.1 b.1) as [H|H|H].
  - destruct (b.2 ?= a.2)%string; simpl; split; try done.
    + intros _. right. split; [by symmetry|done].
    + intros _. right. split; [by symmetry|done].
    + intros [Hlt|[_ Hne]]; [|done]. rewrite H in Hlt. by apply Qlt_irrefl in Hlt.
  - split; [done|]. intros [Hlt|[Heq _]].
    + exfalso. apply (Qlt_irrefl a.1). by apply Qlt_trans with b.1.
    + rewrite Heq in H. by apply Qlt_irrefl in H.
  - split; [|done]. intros _. by left.
Qed.

Lemma entry_ltb_true (a b : entry) : entry_ltb a b = true → entry_le a b.
Proof.
  unfold entry_ltb, entry_le, String.ltb.
  destruct (Qcompare_spec a.1 b.1) as [H|H|H]; [|by left|done].
  destruct (a.2 ?= b.2)%string eqn:E; [done| |done].
  intros _. right. split; [done|congruence].
Qed.

Lemma entry_le_refl (a : entry) : entry_le a a.
Proof. right. split; [reflexivity|]. by rewrite string_compare_refl. Qed.

Lemma entry_le_trans (a b c : entry) : entry_le a b → entry_le b c → entry_le a c.
Proof.
  unfold entry_le. intros [H1|[H1 S1]] [H2|[H2 S2]].
  - left. by apply Qlt_trans with b.1.
  - left. by rewrite <- H2.
  - left. by rewrite H1.
  - right. split; [by rewrite H1|].
    destruct (a.2 ?= b.2)%string eqn:E1; [|clear S1|done].
    + apply String.compare_eq_iff in E1. by rewrite E1.
    + destruct (b.2 ?= c.2)%string eqn:E2; [|clear S2|done].
      * apply String.compare_eq_iff in E2. rewrite <- E2, E1. done.
      * by rewrite (string_lt_trans _ _ _ E1 E2).
Qed.

Lemma entry_le_dist (a b : entry) : entry_le a b → (a.1 <= b.1)%Q.
Proof. intros [H|[H _]]; [by apply Qlt_le_weak|by rewrite H; apply Qle_refl]. Qed.

(** [extract] returns a least entry and keeps all the others. *)
Lemma extract_spec (q : list entry) (e m : entry) (r : list entry) :
  extract e q = (m, r) →
  e :: q ≡ₚ m :: r ∧ ∀ x, x ∈ e :: q → entry_le m x.
Proof.
  revert e m r. induction q as [|x q IH]; intros e m r; simpl.
  - intros [= <- <-]. split; [done|]. intros x ->%list_elem_of_singleton.
    apply entry_le_refl.
  - destruct (entry_ltb x e) eqn:Hlt.
    + destruct (extract x q) as [m' r'] eqn:Hx. intros [= <- <-].
      destruct (IH _ _ _ Hx) as [Hp Hmin]. split.
      * rewrite Hp. apply Permutation_swap.
      * intros y [->|[->|Hy]%elem_of_cons]%elem_of_cons.
        -- apply entry_le_trans with x; [apply Hmin; by left|by apply entry_ltb_true].
        -- apply Hmin. by left.
        -- apply Hmin. by right.
    + destruct (extract e q) as [m' r'] eqn:He. intros [= <- <-].
      destruct (IH _ _ _ He) as [Hp Hmin]. split.
      * rewrite (Permutation_swap x e q), Hp. apply Permutation_swap.
      * intros y [->|[->|Hy]%elem_of_cons]%elem_of_cons.
        -- apply Hmin. by left.
        -- apply entry_le_trans with e; [apply Hmin; by left|by apply entry_ltb_false].
        -- apply Hmin. by right.
Qed.

Lemma heappop_None (q : list entry) : heappop q = None ↔ q = [].
Proof. destruct q; simpl; split; congruence. Qed.

Lemma heappop_spec (q : list entry) (m : entry) (r : list entry) :
  heappop q = Some (m, r) →
  q ≡ₚ m :: r ∧ ∀ x, x ∈ q → entry_le m x.
Proof.
  destruct q as [|e q]; simpl; [done|]. intros [= H]. by apply extract_spec.
Qed.

Lemma num_ltb_Fin (a : Q) (x : num) :
  num_ltb (Fin a) x = true ↔ x = Inf ∨ ∃ b, x = Fin b ∧ (a < b)%Q.
Proof.
  destruct x as [b|]; simpl.
  - rewrite Qltb_lt. split.
    + intros H. right. by exists b.
    + intros [[=]|(b' & [= <-] & H)]. done.
  - split; [by left|done].
Qed.

(** ** The reversed graph *)

Lemma copy_id (a : attributes) : copy a = a.
Proof. by destruct a. Qed.

Lemma collect_inner (l : list (string * attributes)) (acc : gset string) (x : string) :
  x ∈ foldl (λ (acc' : gset string) (va : string * attributes), acc' ∪ {[va.1]}) acc l
  ↔ x ∈ acc ∨ x ∈ l.*1.
Proof.
  revert acc. induction l as [|[v a] l IH]; intros acc; simpl.
  - set_solver.
  - rewrite IH. set_solver.
Qed.

Lemma collect_outer (l : list (string * gmap string attributes)) (acc : gset string)
    (x : string) :
  x ∈ foldl (λ (acc : gset string) (un : string * gmap string attributes),
               foldl (λ (acc' : gset string) (va : string * attributes), acc' ∪ {[va.1]})
                     (acc ∪ {[un.1]}) (map_to_list un.2)) acc l
  ↔ x ∈ acc ∨ ∃ u row, (u, row) ∈ l ∧ (x = u ∨ x ∈ dom row).
Proof.
  revert acc. induction l as [|[u row] l IH]; intros acc; simpl.
  - split; [by left|]. intros [H|(u & row & H & _)]; [done|]. by apply elem_of_nil in H.
  - rewrite IH, collect_inner. split.
    + intros [[[H| ->%elem_of_singleton]%elem_of_union|H]|(u' & row' & H & H')].
      * by left.
      * right. exists u, row. split; [left|by left].
      * right. exists u, row. split; [left|]. right.
        apply elem_of_dom. apply list_elem_of_fmap in H as ([v a] & -> & H).
        apply elem_of_map_to_list in H. by exists a.
      * right. exists u', row'. split; [by right|done].
    + intros [H|(u' & row' & [[= -> ->]|H]%elem_of_cons & H')].
      * left. left. set_solver.
      * left. destruct H' as [->|H']; [left; set_solver|]. right.
        apply elem_of_dom in H' as [a H']. apply list_elem_of_fmap.
        exists (x, a). split; [done|]. by apply elem_of_map_to_list.
      * right. by exists u', row'.
Qed.

(** The vertex set is derived: every endpoint of an edge and every key. *)
Lemma collect_vertices_spec (g : graph) (x : string) :
  x ∈ collect_vertices g ↔ x ∈ dom g ∨ ∃ u a, has_edge g u x a.
Proof.
  unfold collect_vertices. rewrite collect_outer. split.
  - intros [H|(u & row & H & [->|H'])]; [set_solver| |].
    + left. apply elem_of_map_to_list in H. apply elem_of_dom. by exists row.
    + right. apply elem_of_map_to_list in H. apply elem_of_dom in H' as [a H'].
      exists u, a, row. done.
  - intros [[row H]%elem_of_dom|(u & a & row & H & H')]; right.
    + exists x, row. split; [by apply elem_of_map_to_list|by left].
    + exists u, row. split; [by apply elem_of_map_to_list|]. right.
      apply elem_of_dom. by exists a.
Qed.

Lemma init_rows_lookup (l : list string) (gp : graph) (v : string) :
  foldl (λ (gp : graph) (vertex : string), <[vertex := ∅]> gp) gp l !! v
  = if decide (v ∈ l) then Some ∅ else gp !! v.
Proof.
  revert gp. induction l as [|x l IH]; intros gp; cbn [foldl].
  - destruct (decide (v ∈ [])) as [H|H]; [by apply elem_of_nil in H|done].
  - rewrite IH. repeat case_decide; try done.
    + exfalso. set_solver.
    + destruct (decide (x = v)) as [->|Hne]; [by rewrite lookup_insert_eq|].
      exfalso. set_solver.
    + destruct (decide (x = v)) as [->|Hne]; [exfalso; set_solver|].
      by rewrite lookup_insert_ne.
Qed.

Lemma prefix_fresh_key {A : Type} (l done rest : list (string * A)) (x : string * A) :
  NoDup l.*1 → l = done ++ x :: rest → ∀ a, (x.1, a) ∉ done.
Proof.
  intros Hnd -> a Hin. rewrite fmap_app in Hnd. apply NoDup_app in Hnd as (_ & Hnd & _).
  apply (Hnd x.1).
  - apply list_elem_of_fmap. by exists (x.1, a).
  - simpl. by left.
Qed.

Lemma set_edge_spec (gp : graph) (v u : string) (a : attributes) :
  v ∈ dom gp →
  ∃ gp', set_edge gp v u a = Ok gp' ∧ dom gp' = dom gp ∧
    ∀ v' u' a', has_edge gp' v' u' a' ↔
      (v' = v ∧ u' = u ∧ a' = a) ∨ (¬ (v' = v ∧ u' = u) ∧ has_edge gp v' u' a').
Proof.
  intros [row Hrow]%elem_of_dom. unfold set_edge, getitem. rewrite Hrow. simpl.
  eexists. split; [done|]. split.
  - apply dom_insert_lookup_L. by exists row.
  - intros v' u' a'. unfold has_edge. rewrite copy_id.
    destruct (decide (v' = v)) as [->|Hv].
    + rewrite lookup_insert_eq. destruct (decide (u' = u)) as [->|Hu].
      * split.
        -- intros (row' & [= <-] & H). rewrite lookup_insert_eq in H. left. naive_solver.
        -- intros [(_ & _ & ->)|[H _]]; [|naive_solver].
           eexists. split; [done|]. by rewrite lookup_insert_eq.
      * split.
        -- intros (row' & [= <-] & H). rewrite lookup_insert_ne in H by done.
           right. split; [naive_solver|]. by exists row.
        -- intros [(_ & -> & _)|[_ (row' & H1 & H2)]]; [done|].
           eexists. split; [done|]. rewrite lookup_insert_ne by done. congruence.
    + rewrite lookup_insert_ne by done. naive_solver.
Qed.

(** The reversal succeeds, its keys are the vertices, and its edges are the
    edges of the graph with the endpoints swapped and the payload kept. *)
Lemma reverse_graph_spec (g : graph) :
  ∃ gp, _reverse_graph g = Ok gp ∧ dom gp = collect_vertices g ∧
    ∀ v u a, has_edge gp v u a ↔ has_edge g u v a.
Proof.
  unfold _reverse_graph.
  set (all := collect_vertices g).
  set (gp0 := foldl _ ∅ (elements all)).
  assert (Hgp0 : ∀ v, gp0 !! v = if decide (v ∈ all) then Some ∅ else None).
  { intros v. unfold gp0. rewrite init_rows_lookup, lookup_empty.
    destruct (decide (v ∈ elements all)) as [H|H]; rewrite elem_of_elements in H.
    - by rewrite decide_True.
    - by rewrite decide_False. }
  pose (P := λ (done : list (string * gmap string attributes)) (gp : graph),
    dom gp = all ∧ ∀ v u a, has_edge gp v u a ↔ ∃ row, (u, row) ∈ done ∧ row !! v = Some a).
  destruct (for_each_inv_prefix P
    (λ (gp : graph) (un : string * gmap string attributes),
       for_each (λ (gp' : graph) (va : string * attributes), set_edge gp' va.1 un.1 va.2)
                gp (map_to_list un.2))
    (map_to_list g) gp0) as (gp & Hgp & Hdom & Hedges).
  - split.
    + apply set_eq. intros v. rewrite elem_of_dom, Hgp0.
      destruct (decide (v ∈ all)); split; try done; by intros [? ?].
    + intros v u a. split.
      * intros (row & H1 & H2). rewrite Hgp0 in H1. destruct (decide (v ∈ all)); [|done].
        injection H1 as <-. by rewrite lookup_empty in H2.
      * intros (row & H & _). by apply elem_of_nil in H.
  - intros done [u m] gp1 [Hdom1 Hedges1] Hpre. simpl.
    assert (Hfresh : ∀ row, (u, row) ∉ done).
    { destruct Hpre as [rest Hpre].
      apply (prefix_fresh_key _ _ _ (u, m) (NoDup_fst_map_to_list g) Hpre). }
    assert (Hum : g !! u = Some m).
    { destruct Hpre as [rest Hpre]. apply elem_of_map_to_list. rewrite Hpre.
      apply elem_of_app. right. by left. }
    pose (Pin := λ (done' : list (string * attributes)) (gp : graph),
      dom gp = all ∧ ∀ v u' a, has_edge gp v u' a ↔
        (∃ row, (u', row) ∈ done ∧ row !! v = Some a) ∨ (u' = u ∧ (v, a) ∈ done')).
    destruct (for_each_inv_prefix Pin
      (λ (gp' : graph) (va : string * attributes), set_edge gp' va.1 u va.2)
      (map_to_list m) gp1) as (gp2 & Hgp2 & Hdom2 & Hedges2).
    + split; [done|]. intros v u' a. rewrite Hedges1. split; [by left|].
      intros [H|[_ H]]; [done|]. by apply elem_of_nil in H.
    + intros done' [v a] gp3 [Hdom3 Hedges3] Hpre'. simpl.
      assert (Hfresh' : ∀ a', (v, a') ∉ done').
      { destruct Hpre' as [rest Hpre'].
        apply (prefix_fresh_key _ _ _ (v, a) (NoDup_fst_map_to_list m) Hpre'). }
      assert (Hva : m !! v = Some a).
      { destruct Hpre' as [rest Hpre']. apply elem_of_map_to_list. rewrite Hpre'.
        apply elem_of_app. right. by left. }
      destruct (set_edge_spec gp3 v u a) as (gp4 & Hgp4 & Hdom4 & Hedges4).
      { rewrite Hdom3. apply collect_vertices_spec. right. exists u, a, m. done. }
      exists gp4. split; [done|]. split; [congruence|].
      intros v' u' a'. rewrite Hedges4, Hedges3. split.
      * intros [(-> & -> & ->)|[Hne [H|[-> H]]]].
        -- right. split; [done|]. apply elem_of_app. right. by left.
        -- by left.
        -- right. split; [done|]. apply elem_of_app. by left.
      * intros [H|[-> [H|[= -> ->]%list_elem_of_singleton]%elem_of_app]].
        -- right. split; [|by left]. intros [-> ->].
           destruct H as (row & H & _). by apply Hfresh in H.
        -- right. split; [|right; done]. intros [-> _]. by apply Hfresh' in H.
        -- by left.
    + exists gp2. split; [done|]. split; [done|].
      intros v u' a. rewrite Hedges2. split.
      * intros [(row & H1 & H2)|[-> H]].
        -- exists row. split; [|done]. apply elem_of_app. by left.
        -- exists m. split; [apply elem_of_app; right; by left|].
           by apply elem_of_map_to_list.
      * intros (row & [H|[= -> ->]%list_elem_of_singleton]%elem_of_app & H2).
        -- left. by exists row.
        -- right. split; [done|]. by apply elem_of_map_to_list.
  - exists gp. split; [done|]. split; [done|].
    intros v u a. rewrite Hedges. unfold has_edge.
    split; intros (row & H1 & H2); exists row; split; try done.
    + by apply elem_of_map_to_list.
    + by apply elem_of_map_to_list.
Qed.

(** ** The loop over the neighbours *)

Section Relax.
Context (self : ReverseSingleSourceDijkstra) (q : Q) (k : string).

Local Abbreviation w := (_calculate_composite_weight self).

Lemma relax_step (st : state) (n : string) (a : attributes) :
  n ∈ visited st ∨ is_Some (lam st !! n) →
  ∃ st', relax self q k st (n, a) = Ok st' ∧
    visited st' = visited st ∧ found_hospitals st' = found_hospitals st ∧
    (if relaxes self st q a n
     then lam st' = <[n := Fin (q + w a)]> (lam st) ∧
          pred st' = <[n := Some k]> (pred st) ∧
          queue st' = queue st ++ [((q + w a)%Q, n)]
     else st' = st).
Proof.
  intros Hn. unfold relax, relaxes, heappush. cbn [fst snd].
  destruct (bool_decide (n ∈ visited st)) eqn:Hv.
  { by exists st. }
  destruct Hn as [Hn|[x Hx]].
  { apply bool_decide_eq_false in Hv. done. }
  unfold getitem. rewrite Hx. cbn -[num_ltb].
  destruct (num_ltb (Fin (q + w a)) x); eexists; (split; [reflexivity|]); simpl; auto.
Qed.

(** The state after the edges [done], a duplicate-free part of a row. *)
Lemma relax_loop_list (l : list (string * attributes)) (st0 : state) :
  NoDup l.*1 →
  (∀ n a, (n, a) ∈ l → n ∈ visited st0 ∨ is_Some (lam st0 !! n)) →
  ∃ st1, for_each (relax self q k) st0 l = Ok st1 ∧
    relax_post self q k (list_to_map l) st0 st1.
Proof.
  intros Hnd Hkeys.
  pose (P := λ (done : list (string * attributes)) (st1 : state),
    relax_post self q k (list_to_map done) st0 st1).
  destruct (for_each_inv_prefix P (relax self q k) l st0) as (st1 & Hst1 & Hpost).
  - unfold P. simpl. split; intros; rewrite ?lookup_empty; try done.
    + split; [by left|]. intros [H|(a & H & _)]; done.
    + simpl. lia.
  - intros done [n a] st [Hvis Hfound Hlam Hpred Hqueue Hlen] [rest Hl].
    assert (Hnotin : n ∉ done.*1).
    { intros Hin. apply list_elem_of_fmap in Hin as ([n' a'] & Heq & Hin).
      simpl in Heq. subst n'.
      by apply (prefix_fresh_key l done rest (n, a) Hnd Hl a'). }
    assert (Hfresh : (list_to_map done : gmap string attributes) !! n = None)
      by (by apply not_elem_of_list_to_map_1).
    assert (Hsame : lam st !! n = lam st0 !! n) by (by rewrite Hlam, Hfresh).
    assert (Hrel : relaxes self st q a n = relaxes self st0 q a n).
    { unfold relaxes. by rewrite Hvis, Hsame. }
    destruct (relax_step st n a) as (st' & Hst' & Hvis' & Hfound' & Hcase).
    { rewrite Hvis, Hsame. apply (Hkeys n a). rewrite Hl. apply elem_of_app. right. by left. }
    exists st'. split; [done|]. unfold P. rewrite list_to_map_snoc by done.
    rewrite Hrel in Hcase.
    assert (Hmap : ∀ n', (<[n:=a]> (list_to_map done) : gmap string attributes) !! n'
              = if decide (n' = n) then Some a
                else (list_to_map done : gmap string attributes) !! n').
    { intros n'. destruct (decide (n' = n)) as [->|Hne].
      - by rewrite lookup_insert_eq.
      - by rewrite lookup_insert_ne. }
    destruct (relaxes self st0 q a n) eqn:Hr.
    + destruct Hcase as (Hl' & Hp' & Hq').
      split; try congruence.
      * intros n'. rewrite Hmap, Hl'. destruct (decide (n' = n)) as [->|Hne].
        -- by rewrite Hr, lookup_insert_eq.
        -- rewrite lookup_insert_ne by done. apply Hlam.
      * intros n'. rewrite Hmap, Hp'. destruct (decide (n' = n)) as [->|Hne].
        -- by rewrite Hr, lookup_insert_eq.
        -- rewrite lookup_insert_ne by done. apply Hpred.
      * intros e. rewrite Hq', elem_of_app, Hqueue, list_elem_of_singleton. split.
        -- intros [[H|(a' & H1 & H2 & H3)]| ->]; [by left| |].
           ++ right. exists a'. rewrite Hmap. destruct (decide (e.2 = n)) as [He|He]; [|done].
              rewrite He in H1. congruence.
           ++ right. exists a. simpl. rewrite Hmap, decide_True by done. done.
        -- intros [H|(a' & H1 & H2 & H3)]; [by left; left|].
           rewrite Hmap in H1. destruct (decide (e.2 = n)) as [He|He].
           ++ injection H1 as <-. right. destruct e as [e1 e2]. simpl in *. congruence.
           ++ left. right. by exists a'.
      * rewrite Hq', length_app. simpl.
        rewrite map_size_insert_None by done. lia.
    + subst st'. split; try done.
      * intros n'. rewrite Hmap. destruct (decide (n' = n)) as [->|Hne].
        -- by rewrite Hr.
        -- apply Hlam.
      * intros n'. rewrite Hmap. destruct (decide (n' = n)) as [->|Hne].
        -- rewrite Hr. by rewrite Hpred, Hfresh.
        -- apply Hpred.
      * intros e. rewrite Hqueue. split.
        -- intros [H|(a' & H1 & H2 & H3)]; [by left|].
           right. exists a'. rewrite Hmap. destruct (decide (e.2 = n)) as [He|He]; [|done].
           rewrite He in H1. congruence.
        -- intros [H|(a' & H1 & H2 & H3)]; [by left|].
           rewrite Hmap in H1. destruct (decide (e.2 = n)) as [He|He].
           ++ injection H1 as <-. rewrite He in H2. congruence.
           ++ right. by exists a'.
      * rewrite map_size_insert_None by done. lia.
  - exists st1. split; [done|]. done.
Qed.

Lemma relax_loop (row : gmap string attributes) (st0 : state) :
  (∀ n a, row !! n = Some a → n ∈ visited st0 ∨ is_Some (lam st0 !! n)) →
  ∃ st1, for_each (relax self q k) st0 (map_to_list row) = Ok st1 ∧
    relax_post self q k row st0 st1.
Proof.
  intros Hkeys.
  destruct (relax_loop_list (map_to_list row) st0) as (st1 & H1 & H2).
  - apply NoDup_fst_map_to_list.
  - intros n a H. apply (Hkeys n a). by apply elem_of_map_to_list.
  - exists st1. split; [done|]. by rewrite list_to_map_to_list in H2.
Qed.
End Relax.

Section RelaxPost.
Context (self : ReverseSingleSourceDijkstra) (q : Q) (k : string).
Context (row : gmap string attributes) (st0 st1 : state).
Context (Hpost : relax_post self q k row st0 st1).

Local Abbreviation w := (_calculate_composite_weight self).

(** A node is left as it was, or it is a neighbour that was updated. *)
Lemma post_cases (n : string) :
  (lam st1 !! n = lam st0 !! n ∧ pred st1 !! n = pred st0 !! n ∧
   ∀ a, row !! n = Some a → relaxes self st0 q a n = false)
  ∨ (∃ a old, row !! n = Some a ∧ (n ∉ visited st0) ∧ lam st0 !! n = Some old ∧
       num_ltb (Fin (q + w a)) old = true ∧
       lam st1 !! n = Some (Fin (q + w a)) ∧ pred st1 !! n = Some (Some k) ∧
       ((q + w a)%Q, n) ∈ queue st1).
Proof.
  pose proof (post_lam _ _ _ _ _ _ Hpost n) as Hl.
  pose proof (post_pred _ _ _ _ _ _ Hpost n) as Hp.
  destruct (row !! n) as [a|] eqn:Hrow; [|left; done].
  destruct (relaxes self st0 q a n) eqn:Hr.
  - right. unfold relaxes in Hr. apply andb_true_iff in Hr as [Hv Hlt].
    apply negb_true_iff, bool_decide_eq_false in Hv.
    destruct (lam st0 !! n) as [old|] eqn:Hold; [|done].
    exists a, old. repeat split; try done.
    apply (post_queue _ _ _ _ _ _ Hpost). right. exists a. simpl.
    repeat split; try done. unfold relaxes. rewrite Hold, Hlt.
    by rewrite bool_decide_eq_false_2.
  - left. repeat split; try done. by intros a' [= <-].
Qed.

Lemma post_visited_same (n : string) :
  n ∈ visited st0 → lam st1 !! n = lam st0 !! n ∧ pred st1 !! n = pred st0 !! n.
Proof.
  intros Hn. destruct (post_cases n) as [(H1 & H2 & _)|(a & old & _ & Hv & _)]; done.
Qed.

Lemma post_queue_cases (e : entry) :
  e ∈ queue st1 →
  e ∈ queue st0 ∨
  ∃ a old, row !! e.2 = Some a ∧ (e.2 ∉ visited st0) ∧ lam st0 !! e.2 = Some old ∧
     num_ltb (Fin (q + w a)) old = true ∧ e.1 = (q + w a)%Q ∧
     lam st1 !! e.2 = Some (Fin (q + w a)).
Proof.
  intros [H|(a & Hrow & Hr & He)]%(post_queue _ _ _ _ _ _ Hpost); [by left|]. right.
  destruct (post_cases e.2) as [(_ & _ & Hno)|(a' & old & Hrow' & Hv & Hold & Hlt & Hl & _)].
  - rewrite (Hno a Hrow) in Hr. done.
  - assert (a' = a) as -> by congruence. exists a, old. done.
Qed.

Lemma post_queue_old (e : entry) : e ∈ queue st0 → e ∈ queue st1.
Proof. intros H. apply (post_queue _ _ _ _ _ _ Hpost). by left. Qed.

(** An edge of the row that did not update its target: the target was
    visited or was already as close. *)
Lemma relaxes_false (n : string) (a : attributes) :
  relaxes self st0 q a n = false →
  n ∈ visited st0 ∨ lam st0 !! n = None ∨
  ∃ c, lam st0 !! n = Some (Fin c) ∧ (c <= q + w a)%Q.
Proof.
  unfold relaxes. intros [Hv|Hlt]%andb_false_iff.
  - left. by apply negb_false_iff, bool_decide_eq_true in Hv.
  - right. destruct (lam st0 !! n) as [[c|]|]; [|done|by left].
    right. exists c. split; [done|]. by apply Qltb_ge.
Qed.
End RelaxPost.

(** ** One iteration of the main loop *)

Section Iteration.
Context (self : ReverseSingleSourceDijkstra) (destination : string)
        (hospitals : list string).
(** Every target of an edge of the reversed graph is a vertex. *)
Hypothesis HV : ∀ k n a, has_edge (G_prime self) k n a → n ∈ V self.

Local Abbreviation w := (_calculate_composite_weight self).
Local Abbreviation Inv := (inv self destination hospitals).

Lemma row_edge (k n : string) (a : attributes) :
  get_default (G_prime self) k ∅ !! n = Some a ↔ has_edge (G_prime self) k n a.
Proof.
  unfold get_default, has_edge. destruct (G_prime self !! k) as [row|]; simpl.
  - split; [intros H; by exists row|]. by intros (row' & [= <-] & H).
  - rewrite lookup_empty. split; [done|]. by intros (row' & [=] & _).
Qed.

Lemma found_of_keys (l : gmap string num) (vis : list string) (h : string) :
  h ∈ (found_of hospitals l vis).*1 ↔ h ∈ vis ∧ h ∈ hospitals.
Proof.
  unfold found_of. rewrite list_elem_of_fmap. split.
  - intros ([h' x] & -> & H). apply list_elem_of_fmap in H as (h'' & [= -> ->] & H).
    apply list_elem_of_filter in H. tauto.
  - intros [H1 H2]. exists (h, default Inf (l !! h)). split; [done|].
    apply list_elem_of_fmap. exists h. split; [done|]. by apply list_elem_of_filter.
Qed.

Lemma iteration_cases (st : state) (q : Q) (k : string) (rest : list entry) :
  Inv st →
  heappop (queue st) = Some ((q, k), rest) →
  (∃ c, lam st !! k = Some (Fin c) ∧ ((c < q)%Q ∨ k ∈ visited st) ∧
        iteration self hospitals st q k rest = Ok (skip_state st rest))
  ∨ (lam st !! k = Some (Fin q) ∧ (k ∉ visited st) ∧
     ∃ st1, iteration self hospitals st q k rest = Ok st1 ∧
       relax_post self q k (get_default (G_prime self) k ∅)
         (visit_state hospitals st q k rest) st1).
Proof.
  intros HI Hpop. destruct (heappop_spec _ _ _ Hpop) as [Hperm Hmin].
  assert (Hin : (q, k) ∈ queue st) by (rewrite Hperm; by left).
  destruct (inv_queue _ _ _ _ HI q k Hin) as (c & Hc & Hcq).
  unfold iteration, getitem. rewrite Hc. cbn -[num_ltb for_each].
  change (num_ltb (Fin c) (Fin q)) with (Qltb c q).
  destruct (Qltb c q) eqn:Hlt; cbn -[for_each].
  { left. exists c. split; [done|]. split; [|done]. left. by apply Qltb_lt. }
  destruct (bool_decide (k ∈ visited st)) eqn:Hv.
  { left. exists c. split; [done|]. split; [|done]. right. by apply bool_decide_eq_true in Hv. }
  right. apply bool_decide_eq_false in Hv. apply Qltb_ge in Hlt.
  destruct Hcq as [->|Hcq]; [|by apply Qle_not_lt in Hlt].
  split; [done|]. split; [done|]. cbn -[for_each].
  assert (Hnf : in_found k (found_hospitals st) = false).
  { apply bool_decide_eq_false. rewrite (inv_found _ _ _ _ HI), found_of_keys. tauto. }
  rewrite Hnf, andb_true_r.
  destruct (relax_loop self q k (get_default (G_prime self) k ∅)
              (visit_state hospitals st q k rest)) as (st1 & Hst1 & Hpost).
  { intros n a Hna%row_edge. right. simpl. apply (inv_keys _ _ _ _ HI). by eapply HV. }
  exists st1. split; [|done]. rewrite <- Hst1. unfold visit_state.
  by destruct (bool_decide (k ∈ hospitals)).
Qed.
End Iteration.

(** ** The loop invariant is kept *)

Section Invariant.
Context (self : ReverseSingleSourceDijkstra) (destination : string)
        (hospitals : list string).
Hypothesis HV : ∀ k n a, has_edge (G_prime self) k n a → n ∈ V self.

Local Abbreviation w := (_calculate_composite_weight self).
Local Abbreviation Inv := (inv self destination hospitals).

Lemma initial_lam (n : string) (x : num) :
  lam (initial_state self destination) !! n = Some x →
  (n = destination ∧ x = Fin 0) ∨ (n ≠ destination ∧ n ∈ V self ∧ x = Inf).
Proof.
  simpl. destruct (decide (destination = n)) as [->|Hne].
  - rewrite lookup_insert_eq. intros [= <-]. by left.
  - rewrite lookup_insert_ne by done. intros [H <-]%lookup_gset_to_gmap_Some.
    right. done.
Qed.

Lemma inv_initial : Inv (initial_state self destination).
Proof.
  split.
  - intros n Hn. simpl. destruct (decide (destination = n)) as [->|Hne].
    + rewrite lookup_insert_eq. by eexists.
    + rewrite lookup_insert_ne by done. exists Inf. by apply lookup_gset_to_gmap_Some.
  - intros q n [= -> ->]%list_elem_of_singleton. exists 0%Q. simpl.
    rewrite lookup_insert_eq. split; [done|by left].
  - intros n c [[-> [= ->]]|(_ & _ & [=])]%initial_lam. constructor.
  - intros n Hn. simpl in Hn. by apply elem_of_nil in Hn.
  - intros n c _ [[-> [= ->]]|(_ & _ & [=])]%initial_lam. simpl. by left.
  - exists 0%Q. simpl. rewrite lookup_insert_eq. split; [done|by left].
  - intros n Hn _. simpl. by apply lookup_gset_to_gmap_Some.
  - simpl. constructor.
  - done.
  - intros n k [_ [=]]%lookup_gset_to_gmap_Some.
  - by left.
Qed.

Lemma initial_pop (q : Q) (k : string) (rest : list entry) :
  heappop (queue (initial_state self destination)) = Some ((q, k), rest) →
  q = 0%Q ∧ k = destination ∧ rest = [].
Proof. simpl. by intros [= <- <- <-]. Qed.

Lemma inv_skip (st : state) (q c : Q) (k : string) (rest : list entry) :
  Inv st →
  heappop (queue st) = Some ((q, k), rest) →
  lam st !! k = Some (Fin c) →
  (c < q)%Q ∨ k ∈ visited st →
  Inv (skip_state st rest).
Proof.
  intros [Hkeys Hqueue Hwalk Hvis Hpend Hdest Hunr Hnd Hfound Hpred Hfirst] Hpop Hc Hskip.
  destruct (heappop_spec _ _ _ Hpop) as [Hperm Hmin].
  split; simpl; try done.
  - intros q' n Hin. apply Hqueue. rewrite Hperm. by right.
  - intros n c' Hn Hl. pose proof (Hpend n c' Hn Hl) as Hin.
    rewrite Hperm in Hin. apply elem_of_cons in Hin as [[= -> ->]|Hin]; [|done].
    exfalso. rewrite Hl in Hc. injection Hc as <-.
    destruct Hskip as [Hlt|Hk]; [by apply Qlt_irrefl in Hlt|done].
  - destruct Hfirst as [->|Hfirst]; [|by right]. exfalso.
    apply initial_pop in Hpop as (-> & -> & ->).
    apply initial_lam in Hc as [[_ [= ->]]|(Hne & _)]; [|done].
    destruct Hskip as [Hlt|Hk]; [by apply Qlt_irrefl in Hlt|].
    simpl in Hk. by apply elem_of_nil in Hk.
Qed.

Lemma inv_visit (st st1 : state) (q : Q) (k : string) (rest : list entry) :
  Inv st →
  heappop (queue st) = Some ((q, k), rest) →
  lam st !! k = Some (Fin q) →
  k ∉ visited st →
  relax_post self q k (get_default (G_prime self) k ∅)
    (visit_state hospitals st q k rest) st1 →
  Inv st1.
Proof.
  intros [Hkeys Hqueue Hwalk Hvis Hpend Hdest Hunr Hnd Hfound Hpred Hfirst]
    Hpop Hk Hkv Hpost.
  destruct (heappop_spec _ _ _ Hpop) as [Hperm Hmin].
  pose proof (post_cases _ _ _ _ _ _ Hpost) as Hcases.
  pose proof (post_visited_same _ _ _ _ _ _ Hpost) as Hsame.
  pose proof (post_visited _ _ _ _ _ _ Hpost) as Hv1.
  simpl in Hcases, Hsame, Hv1.
  split.
  - (* keys *)
    intros n Hn. destruct (Hcases n) as [(-> & _)|(a & old & _ & _ & _ & _ & -> & _)].
    + by apply Hkeys.
    + by eexists.
  - (* queue entries *)
    intros q' n [Hin|(a & old & Hrow & Hnv & Hold & Hlt & He & Hl)]%(post_queue_cases
      _ _ _ _ _ _ Hpost); simpl in *.
    + destruct (Hqueue q' n) as (c & Hc & Hcq); [rewrite Hperm; by right|].
      destruct (Hcases n) as [(-> & _)|(a & old & _ & _ & Hold & Hlt & -> & _)].
      * by exists c.
      * eexists. split; [done|]. right.
        rewrite Hc in Hold. injection Hold as <-. simpl in Hlt. apply Qltb_lt in Hlt.
        destruct Hcq as [<-|Hcq]; [done|]. by apply Qlt_trans with c.
    + eexists. split; [done|]. left. done.
  - (* walks *)
    intros n c Hc. destruct (Hcases n) as [(Hl & _)|(a & old & Hrow & _ & _ & _ & Hl & _)].
    + apply Hwalk. by rewrite <- Hl.
    + rewrite Hl in Hc. injection Hc as <-. apply walk_edge with k.
      * by apply Hwalk.
      * by apply row_edge.
  - (* visited nodes have a distance *)
    intros n Hn. rewrite Hv1 in Hn. destruct (Hsame n Hn) as [-> _].
    apply elem_of_app in Hn as [Hn| ->%list_elem_of_singleton]; [by apply Hvis|].
    by exists q.
  - (* pending nodes are queued *)
    intros n c Hn Hc. rewrite Hv1 in Hn.
    destruct (Hcases n) as [(Hl & _)|(a & old & _ & _ & _ & _ & Hl & _ & Hin)].
    + apply (post_queue_old _ _ _ _ _ _ Hpost). simpl.
      rewrite Hl in Hc. assert (Hin : (c, n) ∈ queue st).
      { apply Hpend; [|done]. intros H. apply Hn, elem_of_app. by left. }
      rewrite Hperm in Hin. apply elem_of_cons in Hin as [[= -> ->]|Hin]; [|done].
      exfalso. apply Hn, elem_of_app. right. by left.
    + rewrite Hl in Hc. by injection Hc as <-.
  - (* the destination *)
    destruct Hdest as (c & Hc & Hc0).
    destruct (Hcases destination) as [(-> & _)|(a & old & _ & _ & Hold & Hlt & -> & _)].
    + by exists c.
    + eexists. split; [done|]. right.
      rewrite Hc in Hold. injection Hold as <-. simpl in Hlt. apply Qltb_lt in Hlt.
      destruct Hc0 as [->|Hc0]; [done|]. by apply Qlt_trans with c.
  - (* unreached nodes have no predecessor *)
    intros n Hn Hinf.
    destruct (Hcases n) as [(Hl & -> & _)|(a & old & _ & _ & _ & _ & Hl & _)].
    + apply Hunr; [done|]. by rewrite <- Hl.
    + rewrite Hl in Hinf. done.
  - (* no node is visited twice *)
    rewrite Hv1. apply NoDup_app. split; [done|]. split; [|apply NoDup_singleton].
    intros n Hn ->%list_elem_of_singleton. done.
  - (* found_hospitals *)
    rewrite (post_found _ _ _ _ _ _ Hpost), Hv1. simpl.
    unfold found_of. rewrite filter_app, fmap_app.
    assert (Hold : (λ h, (h, default Inf (lam st1 !! h))) <$> filter (λ h, h ∈ hospitals) (visited st)
              = found_hospitals st).
    { rewrite Hfound. unfold found_of. apply list_fmap_ext.
      intros i h Hh. apply list_elem_of_lookup_2, list_elem_of_filter in Hh as [_ Hh].
      destruct (Hsame h) as [-> _]; [|done]. apply elem_of_app. by left. }
    rewrite Hold. rewrite filter_cons, filter_nil.
    destruct (Hsame k) as [Hlk _]; [apply elem_of_app; right; by left|].
    destruct (decide (k ∈ hospitals)) as [Hh|Hh].
    + rewrite bool_decide_eq_true_2 by done. simpl. by rewrite Hlk, Hk.
    + rewrite bool_decide_eq_false_2 by done. simpl. by rewrite app_nil_r.
  - (* predecessors were visited earlier *)
    intros n k' Hp. rewrite Hv1.
    destruct (Hcases n) as [(_ & Hp' & _)|(a & old & _ & Hnv & _ & _ & _ & Hp' & _)].
    + rewrite Hp' in Hp. destruct (Hpred n k' Hp) as (i & Hi & Hlt).
      exists i. split; [by apply lookup_app_l_Some|].
      intros j Hj. destruct (decide (j < length (visited st))%nat) as [Hjl|Hjl].
      * apply Hlt. by rewrite lookup_app_l in Hj.
      * apply lookup_lt_Some in Hi. lia.
    + rewrite Hp' in Hp. injection Hp as <-. exists (length (visited st)). split.
      * rewrite lookup_app_r by lia. by rewrite Nat.sub_diag.
      * intros j Hj. exfalso. apply Hnv. by apply list_elem_of_lookup_2 in Hj.
  - (* the destination is visited first *)
    right. rewrite Hv1. destruct Hfirst as [->|[tail Ht]].
    + apply initial_pop in Hpop as (_ & -> & _). by exists [].
    + exists (tail ++ [k]). by rewrite Ht.
Qed.
End Invariant.

(** ** Optimality invariant *)

Section Optimal.
Context (self : ReverseSingleSourceDijkstra) (destination : string)
        (hospitals : list string).
Hypothesis HV : ∀ k n a, has_edge (G_prime self) k n a → n ∈ V self.
Hypothesis Hnonneg : nonneg_weights self.

Local Abbreviation w := (_calculate_composite_weight self).
Local Abbreviation Inv := (inv self destination hospitals).

Lemma opt_initial : opt self (initial_state self destination).
Proof.
  split; simpl.
  - intros k c n a Hk. by apply elem_of_nil in Hk.
  - intros n c e Hn. by apply elem_of_nil in Hn.
Qed.

Lemma opt_skip (st : state) (q : Q) (k : string) (rest : list entry) :
  opt self st →
  heappop (queue st) = Some ((q, k), rest) →
  opt self (skip_state st rest).
Proof.
  intros [Hrel Hfront] Hpop. destruct (heappop_spec _ _ _ Hpop) as [Hperm _].
  split; simpl; [done|].
  intros n c e Hn Hc He. apply (Hfront n); [done..|]. rewrite Hperm. by right.
Qed.

Lemma opt_visit (st st1 : state) (q : Q) (k : string) (rest : list entry) :
  Inv st → opt self st →
  heappop (queue st) = Some ((q, k), rest) →
  lam st !! k = Some (Fin q) →
  k ∉ visited st →
  relax_post self q k (get_default (G_prime self) k ∅)
    (visit_state hospitals st q k rest) st1 →
  opt self st1.
Proof.
  intros HI [Hrel Hfront] Hpop Hk Hkv Hpost.
  destruct (heappop_spec _ _ _ Hpop) as [Hperm Hmin].
  pose proof (post_cases _ _ _ _ _ _ Hpost) as Hcases.
  pose proof (post_visited_same _ _ _ _ _ _ Hpost) as Hsame.
  pose proof (post_visited _ _ _ _ _ _ Hpost) as Hv1.
  simpl in Hcases, Hsame, Hv1.
  assert (Hqk : (q, k) ∈ queue st) by (rewrite Hperm; by left).
  assert (Hle : ∀ n c, n ∈ visited st ++ [k] → lam st !! n = Some (Fin c) → (c <= q)%Q).
  { intros n c [Hn| ->%list_elem_of_singleton]%elem_of_app Hc.
    - apply (Hfront n c (q, k)); done.
    - rewrite Hk in Hc. injection Hc as <-. apply Qle_refl. }
  split.
  - intros k' c n a Hk' Hc Hedge. rewrite Hv1 in Hk'.
    destruct (Hsame k' Hk') as [Hlk _]. rewrite Hlk in Hc.
    pose proof (Hnonneg _ _ _ Hedge) as Hw.
    apply elem_of_app in Hk' as [Hk'| ->%list_elem_of_singleton].
    + destruct (Hrel k' c n a Hk' Hc Hedge) as (c0 & Hc0 & Hle0).
      destruct (Hcases n) as [(-> & _)|(a' & old & _ & _ & Hold & Hlt & -> & _)].
      * by exists c0.
      * eexists. split; [done|]. rewrite Hc0 in Hold. injection Hold as <-.
        simpl in Hlt. apply Qltb_lt in Hlt. lra.
    + rewrite Hk in Hc. injection Hc as <-. apply row_edge in Hedge as Hrow.
      destruct (Hcases n) as [(-> & _ & Hno)|(a' & old & Hrow' & _ & _ & _ & -> & _)].
      * destruct (relaxes_false _ _ _ _ _ (Hno a Hrow)) as [Hn|[Hn|(c0 & Hc0 & Hle0)]];
          simpl in *.
        -- assert (∃ c0, lam st !! n = Some (Fin c0)) as [c0 Hc0].
           { pose proof Hn as Hn'.
             apply elem_of_app in Hn' as [Hn'| ->%list_elem_of_singleton].
             - by apply (inv_visited _ _ _ _ HI).
             - by exists q. }
           exists c0. split; [done|]. pose proof (Hle n c0 Hn Hc0). lra.
        -- destruct (inv_keys _ _ _ _ HI n (HV _ _ _ Hedge)) as [x Hx]. congruence.
        -- by exists c0.
      * assert (a' = a) as -> by congruence. eexists. split; [done|]. apply Qle_refl.
  - intros n c e Hn Hc He. rewrite Hv1 in Hn.
    destruct (Hsame n Hn) as [Hln _]. rewrite Hln in Hc.
    pose proof (Hle n c Hn Hc) as Hcq.
    apply (post_queue_cases _ _ _ _ _ _ Hpost) in He
      as [He|(a & old & Hrow & _ & _ & _ & He & _)].
    + simpl in He. apply elem_of_app in Hn as [Hn| ->%list_elem_of_singleton].
      * apply (Hfront n c e); [done..|]. rewrite Hperm. by right.
      * apply Qle_trans with q; [done|].
        apply (entry_le_dist (q, k) e), Hmin. rewrite Hperm. by right.
    + rewrite He. apply row_edge in Hrow. pose proof (Hnonneg _ _ _ Hrow). lra.
Qed.
End Optimal.

(** ** The main loop ends *)

Lemma degree_visit_list (l : list (string * gmap string attributes))
    (vis : list string) (k : string) :
  NoDup l.*1 → k ∉ vis →
  (sum_list ((λ um : string * gmap string attributes,
                if bool_decide (um.1 ∈ vis ++ [k]) then 0 else size um.2) <$> l)
   + size (default ∅ ((list_to_map l : graph) !! k))
   = sum_list ((λ um : string * gmap string attributes,
                  if bool_decide (um.1 ∈ vis) then 0 else size um.2) <$> l))%nat.
Proof.
  intros Hnd Hk. induction l as [|[u m] l IH]; csimpl.
  - rewrite lookup_empty. simpl. by rewrite map_size_empty.
  - apply NoDup_cons in Hnd as [Hu Hnd]. specialize (IH Hnd).
    destruct (decide (u = k)) as [->|Hne].
    + rewrite lookup_insert_eq. simpl.
      rewrite (not_elem_of_list_to_map_1 l k Hu) in IH. simpl in IH.
      rewrite map_size_empty in IH.
      rewrite bool_decide_eq_true_2 by (apply elem_of_app; right; by left).
      rewrite bool_decide_eq_false_2 by done. lia.
    + rewrite lookup_insert_ne by done.
      rewrite (bool_decide_ext (u ∈ vis ++ [k]) (u ∈ vis)); [lia|].
      rewrite elem_of_app, list_elem_of_singleton. tauto.
Qed.

Section Loop.
Context (self : ReverseSingleSourceDijkstra) (destination : string)
        (hospitals : list string).
Hypothesis HV : ∀ k n a, has_edge (G_prime self) k n a → n ∈ V self.

Local Abbreviation Inv := (inv self destination hospitals).

Lemma degree_visit (vis : list string) (k : string) :
  k ∉ vis →
  (unvisited_degree self (vis ++ [k]) + size (get_default (G_prime self) k ∅)
   = unvisited_degree self vis)%nat.
Proof.
  intros Hk. unfold unvisited_degree, get_default.
  rewrite <- (degree_visit_list (map_to_list (G_prime self)) vis k).
  - by rewrite list_to_map_to_list.
  - apply NoDup_fst_map_to_list.
  - done.
Qed.

Lemma degree_initial : S (unvisited_degree self []) = loop_fuel self.
Proof.
  unfold unvisited_degree, loop_fuel. f_equal.
Qed.

(** With fuel for the queue and the edges still to follow, the loop ends
    with an empty queue; it keeps the invariant and every property [P]
    that an iteration keeps. *)
Lemma loop_total (P : state → Prop) :
  (∀ st q k rest st1, Inv st → P st →
     heappop (queue st) = Some ((q, k), rest) →
     iteration self hospitals st q k rest = Ok st1 → P st1) →
  ∀ fuel st, Inv st → P st →
    (length (queue st) + unvisited_degree self (visited st) ≤ fuel)%nat →
    ∃ st', dijkstra_loop self hospitals fuel st = Ok st' ∧ Inv st' ∧ P st' ∧ queue st' = [].
Proof.
  intros HP. induction fuel as [|fuel IH]; intros st HI HPst Hfuel.
  - exists st. destruct (queue st) as [|e q'] eqn:Hq; [|simpl in Hfuel; lia].
    simpl. rewrite Hq. done.
  - simpl. destruct (heappop (queue st)) as [[[q k] rest]|] eqn:Hpop.
    + destruct (heappop_spec _ _ _ Hpop) as [Hperm _].
      apply Permutation_length in Hperm. simpl in Hperm.
      destruct (iteration_cases self destination hospitals HV st q k rest HI Hpop)
        as [(c & Hc & Hskip & Hit)|(Hk & Hkv & st1 & Hit & Hpost)].
      * rewrite Hit. apply IH.
        -- by eapply inv_skip.
        -- by eapply HP.
        -- simpl. lia.
      * rewrite Hit. apply IH.
        -- by eapply inv_visit.
        -- by eapply HP.
        -- rewrite (post_visited _ _ _ _ _ _ Hpost). simpl.
           pose proof (post_length _ _ _ _ _ _ Hpost) as Hlen. simpl in Hlen.
           pose proof (degree_visit (visited st) k Hkv). lia.
    + exists st. apply heappop_None in Hpop. done.
Qed.

Lemma search_inv :
  ∃ st, search self destination hospitals = Ok st ∧ Inv st ∧ queue st = [].
Proof.
  destruct (loop_total (λ _, True)) with (fuel := loop_fuel self)
    (st := initial_state self destination) as (st & H1 & H2 & _ & H3).
  - done.
  - apply inv_initial.
  - done.
  - rewrite <- degree_initial. simpl. lia.
  - by exists st.
Qed.

Lemma search_opt :
  nonneg_weights self →
  ∃ st, search self destination hospitals = Ok st ∧ Inv st ∧ opt self st ∧ queue st = [].
Proof.
  intros Hnn.
  destruct (loop_total (opt self)) with (fuel := loop_fuel self)
    (st := initial_state self destination) as (st & H1 & H2 & H3 & H4).
  - intros st q k rest st1 HI Hopt Hpop Hit.
    destruct (iteration_cases self destination hospitals HV st q k rest HI Hpop)
      as [(c & Hc & Hskip & Hit')|(Hk & Hkv & st1' & Hit' & Hpost)].
    + rewrite Hit' in Hit. injection Hit as <-. by eapply opt_skip.
    + rewrite Hit' in Hit. injection Hit as <-. by eapply opt_visit.
  - apply inv_initial.
  - apply opt_initial.
  - rewrite <- degree_initial. simpl. lia.
  - by exists st.
Qed.

(** ** The state the loop leaves *)

Lemma final_visited (st : state) (n : string) (c : Q) :
  Inv st → queue st = [] → lam st !! n = Some (Fin c) → n ∈ visited st.
Proof.
  intros HI Hq Hc. destruct (decide (n ∈ visited st)) as [|Hn]; [done|].
  pose proof (inv_pending _ _ _ _ HI n c Hn Hc) as Hin.
  rewrite Hq in Hin. by apply elem_of_nil in Hin.
Qed.


Lemma walk_nonneg (n : string) (c : Q) :
  nonneg_weights self → walk self destination n c → (0 <= c)%Q.
Proof.
  intros Hnn Hwalk. induction Hwalk as [|k n a c Hwalk IH Hedge]; [lra|].
  pose proof (Hnn _ _ _ Hedge). lra.
Qed.
End Loop.

(** ** Solution extraction *)

Lemma num_ltb_trans (a b c : num) :
  num_ltb a b = true → num_ltb b c = true → num_ltb a c = true.
Proof.
  destruct a as [x|], b as [y|], c as [z|]; simpl; try done.
  rewrite !Qltb_lt. apply Qlt_trans.
Qed.

Lemma num_ltb_le_trans (a b c : num) :
  num_ltb a b = true → num_ltb c b = false → num_ltb a c = true.
Proof.
  destruct a as [x|], b as [y|], c as [z|]; simpl; try done.
  rewrite !Qltb_lt, Qltb_ge. apply Qlt_le_trans.
Qed.

Lemma num_ltb_irrefl (a : num) : num_ltb a a = false.
Proof. destruct a as [x|]; simpl; [|done]. apply Qltb_ge, Qle_refl. Qed.

Lemma found_get_Ok (found : list (string * num)) (h : string) (x : num) :
  NoDup found.*1 → (h, x) ∈ found → found_get found h = Ok x.
Proof.
  induction found as [|[k y] found IH]; intros Hnd Hin; simpl.
  - by apply elem_of_nil in Hin.
  - simpl in Hnd. apply NoDup_cons in Hnd as [Hk Hnd].
    apply elem_of_cons in Hin as [[= -> ->]|Hin].
    + by rewrite decide_True.
    + rewrite decide_False; [by apply IH|]. intros ->. apply Hk.
      apply list_elem_of_fmap. by exists (h, x).
Qed.

(** Order is kept by [filter]: what follows [a] in the filtered list was
    after [a] in the list. *)
Lemma filter_split_before (P : string → Prop) `{∀ x, Decision (P x)}
    (vis l1 l2 : list string) (a b : string) :
  filter P vis = l1 ++ a :: l2 → b ∈ l2 → visited_before vis a b.
Proof.
  revert l1. induction vis as [|x vis IH]; intros l1 Hf Hb.
  - rewrite filter_nil in Hf. by destruct l1.
  - rewrite filter_cons in Hf. destruct (decide (P x)) as [Hx|Hx].
    + destruct l1 as [|y l1]; simpl in Hf.
      * injection Hf as -> Hf. assert (Hin : b ∈ vis).
        { assert (b ∈ filter P vis) as Hbf by (by rewrite Hf).
          apply list_elem_of_filter in Hbf. tauto. }
        apply list_elem_of_lookup in Hin as [j Hj].
        exists 0%nat, (S j). repeat split; [done|lia].
      * injection Hf as -> Hf. destruct (IH l1 Hf Hb) as (i & j & Hi & Hj & Hlt).
        exists (S i), (S j). repeat split; [done..|lia].
    + destruct (IH l1 Hf Hb) as (i & j & Hi & Hj & Hlt).
      exists (S i), (S j). repeat split; [done..|lia].
Qed.

Section Solution.
Context (self : ReverseSingleSourceDijkstra) (destination : string)
        (hospitals : list string) (st : state).
Hypothesis HI : inv self destination hospitals st.

(** The distance recorded for a found hospital. *)
Local Abbreviation key h := (default Inf (lam st !! h)).

Lemma found_fst : (found_hospitals st).*1 = filter (λ h, h ∈ hospitals) (visited st).
Proof.
  rewrite (inv_found _ _ _ _ HI). unfold found_of. rewrite <- list_fmap_compose.
  generalize (filter (λ h, h ∈ hospitals) (visited st)). intros l.
  induction l as [|x l IH]; [done|]. csimpl. by rewrite IH.
Qed.

Lemma found_nodup : NoDup (found_hospitals st).*1.
Proof. rewrite found_fst. apply NoDup_filter, (inv_nodup _ _ _ _ HI). Qed.

Lemma found_get_key (h : string) :
  h ∈ (found_hospitals st).*1 → found_get (found_hospitals st) h = Ok (key h).
Proof.
  intros Hh. apply found_get_Ok; [apply found_nodup|].
  rewrite found_fst in Hh.
  rewrite (inv_found _ _ _ _ HI). unfold found_of.
  apply list_elem_of_fmap. by exists h.
Qed.

Lemma found_visited (h : string) :
  h ∈ (found_hospitals st).*1 ↔ h ∈ visited st ∧ h ∈ hospitals.
Proof. rewrite found_fst, list_elem_of_filter. tauto. Qed.

(** [min] returns the first of the keys with the least distance. *)
Lemma argmin_found_spec (first : string) (others : list string) :
  (found_hospitals st).*1 = first :: others →
  ∃ h_star l1 l2,
    argmin_found (found_hospitals st) first others = Ok h_star ∧
    first :: others = l1 ++ h_star :: l2 ∧
    (∀ h, h ∈ l1 → num_ltb (key h_star) (key h) = true) ∧
    (∀ h, h ∈ l2 → num_ltb (key h) (key h_star) = false).
Proof.
  intros Hkeys. unfold argmin_found.
  pose (P := λ (done : list string) (best : string),
    ∃ l1 l2, first :: done = l1 ++ best :: l2 ∧
      (∀ h, h ∈ l1 → num_ltb (key best) (key h) = true) ∧
      (∀ h, h ∈ l2 → num_ltb (key h) (key best) = false)).
  destruct (for_each_inv_prefix P
    (λ (best h : string),
       kh ← found_get (found_hospitals st) h;
       kb ← found_get (found_hospitals st) best;
       if num_ltb kh kb then Ok h else Ok best) others first)
    as (h_star & Hrun & l1 & l2 & Hsplit & H1 & H2).
  - exists [], []. split; [done|]. split; intros h Hh; by apply elem_of_nil in Hh.
  - intros done h best (l1 & l2 & Hsplit & H1 & H2) [rest Hrest].
    assert (Hh : h ∈ (found_hospitals st).*1).
    { rewrite Hkeys, Hrest. right. apply elem_of_app. right. by left. }
    assert (Hbest : best ∈ (found_hospitals st).*1).
    { rewrite Hkeys, Hrest, app_comm_cons, Hsplit.
      apply elem_of_app. left. apply elem_of_app. right. by left. }
    rewrite (found_get_key h Hh), (found_get_key best Hbest). cbn -[num_ltb].
    destruct (num_ltb (key h) (key best)) eqn:Hlt.
    + exists h. split; [done|]. exists (l1 ++ best :: l2), [].
      split; [by rewrite app_comm_cons, Hsplit|].
      split; [|intros x Hx; by apply elem_of_nil in Hx].
      intros x [Hx|[->|Hx]%elem_of_cons]%elem_of_app.
      * apply num_ltb_trans with (key best); [done|by apply H1].
      * done.
      * apply num_ltb_le_trans with (key best); [done|by apply H2].
    + exists best. split; [done|]. exists l1, (l2 ++ [h]).
      split; [by rewrite app_comm_cons, Hsplit, <- app_assoc|].
      split; [done|].
      intros x [Hx| ->%list_elem_of_singleton]%elem_of_app; [by apply H2|done].
  - exists h_star, l1, l2. done.
Qed.

(** Following the predecessors ends: each one was visited earlier. *)
Lemma trace_total (fuel i : nat) (n : string) :
  visited st !! i = Some n → (i < fuel)%nat →
  ∃ path, trace_pred (pred st) fuel (Some n) = Ok (n :: path).
Proof.
  revert i n. induction fuel as [|fuel IH]; intros i n Hi Hlt; [lia|].
  simpl. unfold get_default.
  destruct (pred st !! n) as [[k|]|] eqn:Hp; simpl.
  - destruct (inv_pred _ _ _ _ HI n k Hp) as (i' & Hi' & Hlt').
    destruct (IH i' k Hi') as (path & ->); [specialize (Hlt' i Hi); lia|].
    by eexists.
  - destruct fuel; by eexists.
  - destruct fuel; by eexists.
Qed.

Lemma route_of_total (h : string) :
  h ∈ visited st → ∃ route, route_of st h = Ok route.
Proof.
  intros [i Hi]%list_elem_of_lookup. unfold route_of.
  destruct (trace_total (S (length (visited st))) i h Hi) as (path & ->).
  - apply lookup_lt_Some in Hi. lia.
  - by eexists.
Qed.
End Solution.

Lemma metrics_total (self : ReverseSingleSourceDijkstra) (route : list string) :
  ∃ m, _calculate_route_metrics self route = Ok m.
Proof.
  unfold _calculate_route_metrics.
  destruct (for_each_inv (λ _, True) (metrics_step self route)
              (seq 0 (length route - 1)) metrics_zero) as (m & Hm & _).
  - done.
  - intros acc i _ Hi. apply elem_of_seq in Hi. unfold metrics_step, route_at.
    destruct (lookup_lt_is_Some_2 route i) as [u ->]; [lia|].
    destruct (lookup_lt_is_Some_2 route (i + 1)) as [v ->]; [lia|]. simpl.
    destruct (G self !! u) as [row|]; [|by eexists].
    destruct (row !! v); by eexists.
  - by exists m.
Qed.

Section Result.
Context (self : ReverseSingleSourceDijkstra) (destination : string)
        (hospitals : list string) (st : state).
Hypothesis HI : inv self destination hospitals st.

Local Abbreviation key h := (default Inf (lam st !! h)).

Lemma details_total :
  ∃ details, for_each (detail_step self st) [] (found_hospitals st) = Ok details ∧
    details.*1 = (found_hospitals st).*1 ∧
    ∀ h d, (h, d) ∈ details →
      route_of st h = Ok (detail_route d) ∧ detail_lam d = key h ∧
      ∃ m, _calculate_route_metrics self (detail_route d) = Ok m ∧
           detail_travel_time d = travel_time m ∧
           detail_total_cost d = total_cost m ∧
           detail_it_components d = it_components m.
Proof.
  pose (P := λ (done : list (string * num)) (details : list (string * hospital_detail)),
    details.*1 = done.*1 ∧
    ∀ h d, (h, d) ∈ details →
      route_of st h = Ok (detail_route d) ∧ detail_lam d = key h ∧
      ∃ m, _calculate_route_metrics self (detail_route d) = Ok m ∧
           detail_travel_time d = travel_time m ∧
           detail_total_cost d = total_cost m ∧
           detail_it_components d = it_components m).
  destruct (for_each_inv_prefix P (detail_step self st) (found_hospitals st) [])
    as (details & Hrun & Hkeys & Hall).
  - split; [done|]. intros h d Hin. by apply elem_of_nil in Hin.
  - intros done [h x] details [Hkeys Hall] [rest Hrest].
    assert (Hh : h ∈ (found_hospitals st).*1).
    { rewrite Hrest, fmap_app. apply elem_of_app. right. by left. }
    destruct (route_of_total self destination hospitals st HI h) as (route & Hroute).
    { by apply (found_visited self destination hospitals st HI). }
    destruct (metrics_total self route) as (m & Hm).
    unfold detail_step. cbn [fst snd]. rewrite Hroute. cbn [mbind exc_mbind exc_bind].
    rewrite Hm. cbn [mbind exc_mbind exc_bind].
    rewrite (found_get_key self destination hospitals st HI h Hh).
    cbn [mbind exc_mbind exc_bind].
    eexists. split; [done|]. split.
    + rewrite !fmap_app, Hkeys. done.
    + intros h' d [Hin|[= -> ->]%list_elem_of_singleton]%elem_of_app; [by apply Hall|].
      simpl. split; [done|]. split; [done|]. by exists m.
  - by exists details.
Qed.

Lemma extract_none :
  found_hospitals st = [] →
  extract_solution self st = Ok (NoReachable "No reachable hospitals found").
Proof. intros H. unfold extract_solution. by rewrite H. Qed.

Lemma extract_some :
  found_hospitals st ≠ [] →
  ∃ r l1 l2,
    extract_solution self st = Ok (Dispatched r) ∧
    (found_hospitals st).*1 = l1 ++ optimal_hospital r :: l2 ∧
    (∀ h, h ∈ l1 → num_ltb (key (optimal_hospital r)) (key h) = true) ∧
    (∀ h, h ∈ l2 → num_ltb (key h) (key (optimal_hospital r)) = false) ∧
    optimal_cost r = key (optimal_hospital r) ∧
    route_of st (optimal_hospital r) = Ok (optimal_route r) ∧
    result_pred r = pred st ∧ result_lambda r = lam st ∧
    for_each (detail_step self st) [] (found_hospitals st) = Ok (all_hospitals r).
Proof.
  intros Hne. unfold extract_solution.
  destruct (found_hospitals st) as [|[first x] others] eqn:Hfound; [done|].
  rewrite <- Hfound.
  destruct (argmin_found_spec self destination hospitals st HI first others.*1)
    as (h_star & l1 & l2 & Harg & Hsplit & H1 & H2).
  { by rewrite Hfound. }
  assert (Hh : h_star ∈ (found_hospitals st).*1).
  { rewrite Hfound. csimpl. rewrite Hsplit. apply elem_of_app. right. by left. }
  rewrite Harg. cbn [mbind exc_mbind exc_bind].
  rewrite (found_get_key self destination hospitals st HI h_star Hh).
  cbn [mbind exc_mbind exc_bind].
  destruct (route_of_total self destination hospitals st HI h_star) as (route & Hroute).
  { by apply (found_visited self destination hospitals st HI). }
  rewrite Hroute. cbn [mbind exc_mbind exc_bind].
  destruct (metrics_total self route) as (m & ->). cbn [mbind exc_mbind exc_bind].
  destruct details_total as (details & -> & _). cbn [mbind exc_mbind exc_bind].
  eexists _, l1, l2. split; [done|]. simpl.
  split; [by rewrite Hfound|]. done.
Qed.
End Result.

(** ** Construction *)

Lemma init_spec (g : graph) :
  ∃ self, init g = Ok self ∧
    G self = g ∧ V self = collect_vertices g ∧ dom (G_prime self) = collect_vertices g ∧
    (∀ v u a, has_edge (G_prime self) v u a ↔ has_edge g u v a) ∧
    w_T self = 0.619%Q ∧ w_R self = 0.284%Q ∧ w_C self = 0.096%Q ∧
    v_net self = 0.623%Q ∧ v_gps self = 0.239%Q ∧ v_data self = 0.137%Q.
Proof.
  destruct (reverse_graph_spec g) as (gp & Hgp & Hdom & Hedges).
  unfold init. rewrite Hgp. simpl. eexists. split; [done|]. simpl. done.
Qed.

Lemma init_targets (g : graph) (self : ReverseSingleSourceDijkstra) :
  init g = Ok self →
  ∀ k n a, has_edge (G_prime self) k n a → n ∈ V self.
Proof.
  intros Hinit k n a Hedge.
  destruct (init_spec g) as (self' & Hinit' & _ & HV & _ & Hedges & _).
  rewrite Hinit in Hinit'. injection Hinit' as <-.
  rewrite HV. apply collect_vertices_spec. left.
  apply Hedges in Hedge as (row & Hrow & _). apply elem_of_dom. by exists row.
Qed.

Lemma init_nonneg (g : graph) (self : ReverseSingleSourceDijkstra) :
  init g = Ok self → nonnegative g → nonneg_weights self.
Proof.
  intros Hinit Hnn k n a Hedge.
  destruct (init_spec g) as (self' & Hinit' & _ & _ & _ & Hedges & HT & HR & HC & Hn & Hg & Hd).
  rewrite Hinit in Hinit'. injection Hinit' as <-.
  apply Hedges in Hedge. destruct (Hnn _ _ _ Hedge) as (H1 & H2 & H3 & H4 & H5).
  unfold _calculate_composite_weight. rewrite HT, HR, HC, Hn, Hg, Hd. lra.
Qed.

Lemma nonnegativeb_spec (g : graph) : nonnegativeb g = true → nonnegative g.
Proof.
  unfold nonnegativeb, nonnegative. rewrite forallb_forall.
  intros Hall u v a (row & Hrow & Ha).
  specialize (Hall (u, row)). rewrite forallb_forall in Hall.
  specialize (Hall ltac:(by apply list_elem_of_In, elem_of_map_to_list) (v, a)
                   ltac:(by apply list_elem_of_In, elem_of_map_to_list)).
  unfold nonneg_attributes in Hall. simpl in Hall.
  repeat (apply andb_true_iff in Hall as [Hall ?]).
  repeat split; by apply Qle_bool_iff.
Qed.

(** * The claims of the specification *)

(** ** Composite weight *)

(** C9: for every edge payload, the composite weight that the relaxation
    step computes is
    [w_T·time + w_R·(v_net·network + v_gps·gps + v_data·data) + w_C·cost]
    with the coefficients 0.619, 0.284, 0.096, 0.623, 0.239 and 0.137 that
    the constructor sets. *)
Theorem composite_weight_formula (g : graph) (a : attributes) :
  ∃ self, init g = Ok self ∧
    _calculate_composite_weight self a =
      (0.619 * time a
       + 0.284 * (0.623 * network (it_risk a) + 0.239 * gps (it_risk a)
                  + 0.137 * data (it_risk a))
       + 0.096 * cost a)%Q.
Proof.
  destruct (init_spec g) as (self & Hinit & _ & _ & _ & _ & HT & HR & HC & Hn & Hg & Hd).
  exists self. split; [done|].
  unfold _calculate_composite_weight. by rewrite HT, HR, HC, Hn, Hg, Hd.
Qed.

(** ** Graph reversal *)

(** C5: the construction never fails; the reversed graph has the edge
    [v → u] with payload [a] exactly when the graph has the edge [u → v] with
    payload [a] (a row of a map holds one payload per key, so the edge is
    unique), and its keys are the derived vertex set: the keys of the graph
    and the targets of its edges. *)
Theorem reversed_graph_correct (g : graph) :
  ∃ self, init g = Ok self ∧
    (∀ u v a, has_edge (G_prime self) v u a ↔ has_edge g u v a) ∧
    (∀ x, x ∈ V self ↔ x ∈ dom g ∨ ∃ u a, has_edge g u x a) ∧
    dom (G_prime self) = V self.
Proof.
  destruct (init_spec g) as (self & Hinit & _ & HV & Hdom & Hedges & _).
  exists self. split; [done|]. split; [|split].
  - intros u v a. apply Hedges.
  - intros x. rewrite HV. apply collect_vertices_spec.
  - congruence.
Qed.

(** ** Metrics *)

Lemma for_each_app {A S : Type} (body : S → A → exc S) (s : S) (l1 l2 : list A) :
  for_each body s (l1 ++ l2) = for_each body s l1 ≫= λ s', for_each body s' l2.
Proof.
  revert s. induction l1 as [|x l1 IH]; intros s; simpl; [done|].
  destruct (body s x); [apply IH|done].
Qed.

Lemma for_each_total {A S : Type} (body : S → A → exc S) (s : S) (l : list A) :
  (∀ s x, x ∈ l → ∃ s', body s x = Ok s') → ∃ s', for_each body s l = Ok s'.
Proof.
  intros Hbody. destruct (for_each_inv (λ _, True) body l s) as (s' & Hs' & _); [done| |by exists s'].
  intros s0 x _ Hx. destruct (Hbody s0 x Hx) as [s' Hs']. by exists s'.
Qed.

Lemma metrics_step_total (self : ReverseSingleSourceDijkstra) (route : list string)
    (acc : metrics) (i : nat) :
  (i + 1 < length route)%nat → ∃ acc', metrics_step self route acc i = Ok acc'.
Proof.
  intros Hi. unfold metrics_step, route_at.
  destruct (lookup_lt_is_Some_2 route i) as [u ->]; [lia|].
  destruct (lookup_lt_is_Some_2 route (i + 1)) as [v ->]; [lia|]. simpl.
  destruct (G self !! u) as [row|]; [|by eexists].
  destruct (row !! v); by eexists.
Qed.

(** C8: a consecutive pair [(u, v)] of the route that is not an edge of the
    forward graph leaves every total as it was, and the computation goes on:
    the metrics of the route are those accumulated over the segments before
    and after the pair. No route makes the aggregation raise. *)
Theorem metrics_skip_missing_edge (self : ReverseSingleSourceDijkstra)
    (l1 l2 : list string) (u v : string) :
  edge_lookup (G self) u v = None →
  (∀ acc, metrics_step self (l1 ++ u :: v :: l2) acc (length l1) = Ok acc) ∧
  (∃ before m,
     for_each (metrics_step self (l1 ++ u :: v :: l2)) metrics_zero
       (seq 0 (length l1)) = Ok before ∧
     for_each (metrics_step self (l1 ++ u :: v :: l2)) before
       (seq (S (length l1)) (length l2)) = Ok m ∧
     _calculate_route_metrics self (l1 ++ u :: v :: l2) = Ok m) ∧
  (∀ route, ∃ m, _calculate_route_metrics self route = Ok m).
Proof.
  intros Hmiss. set (route := l1 ++ u :: v :: l2).
  assert (Hlen : length route = (length l1 + S (S (length l2)))%nat).
  { unfold route. rewrite length_app. done. }
  assert (Hstep : ∀ acc, metrics_step self route acc (length l1) = Ok acc).
  { intros acc. unfold metrics_step, route_at, route.
    rewrite (list_lookup_middle l1 (v :: l2) u (length l1)) by done.
    replace (l1 ++ u :: v :: l2) with ((l1 ++ [u]) ++ v :: l2) by (by rewrite <- app_assoc).
    rewrite (list_lookup_middle (l1 ++ [u]) l2 v (length l1 + 1))
      by (rewrite length_app; simpl; lia).
    simpl.
    unfold edge_lookup in Hmiss. destruct (G self !! u) as [row|]; [|done].
    by rewrite Hmiss. }
  split; [done|]. split; [|apply metrics_total].
  destruct (for_each_total (metrics_step self route) metrics_zero (seq 0 (length l1)))
    as (before & Hbefore).
  { intros acc i Hi%elem_of_seq. apply metrics_step_total. lia. }
  destruct (for_each_total (metrics_step self route) before (seq (S (length l1)) (length l2)))
    as (m & Hm).
  { intros acc i Hi%elem_of_seq. apply metrics_step_total. lia. }
  exists before, m. split; [done|]. split; [done|].
  unfold _calculate_route_metrics. fold route. rewrite Hlen.
  replace (length l1 + S (S (length l2)) - 1)%nat with (length l1 + (1 + length l2))%nat by lia.
  rewrite seq_app, for_each_app, Hbefore. simpl. rewrite Hstep. done.
Qed.

Lemma metrics_skip_missing_edge_witness :
  _calculate_route_metrics
    {| G := create_network; G_prime := ∅; V := ∅; w_T := 0.619; w_R := 0.284;
       w_C := 0.096; v_net := 0.623; v_gps := 0.239; v_data := 0.137 |}
    ["Tunisia_Mall"; "Ain_Zaghouan"] = Ok metrics_zero.
Proof.
  destruct (metrics_skip_missing_edge
    {| G := create_network; G_prime := ∅; V := ∅; w_T := 0.619; w_R := 0.284;
       w_C := 0.096; v_net := 0.623; v_gps := 0.239; v_data := 0.137 |}
    [] [] "Tunisia_Mall" "Ain_Zaghouan") as (_ & (before & m & H1 & H2 & H3) & _).
  - vm_compute. reflexivity.
  - simpl in H1, H2. injection H1 as <-. injection H2 as <-. exact H3.
Defined.

(** ** The search *)

Lemma find_optimal_dispatch_run (self : ReverseSingleSourceDijkstra)
    (destination : string) (hospitals : list string) (st : state) :
  search self destination hospitals = Ok st →
  find_optimal_dispatch self destination hospitals = extract_solution self st.
Proof. intros H. unfold find_optimal_dispatch. by rewrite H. Qed.



(** ** Selection *)

Lemma iteration_ext (self : ReverseSingleSourceDijkstra) (hospitals hospitals' : list string)
    (st : state) (q : Q) (k : string) (rest : list entry) :
  (∀ x, x ∈ hospitals ↔ x ∈ hospitals') →
  iteration self hospitals' st q k rest = iteration self hospitals st q k rest.
Proof.
  intros Hsame. unfold iteration.
  by rewrite (bool_decide_ext (k ∈ hospitals') (k ∈ hospitals)) by (symmetry; apply Hsame).
Qed.

Lemma dijkstra_loop_ext (self : ReverseSingleSourceDijkstra) (hospitals hospitals' : list string)
    (fuel : nat) (st : state) :
  (∀ x, x ∈ hospitals ↔ x ∈ hospitals') →
  dijkstra_loop self hospitals' fuel st = dijkstra_loop self hospitals fuel st.
Proof.
  intros Hsame. revert st. induction fuel as [|fuel IH]; intros st; simpl; [done|].
  destruct (heappop (queue st)) as [[[q k] rest]|]; [|done].
  rewrite (iteration_ext self hospitals hospitals') by done.
  destruct (iteration self hospitals st q k rest); [apply IH|done].
Qed.

(** C4: a candidate with a finite distance makes the dispatch succeed; the
    selected candidate is one of the candidates, its cost is its distance and
    is at most the distance of every candidate with a finite distance; a
    different candidate at the same distance was visited after the selected
    one. Lists of candidates with the same members give the same result. *)
Theorem selection_least_first_visited (g : graph) (destination : string)
    (hospitals hospitals' : list string) :
  (∀ x, x ∈ hospitals ↔ x ∈ hospitals') →
  ∃ self st, init g = Ok self ∧ search self destination hospitals = Ok st ∧
    find_optimal_dispatch self destination hospitals'
      = find_optimal_dispatch self destination hospitals ∧
    ∀ h d, h ∈ hospitals → lam st !! h = Some (Fin d) →
      ∃ r c, find_optimal_dispatch self destination hospitals = Ok (Dispatched r) ∧
        optimal_hospital r ∈ hospitals ∧
        lam st !! optimal_hospital r = Some (Fin c) ∧ optimal_cost r = Fin c ∧
        (c <= d)%Q ∧
        (c == d → h ≠ optimal_hospital r →
         visited_before (visited st) (optimal_hospital r) h).
Proof.
  intros Hsame. destruct (init_spec g) as (self & Hinit & _).
  pose proof (init_targets g self Hinit) as HV.
  destruct (search_inv self destination hospitals HV) as (st & Hsearch & HI & Hq).
  exists self, st. split; [done|]. split; [done|]. split.
  { unfold find_optimal_dispatch, search. by rewrite (dijkstra_loop_ext self hospitals hospitals'). }
  intros h d Hh Hd.
  assert (Hfound : h ∈ (found_hospitals st).*1).
  { apply (found_visited self destination hospitals st HI). split; [|done].
    by apply (final_visited self destination hospitals st h d). }
  destruct (extract_some self destination hospitals st HI)
    as (r & l1 & l2 & Hex & Hsplit & H1 & H2 & Hcost & _).
  { intros Hnil. rewrite Hnil in Hfound. by apply elem_of_nil in Hfound. }
  assert (Hstar : optimal_hospital r ∈ (found_hospitals st).*1).
  { rewrite Hsplit. apply elem_of_app. right. by left. }
  apply (found_visited self destination hospitals st HI) in Hstar as [Hsv Hsh].
  destruct (inv_visited _ _ _ _ HI _ Hsv) as (c & Hc).
  exists r, c. split; [by rewrite (find_optimal_dispatch_run _ _ _ st)|].
  split; [done|]. split; [done|]. rewrite Hcost, Hc. split; [done|].
  rewrite Hsplit in Hfound.
  apply elem_of_app in Hfound as [Hin|[->|Hin]%elem_of_cons].
  - specialize (H1 h Hin). rewrite Hc, Hd in H1. simpl in H1. apply Qltb_lt in H1.
    split; [by apply Qlt_le_weak|]. intros Heq. rewrite Heq in H1.
    by apply Qlt_irrefl in H1.
  - rewrite Hc in Hd. injection Hd as ->. split; [apply Qle_refl|done].
  - specialize (H2 h Hin). rewrite Hc, Hd in H2. simpl in H2. apply Qltb_ge in H2.
    split; [done|]. intros _ _.
    apply (filter_split_before (λ h, h ∈ hospitals) (visited st) l1 l2); [|done].
    by rewrite <- (found_fst self destination hospitals st HI).
Qed.

Lemma selection_least_first_visited_witness :
  ∃ self st, init create_network = Ok self ∧
    search self "Tunisia_Mall" main_hospitals = Ok st ∧
    find_optimal_dispatch self "Tunisia_Mall" (reverse main_hospitals)
      = find_optimal_dispatch self "Tunisia_Mall" main_hospitals ∧
    ∀ h d, h ∈ main_hospitals → lam st !! h = Some (Fin d) →
      ∃ r c, find_optimal_dispatch self "Tunisia_Mall" main_hospitals = Ok (Dispatched r) ∧
        optimal_hospital r ∈ main_hospitals ∧
        lam st !! optimal_hospital r = Some (Fin c) ∧ optimal_cost r = Fin c ∧
        (c <= d)%Q ∧
        (c == d → h ≠ optimal_hospital r →
         visited_before (visited st) (optimal_hospital r) h).
Proof.
  apply (selection_least_first_visited create_network "Tunisia_Mall"
           main_hospitals (reverse main_hospitals)).
  intros x. vm_compute reverse. unfold main_hospitals.
  rewrite !elem_of_cons. tauto.
Defined.

(** ** The destination as a candidate *)



(** ** Routes and metrics on the network of [create_network] *)

(** C1: on the network of [create_network] the dispatch selects
    [Mongi_Slim], and every route it returns is the predecessor chain
    reversed: it starts at the destination [Tunisia_Mall] and ends at the
    candidate, where the claim has it start at the candidate and end at the
    destination. The chain itself, which [_reconstruct_original_path]
    returns, starts at the candidate. *)
Theorem sample_routes_start_at_destination :
  ∃ r, run create_network "Tunisia_Mall" main_hospitals = Ok (Dispatched r) ∧
    optimal_hospital r = "Mongi_Slim" ∧
    optimal_route r = ["Tunisia_Mall"; "Ain_Zaghouan"; "Mongi_Slim"] ∧
    (λ hd : string * hospital_detail, (hd.1, detail_route hd.2)) <$> all_hospitals r =
      [("Mongi_Slim", ["Tunisia_Mall"; "Ain_Zaghouan"; "Mongi_Slim"]);
       ("Habib_Thamer", ["Tunisia_Mall"; "Avenue_Moncef_Bey"; "Habib_Thamer"]);
       ("Charles_Nicolle", ["Tunisia_Mall"; "Bab_Sadoun"; "Charles_Nicolle"]);
       ("Rabta", ["Tunisia_Mall"; "Bab_Sadoun"; "Rabta"])] ∧
    _reconstruct_original_path 3 "Mongi_Slim" (result_pred r)
      = Ok ["Mongi_Slim"; "Ain_Zaghouan"; "Tunisia_Mall"].
Proof.
  destruct (run create_network "Tunisia_Mall" main_hospitals) as [[msg|r]|e] eqn:E;
    vm_compute in E; try discriminate E.
  injection E as <-. eexists. split; [reflexivity|].
  repeat split; vm_compute; reflexivity.
Qed.

(** C2: on the same network the metrics of every returned route are zero,
    since no consecutive pair of a reversed route is an edge of the forward
    graph, while the distance of [Mongi_Slim] is 6.1091496: the weighted
    sum of the metrics is not within the tolerance of the distance. *)
Theorem sample_metrics_do_not_reconcile :
  ∃ r d x, run create_network "Tunisia_Mall" main_hospitals = Ok (Dispatched r) ∧
    all_hospitals r !! 0%nat = Some ("Mongi_Slim", d) ∧
    detail_lam d = Fin x ∧ optimal_cost r = Fin x ∧
    x == 6.1091496 ∧
    (0.619 * detail_travel_time d
     + (network (detail_it_components d) + gps (detail_it_components d)
        + data (detail_it_components d))
     + 0.096 * detail_total_cost d == 0)%Q ∧
    ¬ (Qabs (0 - x) <= 0.000000001 * x)%Q.
Proof.
  destruct (run create_network "Tunisia_Mall" main_hospitals) as [[msg|r]|e] eqn:E;
    vm_compute in E; try discriminate E.
  injection E as <-. eexists _, _, _. split; [reflexivity|].
  split; [reflexivity|]. split; [reflexivity|]. split; [reflexivity|].
  split; [vm_compute; reflexivity|]. split; [vm_compute; reflexivity|].
  vm_compute. intros H. apply H. reflexivity.
Qed.

(** * The order of the queue and of the neighbours *)

Lemma iteration_on_items (self : ReverseSingleSourceDijkstra) (hospitals : list string)
    (st : state) (q : Q) (k : string) (rest : list entry) :
  iteration self hospitals st q k rest =
  iteration_on self hospitals st q k rest (map_to_list (get_default (G_prime self) k ∅)).
Proof. reflexivity. Qed.

Lemma entry_le_antisym (a b : entry) :
  entry_le a b → entry_le b a → (a.1 == b.1)%Q ∧ a.2 = b.2.
Proof.
  intros [Hlt|[Heq Hs]] [Hlt'|[Heq' Hs']].
  - exfalso. apply (Qlt_irrefl a.1). by apply Qlt_trans with b.1.
  - exfalso. rewrite Heq' in Hlt. by apply Qlt_irrefl in Hlt.
  - exfalso. rewrite Heq in Hlt'. by apply Qlt_irrefl in Hlt'.
  - split; [done|]. rewrite (String.compare_antisym b.2 a.2) in Hs'.
    destruct (a.2 ?= b.2)%string eqn:E; simpl in *; try done.
    by apply String.compare_eq_iff.
Qed.

(** The loop over the neighbours appends its pushes to the queue, in the
    order of the neighbours. *)
Lemma relax_loop_pushes (self : ReverseSingleSourceDijkstra) (q : Q) (k : string)
    (l : list (string * attributes)) (st0 : state) :
  NoDup l.*1 →
  (∀ n a, (n, a) ∈ l → n ∈ visited st0 ∨ is_Some (lam st0 !! n)) →
  ∃ st1, for_each (relax self q k) st0 l = Ok st1 ∧
    relax_post self q k (list_to_map l) st0 st1 ∧
    queue st1 = queue st0 ++ pushes self q st0 l.
Proof.
  induction l as [|[n a] l IH] using rev_ind; intros Hnd Hkeys.
  - destruct (relax_loop_list self q k [] st0) as (st1 & H1 & H2); [done|done|].
    exists st1. split; [done|]. split; [done|].
    simpl in H1. injection H1 as <-. unfold pushes. simpl. by rewrite app_nil_r.
  - destruct (relax_loop_list self q k (l ++ [(n, a)]) st0) as (st1 & H1 & H2); [done|done|].
    exists st1. split; [done|]. split; [done|].
    rewrite fmap_app in Hnd. apply NoDup_app in Hnd as (Hnd & Hfresh & _).
    destruct IH as (st_l & Hl & Hpost & Hq); [done| |].
    { intros n' a' H. apply (Hkeys n' a'). apply elem_of_app. by left. }
    assert (Hn : n ∉ l.*1).
    { intros Hn. apply (Hfresh n Hn). simpl. by left. }
    assert (Hlam : lam st_l !! n = lam st0 !! n).
    { rewrite (post_lam _ _ _ _ _ _ Hpost n).
      by rewrite (not_elem_of_list_to_map_1 l n Hn). }
    assert (Hr : relaxes self st_l q a n = relaxes self st0 q a n).
    { unfold relaxes. by rewrite (post_visited _ _ _ _ _ _ Hpost), Hlam. }
    destruct (relax_step self q k st_l n a) as (st' & Hst' & _ & _ & Hcase).
    { rewrite (post_visited _ _ _ _ _ _ Hpost), Hlam. apply (Hkeys n a).
      apply elem_of_app. right. by left. }
    rewrite for_each_app, Hl in H1. simpl in H1. rewrite Hst' in H1.
    injection H1 as <-.
    unfold pushes. rewrite omap_app. simpl. fold (pushes self q st0 l).
    rewrite Hr in Hcase. destruct (relaxes self st0 q a n).
    + destruct Hcase as (_ & _ & ->). rewrite Hq. by rewrite app_assoc.
    + subst st'. rewrite Hq. by rewrite app_nil_r.
Qed.

Section Schedule.
Context (self : ReverseSingleSourceDijkstra) (destination : string)
        (hospitals : list string).
Hypothesis HV : ∀ k n a, has_edge (G_prime self) k n a → n ∈ V self.

Local Abbreviation Inv := (inv self destination hospitals).

Lemma no_ties_initial : no_ties (initial_state self destination).
Proof.
  intros q1 q2 n H1 H2 _. simpl in H1, H2.
  apply list_elem_of_singleton in H1, H2. congruence.
Qed.

(** An iteration keeps the invariant and uses up fuel. *)
Lemma iteration_progress (st st1 : state) (q : Q) (k : string) (rest : list entry) :
  Inv st →
  heappop (queue st) = Some ((q, k), rest) →
  iteration self hospitals st q k rest = Ok st1 →
  Inv st1 ∧
  (length (queue st1) + unvisited_degree self (visited st1)
   < length (queue st) + unvisited_degree self (visited st))%nat.
Proof.
  intros HI Hpop Hit.
  destruct (heappop_spec _ _ _ Hpop) as [Hperm _].
  apply Permutation_length in Hperm. simpl in Hperm.
  destruct (iteration_cases self destination hospitals HV st q k rest HI Hpop)
    as [(c & Hc & Hskip & Hit')|(Hk & Hkv & st1' & Hit' & Hpost)];
    rewrite Hit' in Hit; injection Hit as <-.
  - split; [by eapply inv_skip|]. simpl. lia.
  - split; [by eapply inv_visit|].
    rewrite (post_visited _ _ _ _ _ _ Hpost). simpl.
    pose proof (post_length _ _ _ _ _ _ Hpost) as Hlen. simpl in Hlen.
    pose proof (degree_visit self (visited st) k Hkv). lia.
Qed.

(** A push is strictly below every entry of the queue for the same node:
    the queue never holds two entries that tie. *)
Lemma no_ties_step (st st1 : state) (q : Q) (k : string) (rest : list entry) :
  Inv st → no_ties st →
  heappop (queue st) = Some ((q, k), rest) →
  iteration self hospitals st q k rest = Ok st1 →
  no_ties st1.
Proof.
  intros HI HNT Hpop Hit.
  destruct (heappop_spec _ _ _ Hpop) as [Hperm _].
  assert (Hrest : ∀ e, e ∈ rest → e ∈ queue st).
  { intros e He. rewrite Hperm. by right. }
  destruct (iteration_cases self destination hospitals HV st q k rest HI Hpop)
    as [(c & Hc & Hskip & Hit')|(Hk & Hkv & st1' & Hit' & Hpost)];
    rewrite Hit' in Hit; injection Hit as <-.
  - intros q1 q2 n H1 H2. simpl in H1, H2. apply (HNT q1 q2 n); by apply Hrest.
  - assert (Hold : ∀ q1 q2 n a old,
              (q1, n) ∈ rest →
              lam st !! n = Some old →
              num_ltb (Fin (q + _calculate_composite_weight self a)) old = true →
              q2 = (q + _calculate_composite_weight self a)%Q → ¬ (q1 == q2)%Q).
    { intros q1 q2 n a old H1 Hl Hlt -> Heq.
      destruct (inv_queue _ _ _ _ HI q1 n (Hrest _ H1)) as (c & Hc & Hcq).
      rewrite Hc in Hl. injection Hl as <-.
      apply num_ltb_Fin in Hlt as [[=]|(b & [= <-] & Hlt)].
      destruct Hcq as [->|Hcq].
      - rewrite Heq in Hlt. by apply Qlt_irrefl in Hlt.
      - rewrite <- Heq in Hlt. apply (Qlt_irrefl c). by apply Qlt_trans with q1. }
    intros q1 q2 n H1 H2 Heq.
    apply (post_queue_cases _ _ _ _ _ _ Hpost) in H1, H2. simpl in H1, H2.
    destruct H1 as [H1|(a1 & old1 & Hrow1 & _ & Hold1 & Hlt1 & Hq1 & _)],
             H2 as [H2|(a2 & old2 & Hrow2 & _ & Hold2 & Hlt2 & Hq2 & _)].
    + apply (HNT q1 q2 n); [by apply Hrest|by apply Hrest|done].
    + exfalso. by apply (Hold q1 q2 n a2 old2).
    + exfalso. apply (Hold q2 q1 n a1 old1); [done|done|done|done|by symmetry].
    + congruence.
Qed.

(** Two iterations on states that differ in the arrangement of the queue,
    with the neighbours in two orders, end in such states. *)
Lemma iteration_on_sim (st st' st1 : state) (q : Q) (k : string)
    (rest rest' : list entry) (l l' : list (string * attributes)) :
  same_up_to_queue st st' → rest ≡ₚ rest' → l ≡ₚ l' → NoDup l'.*1 →
  (∀ n a, (n, a) ∈ l' → is_Some (lam st' !! n)) →
  iteration_on self hospitals st q k rest l = Ok st1 →
  ∃ st1', iteration_on self hospitals st' q k rest' l' = Ok st1' ∧
    same_up_to_queue st1 st1'.
Proof.
  destruct st as [lm pd qu vs fd], st' as [lm' pd' qu' vs' fd'].
  intros (Hlam & Hpred & Hvis & Hfound & Hqueue) Hrest Hl Hnd Hkeys.
  simpl in Hlam, Hpred, Hvis, Hfound, Hqueue, Hkeys. subst lm' pd' vs' fd'.
  unfold iteration_on. cbn [lam pred queue visited found_hospitals].
  destruct (getitem lm k) as [cur|e] eqn:Hcur; [|done]. csimpl.
  destruct (num_ltb cur (Fin q) || bool_decide (k ∈ vs)).
  { intros [= <-]. eexists. split; [done|]. by repeat split. }
  destruct (if bool_decide (k ∈ hospitals) && negb (in_found k fd)
            then Ok (fd ++ [(k, cur)]) else Ok fd) as [fd1|e] eqn:Hfd; [|done].
  csimpl. intros Hit.
  assert (Hnd0 : NoDup l.*1) by (by rewrite Hl).
  destruct (relax_loop_pushes self q k l
              {| lam := lm; pred := pd; queue := rest;
                 visited := vs ++ [k]; found_hospitals := fd1 |})
    as (s1 & H1 & P1 & Q1); [done| |].
  { intros n a Hn. right. apply (Hkeys n a). by rewrite <- Hl. }
  rewrite H1 in Hit. injection Hit as <-.
  destruct (relax_loop_pushes self q k l'
              {| lam := lm; pred := pd; queue := rest';
                 visited := vs ++ [k]; found_hospitals := fd1 |})
    as (s1' & H1' & P1' & Q1'); [done| |].
  { intros n a Hn. right. by apply (Hkeys n a). }
  exists s1'. split; [done|].
  assert (Hmap : (list_to_map l : gmap string attributes) = list_to_map l').
  { by apply list_to_map_proper. }
  repeat split.
  - apply map_eq. intros n.
    rewrite (post_lam _ _ _ _ _ _ P1 n), (post_lam _ _ _ _ _ _ P1' n). by rewrite Hmap.
  - apply map_eq. intros n.
    rewrite (post_pred _ _ _ _ _ _ P1 n), (post_pred _ _ _ _ _ _ P1' n). by rewrite Hmap.
  - by rewrite (post_visited _ _ _ _ _ _ P1), (post_visited _ _ _ _ _ _ P1').
  - by rewrite (post_found _ _ _ _ _ _ P1), (post_found _ _ _ _ _ _ P1').
  - rewrite Q1, Q1'. cbn [queue]. apply Permutation_app; [done|].
    unfold pushes. by apply omap_Permutation.
Qed.

Lemma same_up_to_queue_sym (st st' : state) :
  same_up_to_queue st st' → same_up_to_queue st' st.
Proof. intros (H1 & H2 & H3 & H4 & H5). by repeat split. Qed.

(** More fuel does not change the result of the loop. *)
Lemma dijkstra_loop_fuel (fuel fuel' : nat) (st st' : state) :
  dijkstra_loop self hospitals fuel st = Ok st' → (fuel ≤ fuel')%nat →
  dijkstra_loop self hospitals fuel' st = Ok st'.
Proof.
  revert fuel' st. induction fuel as [|fuel IH]; intros fuel' st; simpl;
    destruct (heappop (queue st)) as [[[q k] rest]|] eqn:Hpop; try done.
  - intros [= <-] _. destruct fuel'; simpl; by rewrite Hpop.
  - destruct (iteration self hospitals st q k rest) as [st1|e] eqn:Hit; [|done].
    intros Hloop Hle. destruct fuel' as [|fuel']; [lia|]. simpl.
    rewrite Hpop, Hit. apply IH; [done|lia].
  - intros [= <-] _. destruct fuel'; simpl; by rewrite Hpop.
Qed.

(** The entry that an execution pops is the entry that [heappop] returns. *)
Lemma least_is_popped (st s : state) (q : Q) (k : string) (rest : list entry) :
  same_up_to_queue st s → no_ties s →
  queue st ≡ₚ (q, k) :: rest →
  (∀ e, e ∈ queue st → entry_ltb e (q, k) = false) →
  ∃ rest2, heappop (queue s) = Some ((q, k), rest2) ∧ rest ≡ₚ rest2.
Proof.
  intros (_ & _ & _ & _ & Hqueue) HNT Hperm Hleast.
  destruct (heappop (queue s)) as [[[q2 k2] rest2]|] eqn:Hpop.
  2:{ apply heappop_None in Hpop. rewrite Hpop, Hperm in Hqueue.
      by apply Permutation_nil_r in Hqueue. }
  destruct (heappop_spec _ _ _ Hpop) as [Hperm2 Hmin2].
  assert (Hin : (q, k) ∈ queue s) by (rewrite <- Hqueue, Hperm; by left).
  assert (Hin2 : (q2, k2) ∈ queue s) by (rewrite Hperm2; by left).
  destruct (entry_le_antisym (q, k) (q2, k2)) as [Heq Hk].
  { apply entry_ltb_false, Hleast. by rewrite Hqueue. }
  { by apply Hmin2. }
  simpl in Heq, Hk. subst k2.
  assert (q = q2) as <- by (by apply (HNT q q2 k)).
  exists rest2. split; [done|].
  apply (Permutation_cons_inv (a := (q, k))). by rewrite <- Hperm, Hqueue.
Qed.

Lemma row_keys (s : state) (k : string) :
  Inv s → ∀ n a, (n, a) ∈ map_to_list (get_default (G_prime self) k ∅) →
    is_Some (lam s !! n).
Proof.
  intros HI n a Hn. apply (inv_keys _ _ _ _ HI), (HV k n a).
  apply row_edge. by apply elem_of_map_to_list.
Qed.

(** The iterations of an execution are iterations of the loop of the
    model, up to the arrangement of the queue; each uses up fuel. *)
Lemma run_steps_canonical (n : nat) (st1 st1' : state) :
  run_steps self hospitals n st1 st1' →
  ∀ st2, same_up_to_queue st1 st2 → Inv st2 → no_ties st2 →
    ∃ st2', same_up_to_queue st1' st2' ∧ Inv st2' ∧ no_ties st2' ∧
      (length (queue st2') + unvisited_degree self (visited st2') + n
       ≤ length (queue st2) + unvisited_degree self (visited st2))%nat ∧
      ∀ fuel st3, dijkstra_loop self hospitals fuel st2' = Ok st3 →
        dijkstra_loop self hospitals (n + fuel) st2 = Ok st3.
Proof.
  induction 1 as [st|n st st1 st2 q k rest l Hperm Hleast Hl Hit Hrun IH];
    intros s Hsim HI HNT.
  - exists s. split; [done|]. split; [done|]. split; [done|]. split; [lia|]. done.
  - destruct (least_is_popped st s q k rest Hsim HNT Hperm Hleast) as (rest2 & Hpop & Hrest).
    destruct (iteration_on_sim st s st1 q k rest rest2 l
                (map_to_list (get_default (G_prime self) k ∅)))
      as (s1 & Hs1 & Hsim1); [done|done|done| | |done|].
    { apply NoDup_fst_map_to_list. }
    { by apply row_keys. }
    rewrite <- iteration_on_items in Hs1.
    destruct (iteration_progress s s1 q k rest2 HI Hpop Hs1) as [HI1 Hlt].
    destruct (IH s1 Hsim1 HI1 (no_ties_step s s1 q k rest2 HI HNT Hpop Hs1))
      as (s' & Hsim' & HI' & HNT' & Hle & Hloop).
    exists s'. split; [done|]. split; [done|]. split; [done|]. split; [lia|].
    intros fuel st3 H3. simpl. rewrite Hpop, Hs1. by apply Hloop.
Qed.

(** An execution can go on as long as the queue is not empty, whatever
    least entry and whatever order of the neighbours it takes. *)
Lemma run_steps_progress (n : nat) (st1 st1' : state) (q : Q) (k : string)
    (rest : list entry) (l : list (string * attributes)) :
  run_steps self hospitals n (initial_state self destination) st1 →
  queue st1 ≡ₚ (q, k) :: rest →
  (∀ e, e ∈ queue st1 → entry_ltb e (q, k) = false) →
  l ≡ₚ map_to_list (get_default (G_prime self) k ∅) →
  ∃ st1', iteration_on self hospitals st1 q k rest l = Ok st1'.
Proof.
  intros Hrun Hperm Hleast Hl.
  destruct (run_steps_canonical n _ _ Hrun (initial_state self destination))
    as (s & Hsim & HI & HNT & _); [by repeat split|apply inv_initial|apply no_ties_initial|].
  destruct (least_is_popped st1 s q k rest Hsim HNT Hperm Hleast) as (rest2 & Hpop & Hrest).
  assert (∃ s1, iteration self hospitals s q k rest2 = Ok s1) as [s1 Hs1].
  { destruct (iteration_cases self destination hospitals HV s q k rest2 HI Hpop)
      as [(c & _ & _ & Hit)|(_ & _ & s1 & Hit & _)]; by eexists. }
  rewrite iteration_on_items in Hs1.
  destruct (iteration_on_sim s st1 s1 q k rest2 rest
              (map_to_list (get_default (G_prime self) k ∅)) l)
    as (s1' & Hs1' & _); [by apply same_up_to_queue_sym|done|done| | |done|].
  { rewrite Hl. apply NoDup_fst_map_to_list. }
  { intros m a Hm. destruct Hsim as (Hlam & _). rewrite Hlam.
    apply (row_keys s k HI m a). by rewrite <- Hl. }
  by exists s1'.
Qed.

(** An execution from the initial state takes no more iterations than the
    fuel of the loop. *)
Lemma run_steps_bound (n : nat) (st1 : state) :
  run_steps self hospitals n (initial_state self destination) st1 →
  (n ≤ loop_fuel self)%nat.
Proof.
  intros Hrun.
  destruct (run_steps_canonical n _ _ Hrun (initial_state self destination))
    as (s & _ & _ & _ & Hle & _); [by repeat split|apply inv_initial|apply no_ties_initial|].
  rewrite <- degree_initial. unfold initial_state, heappush in Hle.
  cbn [queue visited app length] in Hle. lia.
Qed.

(** Every execution of the whole loop ends where the loop of the model
    ends. *)
Lemma run_loop_canonical (st1' st : state) :
  run_loop self hospitals (initial_state self destination) st1' →
  search self destination hospitals = Ok st →
  same_up_to_queue st1' st.
Proof.
  intros (n & Hrun & Hq) Hsearch.
  destruct (run_steps_canonical n _ _ Hrun (initial_state self destination))
    as (s & Hsim & HI & HNT & Hle & Hloop); [by repeat split|apply inv_initial|apply no_ties_initial|].
  assert (Hs : queue s = []).
  { destruct Hsim as (_ & _ & _ & _ & Hqueue). rewrite Hq in Hqueue.
    by apply Permutation_nil_l in Hqueue. }
  assert (H0 : dijkstra_loop self hospitals 0 s = Ok s).
  { simpl. by rewrite Hs. }
  apply Hloop in H0. rewrite Nat.add_0_r in H0.
  pose proof (run_steps_bound n st1' Hrun) as Hn.
  apply (dijkstra_loop_fuel n (loop_fuel self)) in H0; [|lia].
  unfold search in Hsearch. rewrite Hsearch in H0. by injection H0 as ->.
Qed.

(** The loop of the model is one of the executions. *)
Lemma dijkstra_loop_run (fuel : nat) (st st' : state) :
  dijkstra_loop self hospitals fuel st = Ok st' → run_loop self hospitals st st'.
Proof.
  revert st. induction fuel as [|fuel IH]; intros st; simpl;
    destruct (heappop (queue st)) as [[[q k] rest]|] eqn:Hpop; try done.
  - intros [= <-]. exists 0%nat. split; [constructor|]. by apply heappop_None.
  - destruct (iteration self hospitals st q k rest) as [st1|e] eqn:Hit; [|done].
    intros Hloop. destruct (heappop_spec _ _ _ Hpop) as [Hperm Hmin].
    destruct (IH st1 Hloop) as (n & Hrun & Hq).
    exists (S n). split; [|done].
    apply (steps_next self hospitals n st st1 st' q k rest
             (map_to_list (get_default (G_prime self) k ∅))); [done| |done|done|done].
    intros e He. apply entry_ltb_false. by apply Hmin.
  - intros [= <-]. exists 0%nat. split; [constructor|]. by apply heappop_None.
Qed.

(** Every pop of the loop hands out a least entry of the queue. *)
Lemma dijkstra_pops_least (fuel : nat) (st st' : state) :
  dijkstra_loop self hospitals fuel st = Ok st' →
  ∃ pops, dijkstra_pops self hospitals fuel st = Ok pops ∧
    ∀ e qu, (e, qu) ∈ pops → e ∈ qu ∧ ∀ e', e' ∈ qu → entry_le e e'.
Proof.
  revert st. induction fuel as [|fuel IH]; intros st; simpl;
    destruct (heappop (queue st)) as [[[q k] rest]|] eqn:Hpop; try done.
  - intros _. exists []. split; [done|]. intros e qu H. by apply elem_of_nil in H.
  - destruct (iteration self hospitals st q k rest) as [st1|e] eqn:Hit; [|done].
    intros Hloop. destruct (IH st1 Hloop) as (pops & -> & Hpops).
    eexists. split; [done|]. intros e qu [[= -> ->]|H]%elem_of_cons; [|by apply Hpops].
    destruct (heappop_spec _ _ _ Hpop) as [Hperm Hmin]. split; [|done].
    rewrite Hperm. by left.
  - intros _. exists []. split; [done|]. intros e qu H. by apply elem_of_nil in H.
Qed.

(** A node is visited when it is popped for the first time. *)
Lemma dijkstra_pops_visits (fuel : nat) (st st' : state)
    (pops : list (entry * list entry)) :
  Inv st →
  dijkstra_loop self hospitals fuel st = Ok st' →
  dijkstra_pops self hospitals fuel st = Ok pops →
  visited st' =
    foldl (λ (acc : list string) (k : string),
             if bool_decide (k ∈ acc) then acc else acc ++ [k])
          (visited st) pops.*1.*2.
Proof.
  revert st pops. induction fuel as [|fuel IH]; intros st pops HI; simpl;
    destruct (heappop (queue st)) as [[[q k] rest]|] eqn:Hpop; try done.
  - by intros [= <-] [= <-].
  - destruct (iteration self hospitals st q k rest) as [st1|e] eqn:Hit; [|done].
    intros Hloop Hpops.
    destruct (dijkstra_pops self hospitals fuel st1) as [pops1|e] eqn:Hpops1; [|done].
    injection Hpops as <-. csimpl.
    destruct (iteration_progress st st1 q k rest HI Hpop Hit) as [HI1 _].
    rewrite (IH st1 pops1 HI1 Hloop Hpops1). f_equal.
    destruct (heappop_spec _ _ _ Hpop) as [Hperm Hmin].
    destruct (iteration_cases self destination hospitals HV st q k rest HI Hpop)
      as [(c & Hc & Hskip & Hit')|(Hk & Hkv & st1' & Hit' & Hpost)];
      rewrite Hit' in Hit; injection Hit as <-.
    + assert (Hv : k ∈ visited st).
      { destruct Hskip as [Hlt|Hv]; [|done].
        destruct (decide (k ∈ visited st)) as [Hv|Hv]; [done|]. exfalso.
        pose proof (inv_pending _ _ _ _ HI k c Hv Hc) as Hin.
        destruct (Hmin _ Hin) as [Hlt'|[Heq _]]; simpl in *.
        - apply (Qlt_irrefl c). by apply Qlt_trans with q.
        - rewrite Heq in Hlt. by apply Qlt_irrefl in Hlt. }
      simpl. by rewrite bool_decide_eq_true_2.
    + rewrite (post_visited _ _ _ _ _ _ Hpost). simpl.
      by rewrite bool_decide_eq_false_2.
  - by intros [= <-] [= <-].
Qed.
End Schedule.

(** The extraction of the solution does not read the queue. *)
Lemma extract_solution_same (self : ReverseSingleSourceDijkstra) (st st' : state) :
  same_up_to_queue st st' → extract_solution self st = extract_solution self st'.
Proof.
  destruct st as [lm pd qu vs fd], st' as [lm' pd' qu' vs' fd'].
  intros (Hlam & Hpred & Hvis & Hfound & _). simpl in *. by subst.
Qed.

(** ** Determinism *)

(** C7: the result of a dispatch does not depend on the order in which the
    queue is arranged or in which the neighbours of a node are taken. In
    every execution of the loop in which each pop hands out an entry that no
    entry of the queue is less than, there are no more iterations than the
    fuel of the loop, an iteration is possible as long as the queue is not empty,
    and when the queue is empty the distances, predecessors, visits and found
    candidates are those of the search, which gives the result of
    [find_optimal_dispatch]. Every pop of the loop hands out a least entry of
    the queue it pops from: of the entries with the least distance the one
    with the smallest node identifier, in the lexicographic order of strings;
    and the nodes are visited in the order of their first pops. *)
Theorem dispatch_schedule_independent (g : graph) (destination : string)
    (hospitals : list string) :
  ∃ self st result pops,
    init g = Ok self ∧
    search self destination hospitals = Ok st ∧
    find_optimal_dispatch self destination hospitals = Ok result ∧
    run_loop self hospitals (initial_state self destination) st ∧
    (∀ n st', run_steps self hospitals n (initial_state self destination) st' →
       (n ≤ loop_fuel self)%nat ∧
       ∀ lam_k k rest row_items,
         queue st' ≡ₚ (lam_k, k) :: rest →
         (∀ e, e ∈ queue st' → entry_ltb e (lam_k, k) = false) →
         row_items ≡ₚ map_to_list (get_default (G_prime self) k ∅) →
         ∃ st'', iteration_on self hospitals st' lam_k k rest row_items = Ok st'') ∧
    (∀ st', run_loop self hospitals (initial_state self destination) st' →
       lam st' = lam st ∧ pred st' = pred st ∧ visited st' = visited st ∧
       found_hospitals st' = found_hospitals st ∧
       extract_solution self st' = Ok result) ∧
    dijkstra_pops self hospitals (loop_fuel self) (initial_state self destination)
      = Ok pops ∧
    (∀ e qu, (e, qu) ∈ pops →
       e ∈ qu ∧
       ∀ e', e' ∈ qu →
         (e.1 < e'.1)%Q ∨ (e.1 == e'.1 ∧ (e.2 ?= e'.2)%string ≠ Gt)) ∧
    visited st = first_pops pops.*1.*2.
Proof.
  destruct (init_spec g) as (self & Hinit & _).
  pose proof (init_targets g self Hinit) as HV.
  destruct (search_inv self destination hospitals HV) as (st & Hsearch & HI & Hq).
  assert (Hres : ∃ result, extract_solution self st = Ok result).
  { destruct (found_hospitals st) as [|hx found] eqn:Hfound.
    - eexists. by apply extract_none.
    - destruct (extract_some self destination hospitals st HI)
        as (r & l1 & l2 & Hex & _); [by rewrite Hfound|]. by eexists. }
  destruct Hres as [result Hres].
  destruct (dijkstra_pops_least self hospitals _ _ _ Hsearch) as (pops & Hpops & Hleast).
  exists self, st, result, pops.
  split; [done|]. split; [done|].
  split; [by rewrite (find_optimal_dispatch_run _ _ _ st Hsearch)|].
  split; [by apply dijkstra_loop_run in Hsearch|].
  split; [|split; [|split; [done|split; [exact Hleast|]]]].
  - intros n st' Hrun. split.
    + by apply (run_steps_bound self destination hospitals HV n st').
    + intros q k rest l Hperm Hmin Hl.
      by apply (run_steps_progress self destination hospitals HV n st' st' q k rest l).
  - intros st' Hrun.
    pose proof (run_loop_canonical self destination hospitals HV st' st Hrun Hsearch) as Hsim.
    pose proof Hsim as (H1 & H2 & H3 & H4 & _).
    repeat split; try done. by rewrite (extract_solution_same self st' st Hsim).
  - apply (dijkstra_pops_visits self destination hospitals HV _ _ _ _
             (inv_initial self destination hospitals) Hsearch Hpops).
Qed.

(** * Where doubles part from exact arithmetic *)



(** * The dispatch on Python's numbers raises nothing but [OverflowError] *)

Module PyFacts.
Import Py.

(** ** Numbers *)

Lemma py_ltb_infinity (y : float) : (infinity <? y)%float = false.
Proof.
  rewrite ltb_spec. change (Prim2SF infinity) with (S754_infinity false).
  unfold SFltb. destruct (Prim2SF y) as [s|s| |s m e]; try destruct s; reflexivity.
Qed.

Lemma py_ltb_irrefl (x : float) : (x <? x)%float = false.
Proof.
  rewrite ltb_spec. unfold SFltb.
  destruct (Prim2SF x) as [s|s| |s m e]; try destruct s; simpl; try reflexivity.
  - by rewrite Z.compare_refl, Pos.compare_refl.
  - by rewrite Z.compare_refl, Pos.compare_refl.
Qed.

(** What is less than a number is not [float('inf')]. *)
Lemma py_number_ltb_finite (x y : number) :
  number_ltb x y = true → x ≠ PyFloat infinity.
Proof.
  intros Hlt ->. destruct y as [z|f]; simpl in Hlt.
  - unfold compare_int_float in Hlt.
    change (Prim2SF infinity) with (S754_infinity false) in Hlt. done.
  - by rewrite py_ltb_infinity in Hlt.
Qed.

Lemma py_number_ltb_irrefl (x : number) : number_ltb x x = false.
Proof.
  destruct x as [z|f]; simpl.
  - apply Z.ltb_irrefl.
  - apply py_ltb_irrefl.
Qed.

Lemma py_int_to_float_cases (z : Z) :
  int_to_float z = Raise OverflowError ∨ ∃ f, int_to_float z = Ok f.
Proof.
  unfold int_to_float. destruct (binary_normalize 53 1024 z 0 false); eauto.
Qed.

(** A product with a [float] raises for an [int] only. *)
Lemma py_mul_cases (c : float) (x : number) :
  (∃ f, number_mul (PyFloat c) x = Ok (PyFloat f))
  ∨ (number_mul (PyFloat c) x = Raise OverflowError ∧ is_float x = false).
Proof.
  destruct x as [z|f]; simpl.
  - destruct (py_int_to_float_cases z) as [->|[f ->]]; simpl; eauto.
  - eauto.
Qed.

Lemma py_add_floats (x y : float) :
  number_add (PyFloat x) (PyFloat y) = Ok (PyFloat (x + y)).
Proof. done. Qed.

Lemma py_add_plain (x : number) (y : float) :
  plain x → ∃ f, number_add x (PyFloat y) = Ok (PyFloat f).
Proof. intros [->|[f ->]]; by eexists. Qed.


(** The composite weight is a [float], or raises [OverflowError] for a
    payload with an [int]. *)
Lemma py_weight_cases (self : ReverseSingleSourceDijkstra) (a : attributes) :
  (∃ f, _calculate_composite_weight self a = Ok (PyFloat f))
  ∨ (_calculate_composite_weight self a = Raise OverflowError ∧ floats a = false).
Proof.
  unfold _calculate_composite_weight, floats.
  destruct (py_mul_cases (v_net self) (network (it_risk a))) as [[f1 ->]|[-> H]];
    [|right; split; [done|]; rewrite H; by rewrite !andb_false_r].
  destruct (py_mul_cases (v_gps self) (gps (it_risk a))) as [[f2 ->]|[-> H]];
    [|right; split; [done|]; rewrite H; by rewrite !andb_false_r].
  destruct (py_mul_cases (v_data self) (data (it_risk a))) as [[f3 ->]|[-> H]];
    [|right; split; [done|]; rewrite H; by rewrite !andb_false_r].
  destruct (py_mul_cases (w_T self) (time a)) as [[f4 ->]|[-> H]];
    [|right; split; [done|]; by rewrite H].
  destruct (py_mul_cases (w_C self) (cost a)) as [[f5 ->]|[-> H]];
    [|right; split; [done|]; rewrite H; by rewrite !andb_false_r].
  left. by eexists.
Qed.

(** ** The reversed graph *)

Lemma py_copy_id (a : attributes) : copy a = a.
Proof. by destruct a. Qed.

Lemma py_collect_inner (l : list (string * attributes)) (acc : gset string) (x : string) :
  x ∈ foldl (λ (acc' : gset string) (va : string * attributes), acc' ∪ {[va.1]}) acc l
  ↔ x ∈ acc ∨ x ∈ l.*1.
Proof.
  revert acc. induction l as [|[v a] l IH]; intros acc; simpl.
  - set_solver.
  - rewrite IH. set_solver.
Qed.

Lemma py_collect_outer (l : list (string * gmap string attributes)) (acc : gset string)
    (x : string) :
  x ∈ foldl (λ (acc : gset string) (un : string * gmap string attributes),
               foldl (λ (acc' : gset string) (va : string * attributes), acc' ∪ {[va.1]})
                     (acc ∪ {[un.1]}) (map_to_list un.2)) acc l
  ↔ x ∈ acc ∨ ∃ u row, (u, row) ∈ l ∧ (x = u ∨ x ∈ dom row).
Proof.
  revert acc. induction l as [|[u row] l IH]; intros acc; simpl.
  - split; [by left|]. intros [H|(u & row & H & _)]; [done|]. by apply elem_of_nil in H.
  - rewrite IH, py_collect_inner. split.
    + intros [[[H| ->%elem_of_singleton]%elem_of_union|H]|(u' & row' & H & H')].
      * by left.
      * right. exists u, row. split; [left|by left].
      * right. exists u, row. split; [left|]. right.
        apply elem_of_dom. apply list_elem_of_fmap in H as ([v a] & -> & H).
        apply elem_of_map_to_list in H. by exists a.
      * right. exists u', row'. split; [by right|done].
    + intros [H|(u' & row' & [[= -> ->]|H]%elem_of_cons & H')].
      * left. left. set_solver.
      * left. destruct H' as [->|H']; [left; set_solver|]. right.
        apply elem_of_dom in H' as [a H']. apply list_elem_of_fmap.
        exists (x, a). split; [done|]. by apply elem_of_map_to_list.
      * right. by exists u', row'.
Qed.

(** The vertex set is derived: every endpoint of an edge and every key. *)
Lemma py_collect_vertices_spec (g : graph) (x : string) :
  x ∈ collect_vertices g ↔ x ∈ dom g ∨ ∃ u a, has_edge g u x a.
Proof.
  unfold collect_vertices. rewrite py_collect_outer. split.
  - intros [H|(u & row & H & [->|H'])]; [set_solver| |].
    + left. apply elem_of_map_to_list in H. apply elem_of_dom. by exists row.
    + right. apply elem_of_map_to_list in H. apply elem_of_dom in H' as [a H'].
      exists u, a, row. done.
  - intros [[row H]%elem_of_dom|(u & a & row & H & H')]; right.
    + exists x, row. split; [by apply elem_of_map_to_list|by left].
    + exists u, row. split; [by apply elem_of_map_to_list|]. right.
      apply elem_of_dom. by exists a.
Qed.

Lemma py_init_rows_lookup (l : list string) (gp : graph) (v : string) :
  foldl (λ (gp : graph) (vertex : string), <[vertex := ∅]> gp) gp l !! v
  = if decide (v ∈ l) then Some ∅ else gp !! v.
Proof.
  revert gp. induction l as [|x l IH]; intros gp; cbn [foldl].
  - destruct (decide (v ∈ [])) as [H|H]; [by apply elem_of_nil in H|done].
  - rewrite IH. repeat case_decide; try done.
    + exfalso. set_solver.
    + destruct (decide (x = v)) as [->|Hne]; [by rewrite lookup_insert_eq|].
      exfalso. set_solver.
    + destruct (decide (x = v)) as [->|Hne]; [exfalso; set_solver|].
      by rewrite lookup_insert_ne.
Qed.

Lemma py_set_edge_spec (gp : graph) (v u : string) (a : attributes) :
  v ∈ dom gp →
  ∃ gp', set_edge gp v u a = Ok gp' ∧ dom gp' = dom gp ∧
    ∀ v' u' a', has_edge gp' v' u' a' ↔
      (v' = v ∧ u' = u ∧ a' = a) ∨ (¬ (v' = v ∧ u' = u) ∧ has_edge gp v' u' a').
Proof.
  intros [row Hrow]%elem_of_dom. unfold set_edge, getitem. rewrite Hrow. simpl.
  eexists. split; [done|]. split.
  - apply dom_insert_lookup_L. by exists row.
  - intros v' u' a'. unfold has_edge. rewrite py_copy_id.
    destruct (decide (v' = v)) as [->|Hv].
    + rewrite lookup_insert_eq. destruct (decide (u' = u)) as [->|Hu].
      * split.
        -- intros (row' & [= <-] & H). rewrite lookup_insert_eq in H. left. naive_solver.
        -- intros [(_ & _ & ->)|[H _]]; [|naive_solver].
           eexists. split; [done|]. by rewrite lookup_insert_eq.
      * split.
        -- intros (row' & [= <-] & H). rewrite lookup_insert_ne in H by done.
           right. split; [naive_solver|]. by exists row.
        -- intros [(_ & -> & _)|[_ (row' & H1 & H2)]]; [done|].
           eexists. split; [done|]. rewrite lookup_insert_ne by done. congruence.
    + rewrite lookup_insert_ne by done. naive_solver.
Qed.

(** The reversal succeeds, its keys are the vertices, and its edges are the
    edges of the graph with the endpoints swapped and the payload kept. *)
Lemma py_reverse_graph_spec (g : graph) :
  ∃ gp, _reverse_graph g = Ok gp ∧ dom gp = collect_vertices g ∧
    ∀ v u a, has_edge gp v u a ↔ has_edge g u v a.
Proof.
  unfold _reverse_graph.
  set (all := collect_vertices g).
  set (gp0 := foldl _ ∅ (elements all)).
  assert (Hgp0 : ∀ v, gp0 !! v = if decide (v ∈ all) then Some ∅ else None).
  { intros v. unfold gp0. rewrite py_init_rows_lookup, lookup_empty.
    destruct (decide (v ∈ elements all)) as [H|H]; rewrite elem_of_elements in H.
    - by rewrite decide_True.
    - by rewrite decide_False. }
  pose (P := λ (done : list (string * gmap string attributes)) (gp : graph),
    dom gp = all ∧ ∀ v u a, has_edge gp v u a ↔ ∃ row, (u, row) ∈ done ∧ row !! v = Some a).
  destruct (for_each_inv_prefix P
    (λ (gp : graph) (un : string * gmap string attributes),
       for_each (λ (gp' : graph) (va : string * attributes), set_edge gp' va.1 un.1 va.2)
                gp (map_to_list un.2))
    (map_to_list g) gp0) as (gp & Hgp & Hdom & Hedges).
  - split.
    + apply set_eq. intros v. rewrite elem_of_dom, Hgp0.
      destruct (decide (v ∈ all)); split; try done; by intros [? ?].
    + intros v u a. split.
      * intros (row & H1 & H2). rewrite Hgp0 in H1. destruct (decide (v ∈ all)); [|done].
        injection H1 as <-. by rewrite lookup_empty in H2.
      * intros (row & H & _). by apply elem_of_nil in H.
  - intros done [u m] gp1 [Hdom1 Hedges1] Hpre. simpl.
    assert (Hfresh : ∀ row, (u, row) ∉ done).
    { destruct Hpre as [rest Hpre].
      apply (prefix_fresh_key _ _ _ (u, m) (NoDup_fst_map_to_list g) Hpre). }
    assert (Hum : g !! u = Some m).
    { destruct Hpre as [rest Hpre]. apply elem_of_map_to_list. rewrite Hpre.
      apply elem_of_app. right. by left. }
    pose (Pin := λ (done' : list (string * attributes)) (gp : graph),
      dom gp = all ∧ ∀ v u' a, has_edge gp v u' a ↔
        (∃ row, (u', row) ∈ done ∧ row !! v = Some a) ∨ (u' = u ∧ (v, a) ∈ done')).
    destruct (for_each_inv_prefix Pin
      (λ (gp' : graph) (va : string * attributes), set_edge gp' va.1 u va.2)
      (map_to_list m) gp1) as (gp2 & Hgp2 & Hdom2 & Hedges2).
    + split; [done|]. intros v u' a. rewrite Hedges1. split; [by left|].
      intros [H|[_ H]]; [done|]. by apply elem_of_nil in H.
    + intros done' [v a] gp3 [Hdom3 Hedges3] Hpre'. simpl.
      assert (Hfresh' : ∀ a', (v, a') ∉ done').
      { destruct Hpre' as [rest Hpre'].
        apply (prefix_fresh_key _ _ _ (v, a) (NoDup_fst_map_to_list m) Hpre'). }
      assert (Hva : m !! v = Some a).
      { destruct Hpre' as [rest Hpre']. apply elem_of_map_to_list. rewrite Hpre'.
        apply elem_of_app. right. by left. }
      destruct (py_set_edge_spec gp3 v u a) as (gp4 & Hgp4 & Hdom4 & Hedges4).
      { rewrite Hdom3. apply py_collect_vertices_spec. right. exists u, a, m. done. }
      exists gp4. split; [done|]. split; [congruence|].
      intros v' u' a'. rewrite Hedges4, Hedges3. split.
      * intros [(-> & -> & ->)|[Hne [H|[-> H]]]].
        -- right. split; [done|]. apply elem_of_app. right. by left.
        -- by left.
        -- right. split; [done|]. apply elem_of_app. by left.
      * intros [H|[-> [H|[= -> ->]%list_elem_of_singleton]%elem_of_app]].
        -- right. split; [|by left]. intros [-> ->].
           destruct H as (row & H & _). by apply Hfresh in H.
        -- right. split; [|right; done]. intros [-> _]. by apply Hfresh' in H.
        -- by left.
    + exists gp2. split; [done|]. split; [done|].
      intros v u' a. rewrite Hedges2. split.
      * intros [(row & H1 & H2)|[-> H]].
        -- exists row. split; [|done]. apply elem_of_app. by left.
        -- exists m. split; [apply elem_of_app; right; by left|].
           by apply elem_of_map_to_list.
      * intros (row & [H|[= -> ->]%list_elem_of_singleton]%elem_of_app & H2).
        -- left. by exists row.
        -- right. split; [done|]. by apply elem_of_map_to_list.
  - exists gp. split; [done|]. split; [done|].
    intros v u a. rewrite Hedges. unfold has_edge.
    split; intros (row & H1 & H2); exists row; split; try done.
    + by apply elem_of_map_to_list.
    + by apply elem_of_map_to_list.
Qed.

Lemma py_init_spec (g : graph) :
  ∃ self, init g = Ok self ∧
    G self = g ∧ V self = collect_vertices g ∧ dom (G_prime self) = collect_vertices g ∧
    (∀ v u a, has_edge (G_prime self) v u a ↔ has_edge g u v a).
Proof.
  destruct (py_reverse_graph_spec g) as (gp & Hgp & Hdom & Hedges).
  unfold init. rewrite Hgp. simpl. eexists. split; [done|]. simpl. done.
Qed.

(** ** The priority queue *)

Lemma py_extract_perm (q : list entry) (e m : entry) (r : list entry) :
  extract e q = (m, r) → e :: q ≡ₚ m :: r.
Proof.
  revert e m r. induction q as [|x q IH]; intros e m r; simpl.
  - by intros [= <- <-].
  - destruct (entry_ltb x e).
    + destruct (extract x q) as [m' r'] eqn:Hx. intros [= <- <-].
      rewrite (IH _ _ _ Hx). apply Permutation_swap.
    + destruct (extract e q) as [m' r'] eqn:He. intros [= <- <-].
      rewrite (Permutation_swap x e q), (IH _ _ _ He). apply Permutation_swap.
Qed.

Lemma py_heappop_perm (q : list entry) (m : entry) (r : list entry) :
  heappop q = Some (m, r) → q ≡ₚ m :: r.
Proof.
  destruct q as [|e q]; simpl; [done|]. intros [= H]. by apply py_extract_perm.
Qed.

Lemma py_heappop_None (q : list entry) : heappop q = None ↔ q = [].
Proof. destruct q; simpl; split; congruence. Qed.

(** ** The measure of the loop *)

Lemma py_degree_visit_list (l : list (string * gmap string attributes))
    (vis : list string) (k : string) :
  NoDup l.*1 → k ∉ vis →
  (sum_list ((λ um : string * gmap string attributes,
                if bool_decide (um.1 ∈ vis ++ [k]) then 0 else size um.2) <$> l)
   + size (default ∅ ((list_to_map l : graph) !! k))
   = sum_list ((λ um : string * gmap string attributes,
                  if bool_decide (um.1 ∈ vis) then 0 else size um.2) <$> l))%nat.
Proof.
  intros Hnd Hk. induction l as [|[u m] l IH]; csimpl.
  - rewrite lookup_empty. simpl. by rewrite map_size_empty.
  - apply NoDup_cons in Hnd as [Hu Hnd]. specialize (IH Hnd).
    destruct (decide (u = k)) as [->|Hne].
    + rewrite lookup_insert_eq. simpl.
      rewrite (not_elem_of_list_to_map_1 l k Hu) in IH. simpl in IH.
      rewrite map_size_empty in IH.
      rewrite bool_decide_eq_true_2 by (apply elem_of_app; right; by left).
      rewrite bool_decide_eq_false_2 by done. lia.
    + rewrite lookup_insert_ne by done.
      rewrite (bool_decide_ext (u ∈ vis ++ [k]) (u ∈ vis)); [lia|].
      rewrite elem_of_app, list_elem_of_singleton. tauto.
Qed.


(** ** Loops that raise nothing but [OverflowError] *)

Lemma py_for_each_prefix_or {A S : Type} (P : list A → S → Prop) (F : Prop)
    (body : S → A → exc S) (l : list A) (s : S) :
  P [] s →
  (∀ done x s, P done s → (∃ rest, l = done ++ x :: rest) →
     (∃ s', body s x = Ok s' ∧ P (done ++ [x]) s')
     ∨ (body s x = Raise OverflowError ∧ F)) →
  (∃ s', for_each body s l = Ok s' ∧ P l s')
  ∨ (for_each body s l = Raise OverflowError ∧ F).
Proof.
  intros H0 Hbody.
  assert (Hgen : ∀ rest done s, l = done ++ rest → P done s →
            (∃ s', for_each body s rest = Ok s' ∧ P l s')
            ∨ (for_each body s rest = Raise OverflowError ∧ F)).
  { induction rest as [|x rest IH]; intros done s0 Hl Hs; simpl.
    - left. exists s0. rewrite app_nil_r in Hl. by subst.
    - destruct (Hbody done x s0 Hs) as [(s1 & -> & Hs1)|[-> HF]]; [by exists rest| |by right].
      apply (IH (done ++ [x])); [|done]. by rewrite <- app_assoc. }
  by apply (Hgen l []).
Qed.

Section PySearch.
Context (self : ReverseSingleSourceDijkstra) (g : graph) (destination : string)
        (hospitals : list string).
Hypothesis HV : ∀ k n a, has_edge (G_prime self) k n a → n ∈ V self.
Hypothesis HE : ∀ k n a, has_edge (G_prime self) k n a → has_edge g n k a.
Hypothesis HG : G self = g.

Local Abbreviation Sound := (sound self destination hospitals).

Lemma py_row_edge (k n : string) (a : attributes) :
  get_default (G_prime self) k ∅ !! n = Some a ↔ has_edge (G_prime self) k n a.
Proof.
  unfold get_default, has_edge. destruct (G_prime self !! k) as [row|]; simpl.
  - split; [intros H; by exists row|]. by intros (row' & [= <-] & H).
  - rewrite lookup_empty. split; [done|]. by intros (row' & [=] & _).
Qed.

Lemma py_degree_visit (vis : list string) (k : string) :
  k ∉ vis →
  (unvisited_degree self (vis ++ [k]) + size (get_default (G_prime self) k ∅)
   = unvisited_degree self vis)%nat.
Proof.
  intros Hk. unfold unvisited_degree, get_default.
  rewrite <- (py_degree_visit_list (map_to_list (G_prime self)) vis k).
  - by rewrite list_to_map_to_list.
  - apply NoDup_fst_map_to_list.
  - done.
Qed.

Lemma py_reached_insert (st : state) (n m : string) (x : number) (st' : state) :
  lam st' = <[n := x]> (lam st) → x ≠ PyFloat infinity →
  reached st m → reached st' m.
Proof.
  intros Hl Hx (y & Hy & Hfin). unfold reached. rewrite Hl.
  destruct (decide (n = m)) as [->|Hne].
  - exists x. by rewrite lookup_insert_eq.
  - exists y. by rewrite lookup_insert_ne.
Qed.

(** The body of the loop over the neighbours keeps the invariant, or the
    weight of the edge raises. *)
Lemma py_relax_sound (st : state) (lam_k : number) (k n : string) (a : attributes) :
  Sound st → plain lam_k → walk self destination k lam_k → k ∈ visited st →
  has_edge (G_prime self) k n a →
  (∃ st', relax self lam_k k st (n, a) = Ok st' ∧ Sound st' ∧
     visited st' = visited st ∧ (length (queue st') ≤ S (length (queue st)))%nat)
  ∨ (relax self lam_k k st (n, a) = Raise OverflowError ∧ floats a = false).
Proof.
  intros HS Hplain Hwk Hk Hedge.
  pose proof HS as [Hkeys Hqueue Hnd Hpred Hfound Hvis Hpend Hunr Hwalk].
  unfold relax. cbn [fst snd].
  destruct (bool_decide (n ∈ visited st)) eqn:Hn.
  { left. exists st. split; [done|]. split; [done|]. split; [done|]. lia. }
  apply bool_decide_eq_false in Hn.
  destruct (py_weight_cases self a) as [[w Hw]|[-> Hf]]; [|by right].
  rewrite Hw. cbn [mbind exc_mbind exc_bind].
  destruct (py_add_plain lam_k w Hplain) as [new Hnew].
  rewrite Hnew. cbn [mbind exc_mbind exc_bind].
  assert (Hwn : walk self destination n (PyFloat new)).
  { by apply (walk_edge self destination k n a lam_k (PyFloat w)). }
  destruct (Hkeys n (HV k n a Hedge)) as [cur Hcur].
  unfold getitem. rewrite Hcur. cbn [mbind exc_mbind exc_bind].
  destruct (number_ltb (PyFloat new) cur) eqn:Hlt.
  2:{ left. exists st. split; [done|]. split; [done|]. split; [done|]. lia. }
  pose proof (py_number_ltb_finite _ _ Hlt) as Hfin.
  left. eexists. split; [done|]. split; [|split; [done|]].
  2:{ cbn [queue]. unfold heappush. rewrite length_app. simpl. lia. }
  split; cbn [lam pred queue visited found_hospitals]; try done.
  - intros m Hm. apply lookup_insert_is_Some'. right. by apply Hkeys.
  - intros q m [Hin|[= -> ->]%list_elem_of_singleton]%elem_of_app.
    + destruct (Hqueue q m Hin) as (Hq & Hr & Hwq). split; [done|]. split; [|done].
      by apply (py_reached_insert st n m (PyFloat new)).
    + split; [right; by eexists|]. split; [|done]. exists (PyFloat new). simpl.
      by rewrite lookup_insert_eq.
  - intros m k' Hm. destruct (decide (n = m)) as [<-|Hne].
    + rewrite lookup_insert_eq in Hm. injection Hm as <-.
      apply list_elem_of_lookup in Hk as [i Hi]. exists i. split; [done|].
      intros j Hj. exfalso. apply Hn. by apply list_elem_of_lookup_2 in Hj.
    + rewrite lookup_insert_ne in Hm by done. by apply Hpred.
  - intros m Hm. by apply (py_reached_insert st n m (PyFloat new)), Hvis.
  - intros m x Hm Hx. destruct (decide (n = m)) as [<-|Hne].
    + rewrite lookup_insert_eq in Hx. injection Hx as <-. right.
      apply elem_of_app. right. by left.
    + rewrite lookup_insert_ne in Hx by done.
      destruct (Hpend m x Hm Hx) as [->|Hin]; [by left|].
      right. apply elem_of_app. by left.
  - intros m Hm Hx. destruct (decide (n = m)) as [<-|Hne].
    + rewrite lookup_insert_eq in Hx. by injection Hx as ->.
    + rewrite lookup_insert_ne in Hx by done. rewrite lookup_insert_ne by done.
      by apply Hunr.
  - intros m x Hx. destruct (decide (n = m)) as [<-|Hne].
    + rewrite lookup_insert_eq in Hx. injection Hx as <-. by right.
    + rewrite lookup_insert_ne in Hx by done. by apply Hwalk.
Qed.

(** An iteration keeps the invariant and uses up fuel, or a weight raises. *)
Lemma py_iteration_sound (st : state) (q : number) (k : string) (rest : list entry) :
  Sound st → queue st ≡ₚ (q, k) :: rest →
  (∃ st', iteration self hospitals st q k rest = Ok st' ∧ Sound st' ∧
     (length (queue st') + unvisited_degree self (visited st')
      < length (queue st) + unvisited_degree self (visited st))%nat)
  ∨ (iteration self hospitals st q k rest = Raise OverflowError ∧ ¬ float_attributes g).
Proof.
  intros HS Hperm. pose proof HS as [Hkeys Hqueue Hnd Hpred Hfound Hvis Hpend Hunr Hwalk].
  assert (Hin : (q, k) ∈ queue st) by (rewrite Hperm; by left).
  assert (Hrest : ∀ e, e ∈ rest → e ∈ queue st) by (intros e He; rewrite Hperm; by right).
  assert (Hother : ∀ x n, (x, n) ∈ queue st → (x, n) ≠ (q, k) → (x, n) ∈ rest).
  { intros x n Hx Hne. rewrite Hperm in Hx. by apply elem_of_cons in Hx as [?|?]. }
  pose proof (Permutation_length Hperm) as Hlen. simpl in Hlen.
  destruct (Hqueue q k Hin) as (Hplain & (cur & Hcur & Hfin) & Hwk).
  unfold iteration, getitem. rewrite Hcur. cbn [mbind exc_mbind exc_bind].
  destruct (number_ltb cur q || bool_decide (k ∈ visited st)) eqn:Htest.
  - left. eexists. split; [done|]. split; [|simpl; lia].
    split; cbn [lam pred queue visited found_hospitals]; try done.
    + intros q' n Hq'. by apply Hqueue, Hrest.
    + intros n x Hn Hx. destruct (Hpend n x Hn Hx) as [->|Hq]; [by left|].
      right. apply Hother; [done|].
      intros [= -> ->]. apply orb_true_iff in Htest as [Hlt|Hv].
      * rewrite Hcur in Hx. injection Hx as ->.
        by rewrite py_number_ltb_irrefl in Hlt.
      * by apply bool_decide_eq_true in Hv.
  - apply orb_false_iff in Htest as [Hlt Hkv]. apply bool_decide_eq_false in Hkv.
    set (found' := if bool_decide (k ∈ hospitals) then found_hospitals st ++ [(k, cur)]
                   else found_hospitals st).
    assert (Hfound' :
      (if bool_decide (k ∈ hospitals) && negb (in_found k (found_hospitals st))
       then Ok (found_hospitals st ++ [(k, cur)])
       else Ok (found_hospitals st)) = (Ok found' : exc (list (string * number)))).
    { unfold found'. destruct (bool_decide (k ∈ hospitals)) eqn:Hh; [|done].
      unfold in_found. rewrite bool_decide_eq_false_2; [done|].
      rewrite Hfound. intros [_ Hv]%list_elem_of_filter. done. }
    rewrite Hfound'. cbn [mbind exc_mbind exc_bind].
    set (mid := {| lam := lam st; pred := pred st; queue := rest;
                   visited := visited st ++ [k]; found_hospitals := found' |}).
    assert (Hmid : Sound mid).
    { split; unfold mid; cbn [lam pred queue visited found_hospitals]; try done.
      - intros q' n Hq'. by apply Hqueue, Hrest.
      - apply NoDup_app. split; [done|]. split; [|apply NoDup_singleton].
        intros x Hx ->%list_elem_of_singleton. done.
      - intros n k' Hn. destruct (Hpred n k' Hn) as (i & Hi & Hlt').
        exists i. split; [by apply lookup_app_l_Some|].
        intros j Hj. apply lookup_app_Some in Hj as [Hj|[Hge Hj]]; [by apply Hlt'|].
        apply lookup_lt_Some in Hi. lia.
      - unfold found'. rewrite filter_app, filter_cons, filter_nil.
        destruct (bool_decide (k ∈ hospitals)) eqn:Hh.
        + apply bool_decide_eq_true in Hh. rewrite decide_True by done.
          rewrite fmap_app, Hfound. done.
        + apply bool_decide_eq_false in Hh. rewrite decide_False by done.
          by rewrite app_nil_r.
      - intros n [Hn| ->%list_elem_of_singleton]%elem_of_app; [by apply Hvis|].
        by exists cur.
      - intros n x Hn Hx.
        destruct (Hpend n x) as [->|Hq]; [|done|by left|].
        { intros Hv. apply Hn. apply elem_of_app. by left. }
        right. apply Hother; [done|].
        intros [= -> ->]. apply Hn. apply elem_of_app. right. by left. }
    pose (P := λ (done : list (string * attributes)) (s : state),
      Sound s ∧ visited s = visited mid ∧
      (length (queue s) ≤ length (queue mid) + length done)%nat).
    destruct (py_for_each_prefix_or P (¬ float_attributes g) (relax self q k)
                (map_to_list (get_default (G_prime self) k ∅)) mid)
      as [(st' & Hst' & HS' & Hv' & Hlen')|[Hraise HF]].
    + unfold P. split; [done|]. split; [done|]. simpl. lia.
    + intros done [n a] s (HSs & Hvs & Hls) [rest' Hrest'].
      assert (Hedge : has_edge (G_prime self) k n a).
      { apply py_row_edge, elem_of_map_to_list. rewrite Hrest'.
        apply elem_of_app. right. by left. }
      destruct (py_relax_sound s q k n a HSs Hplain Hwk) as [(s' & Hs' & HS' & Hv' & Hl')|[Hr Hf]].
      * rewrite Hvs. simpl. apply elem_of_app. right. by left.
      * done.
      * left. exists s'. split; [done|]. split; [done|]. split; [congruence|].
        rewrite length_app. cbn [length]. lia.
      * right. split; [done|]. intros Hall.
        rewrite (Hall n k a (HE k n a Hedge)) in Hf. done.
    + left. exists st'. split; [done|]. split; [done|].
      rewrite Hv'. simpl. simpl in Hlen'.
      rewrite length_map_to_list in Hlen'.
      pose proof (py_degree_visit (visited st) k Hkv). lia.
    + by right.
Qed.

(** With fuel for the queue and the edges still to follow, the loop ends
    with an empty queue and keeps the invariant, or a weight raises. *)
Lemma py_loop_total (fuel : nat) (st : state) :
  Sound st →
  (length (queue st) + unvisited_degree self (visited st) ≤ fuel)%nat →
  (∃ st', dijkstra_loop self hospitals fuel st = Ok st' ∧ Sound st' ∧ queue st' = [])
  ∨ (dijkstra_loop self hospitals fuel st = Raise OverflowError ∧ ¬ float_attributes g).
Proof.
  revert st. induction fuel as [|fuel IH]; intros st HS Hfuel.
  - left. exists st. destruct (queue st) as [|e q'] eqn:Hq; [|simpl in Hfuel; lia].
    simpl. rewrite Hq. done.
  - simpl. destruct (heappop (queue st)) as [[[q k] rest]|] eqn:Hpop.
    + apply py_heappop_perm in Hpop.
      destruct (py_iteration_sound st q k rest HS Hpop) as [(st1 & -> & HS1 & Hlt)|[-> HF]].
      * apply IH; [done|lia].
      * by right.
    + left. exists st. apply py_heappop_None in Hpop. done.
Qed.

Lemma py_sound_initial : Sound (initial_state self destination).
Proof.
  split; simpl.
  - intros n Hn. apply lookup_insert_is_Some'. right.
    exists (PyFloat infinity). by apply lookup_gset_to_gmap_Some.
  - intros q n [= -> ->]%list_elem_of_singleton. split; [by left|].
    split; [|constructor]. exists (PyInt 0). simpl. by rewrite lookup_insert_eq.
  - constructor.
  - intros n k Hn. apply lookup_gset_to_gmap_Some in Hn as [_ [=]].
  - done.
  - intros n Hn. by apply elem_of_nil in Hn.
  - intros n x _ Hx. destruct (decide (destination = n)) as [->|Hne].
    + rewrite lookup_insert_eq in Hx. injection Hx as <-. right. by left.
    + rewrite lookup_insert_ne in Hx by done.
      apply lookup_gset_to_gmap_Some in Hx as [_ <-]. by left.
  - intros n Hn _. by apply lookup_gset_to_gmap_Some.
  - intros n x Hx. destruct (decide (destination = n)) as [->|Hne].
    + rewrite lookup_insert_eq in Hx. injection Hx as <-. right. constructor.
    + rewrite lookup_insert_ne in Hx by done.
      apply lookup_gset_to_gmap_Some in Hx as [_ <-]. by left.
Qed.

Lemma py_search_sound :
  (∃ st, search self destination hospitals = Ok st ∧ Sound st ∧ queue st = [])
  ∨ (search self destination hospitals = Raise OverflowError ∧ ¬ float_attributes g).
Proof.
  apply py_loop_total; [apply py_sound_initial|].
  unfold loop_fuel, unvisited_degree. simpl. lia.
Qed.

(** ** Solution extraction *)






Section PySolution.
Context (st : state).
Hypothesis HS : Sound st.






End PySolution.


End PySearch.

End PyFacts.


(** X25: on Python's numbers a search that returns leaves every distance
    other than [inf] as the cost of a walk of the reversed graph from the
    destination, its weights added to the [int] 0 in the order of the walk
    by the additions of the search; the nodes with such a distance are the
    nodes visited, each of them once; a vertex that no walk reaches has the
    distance [inf] and no predecessor. The search raises nothing but
    [OverflowError]. *)
Theorem distances_are_walk_costs (g : Py.graph) (destination : string)
    (hospitals : list string) :
  ∃ self, Py.init g = Ok self ∧
    ((∃ st, Py.search self destination hospitals = Ok st ∧
        (∀ n x, Py.lam st !! n = Some x →
           x = Py.PyFloat infinity ∨ Py.walk self destination n x) ∧
        (∀ n, Py.reached st n ↔ n ∈ Py.visited st) ∧
        NoDup (Py.visited st) ∧
        (∀ n, n ∈ Py.V self → (∀ x, ¬ Py.walk self destination n x) →
           Py.lam st !! n = Some (Py.PyFloat infinity) ∧ Py.pred st !! n = Some None))
     ∨ (Py.search self destination hospitals = Raise OverflowError ∧
        ¬ Py.float_attributes g)).
Proof.
  destruct (PyFacts.py_init_spec g) as (self & Hinit & HG & HV & Hdom & Hedges).
  exists self. split; [done|].
  assert (HV' : ∀ k n a, Py.has_edge (Py.G_prime self) k n a → n ∈ Py.V self).
  { intros k n a Hedge. rewrite HV. apply PyFacts.py_collect_vertices_spec. left.
    apply Hedges in Hedge as (row & Hrow & _). apply elem_of_dom. by exists row. }
  assert (HE : ∀ k n a, Py.has_edge (Py.G_prime self) k n a → Py.has_edge g n k a).
  { intros k n a Hedge. by apply Hedges. }
  destruct (PyFacts.py_search_sound self g destination hospitals HV' HE)
    as [(st & Hsearch & HS & Hq)|H]; [|by right].
  left. exists st. split; [done|]. split; [apply (Py.sound_walk _ _ _ _ HS)|].
  split; [|split; [apply (Py.sound_nodup _ _ _ _ HS)|]].
  - intros n. split; [|apply (Py.sound_visited _ _ _ _ HS)].
    intros (x & Hx & Hfin). destruct (decide (n ∈ Py.visited st)) as [Hv|Hv]; [done|].
    destruct (Py.sound_pending _ _ _ _ HS n x Hv Hx) as [->|Hin]; [done|].
    rewrite Hq in Hin. by apply elem_of_nil in Hin.
  - intros n Hn Hno. destruct (Py.sound_keys _ _ _ _ HS n Hn) as [x Hx].
    destruct (Py.sound_walk _ _ _ _ HS n x Hx) as [->|Hw]; [|by apply Hno in Hw].
    split; [done|]. by apply (Py.sound_unreached _ _ _ _ HS).
Qed.

(** * Further properties of the code *)

(** ** Reversal, twice *)

Lemma edge_lookup_has_edge (g : graph) (u v : string) (a : attributes) :
  edge_lookup g u v = Some a ↔ has_edge g u v a.
Proof.
  unfold edge_lookup, has_edge. destruct (g !! u) as [row|].
  - split; [intros H; by exists row|]. by intros (row' & [= <-] & H).
  - split; [done|]. by intros (row' & [=] & _).
Qed.

Lemma edge_lookup_ext (g g' : graph) :
  (∀ u v a, has_edge g' v u a ↔ has_edge g u v a) →
  ∀ u v, edge_lookup g' v u = edge_lookup g u v.
Proof.
  intros Hedges u v. destruct (edge_lookup g u v) as [a|] eqn:E.
  - by apply edge_lookup_has_edge, Hedges, edge_lookup_has_edge.
  - destruct (edge_lookup g' v u) as [a|] eqn:E'; [|done].
    apply edge_lookup_has_edge, Hedges, edge_lookup_has_edge in E'. congruence.
Qed.

Lemma reverse_vertices (g gp : graph) :
  dom gp = collect_vertices g →
  (∀ v u a, has_edge gp v u a ↔ has_edge g u v a) →
  collect_vertices gp = collect_vertices g.
Proof.
  intros Hdom Hedges. apply set_eq. intros x.
  rewrite (collect_vertices_spec gp), Hdom. split.
  - intros [H|(u & a & H)]; [done|]. apply Hedges in H as (row & Hrow & _).
    apply collect_vertices_spec. left. apply elem_of_dom. by exists row.
  - intros H. by left.
Qed.

(** X1: reversing a graph and then its reverse never raises and gives a
    graph with the edges and payloads of the first one; the reverse has the
    vertices of the graph, and the keys of both reversals are these
    vertices. *)
Theorem reverse_twice_edges (g : graph) :
  ∃ gp gpp, _reverse_graph g = Ok gp ∧ _reverse_graph gp = Ok gpp ∧
    (∀ u v a, has_edge gpp u v a ↔ has_edge g u v a) ∧
    _get_all_nodes gp = _get_all_nodes g ∧
    dom gp = _get_all_nodes g ∧ dom gpp = _get_all_nodes g.
Proof.
  destruct (reverse_graph_spec g) as (gp & Hgp & Hdom & Hedges).
  destruct (reverse_graph_spec gp) as (gpp & Hgpp & Hdom' & Hedges').
  pose proof (reverse_vertices g gp Hdom Hedges) as Hv.
  exists gp, gpp. unfold _get_all_nodes. repeat split; try done.
  - intros H. by apply Hedges, Hedges'.
  - intros H. by apply Hedges', Hedges.
  - congruence.
Qed.

(** X2: when every vertex of the graph is one of its keys, as in the network
    of [create_network], reversing twice gives the graph back. *)
Theorem reverse_twice_identity (g : graph) :
  _get_all_nodes g ⊆ dom g →
  ∃ gp, _reverse_graph g = Ok gp ∧ _reverse_graph gp = Ok g.
Proof.
  unfold _get_all_nodes. intros Hkeys.
  destruct (reverse_graph_spec g) as (gp & Hgp & Hdom & Hedges).
  destruct (reverse_graph_spec gp) as (gpp & Hgpp & Hdom' & Hedges').
  pose proof (reverse_vertices g gp Hdom Hedges) as Hv.
  exists gp. split; [done|]. rewrite Hgpp. f_equal.
  assert (Hdomg : dom gpp = dom g).
  { rewrite Hdom', Hv. apply set_eq. intros x. split; [apply Hkeys|].
    intros Hx. apply collect_vertices_spec. by left. }
  apply map_eq. intros u.
  destruct (gpp !! u) as [row'|] eqn:E', (g !! u) as [row|] eqn:E; try done.
  - f_equal. apply map_eq. intros v.
    destruct (row' !! v) as [a|] eqn:Ea.
    + assert (has_edge g u v a) as (row0 & H1 & H2).
      { apply Hedges, Hedges'. by exists row'. }
      congruence.
    + destruct (row !! v) as [a|] eqn:Eb; [|done].
      assert (has_edge gpp u v a) as (row0 & H1 & H2).
      { apply Hedges', Hedges. by exists row. }
      congruence.
  - exfalso. apply (not_elem_of_dom g u); [done|]. rewrite <- Hdomg.
    apply elem_of_dom. by exists row'.
  - exfalso. apply (not_elem_of_dom gpp u); [done|]. rewrite Hdomg.
    apply elem_of_dom. by exists row.
Qed.

Lemma reverse_twice_identity_witness :
  ∃ gp, _reverse_graph create_network = Ok gp ∧ _reverse_graph gp = Ok create_network.
Proof.
  apply (reverse_twice_identity create_network).
  apply (bool_decide_unpack _ (dec := decide_rel (⊆) _ _)). vm_compute. exact I.
Defined.

(** ** The composite weight *)



(** ** The predecessor tree and the order of the visits *)

Section Tree.
Context (self : ReverseSingleSourceDijkstra) (destination : string)
        (hospitals : list string).
Hypothesis HV : ∀ k n a, has_edge (G_prime self) k n a → n ∈ V self.

Local Abbreviation w := (_calculate_composite_weight self).
Local Abbreviation Inv := (inv self destination hospitals).

Lemma tree_initial : tree self destination (initial_state self destination).
Proof.
  split; simpl.
  - by rewrite lookup_insert_eq.
  - unfold get_default. destruct (gset_to_gmap None (V self) !! destination) as [x|] eqn:E; [|done].
    by apply lookup_gset_to_gmap_Some in E as [_ <-].
  - intros n k [_ [=]]%lookup_gset_to_gmap_Some.
  - intros n c [[-> _]|(_ & _ & [=])]%initial_lam. by left.
  - intros k n a Hk. by apply elem_of_nil in Hk.
Qed.

Lemma tree_skip (st : state) (rest : list entry) :
  tree self destination st → tree self destination (skip_state st rest).
Proof. intros [H1 H2 H3 H4 H5]. by split. Qed.

Lemma visit_keeps_destination (st : state) (q : Q) (k : string) (rest : list entry) :
  Inv st → heappop (queue st) = Some ((q, k), rest) →
  destination ∈ visited st ++ [k].
Proof.
  intros HI Hpop. destruct (inv_first _ _ _ _ HI) as [->|[tail Ht]].
  - apply initial_pop in Hpop as (_ & -> & _). apply elem_of_app. right. by left.
  - rewrite Ht. by left.
Qed.

Lemma tree_visit (st st1 : state) (q : Q) (k : string) (rest : list entry) :
  Inv st → tree self destination st →
  heappop (queue st) = Some ((q, k), rest) →
  lam st !! k = Some (Fin q) →
  k ∉ visited st →
  relax_post self q k (get_default (G_prime self) k ∅)
    (visit_state hospitals st q k rest) st1 →
  tree self destination st1.
Proof.
  intros HI [Hdl Hdp Hpred Hroot Hreach] Hpop Hk Hkv Hpost.
  pose proof (post_cases _ _ _ _ _ _ Hpost) as Hcases.
  pose proof (post_visited_same _ _ _ _ _ _ Hpost) as Hsame.
  pose proof (post_visited _ _ _ _ _ _ Hpost) as Hv1.
  simpl in Hcases, Hsame, Hv1.
  pose proof (visit_keeps_destination st q k rest HI Hpop) as Hdest.
  split.
  - destruct (Hsame destination Hdest) as [-> _]. done.
  - destruct (Hsame destination Hdest) as [_ Hp]. unfold get_default in *. by rewrite Hp.
  - intros n k' Hp. rewrite Hv1.
    destruct (Hcases n) as [(Hl & Hp' & _)|(a & old & Hrow & _ & _ & _ & Hl & Hp' & _)].
    + rewrite Hp' in Hp. destruct (Hpred n k' Hp) as (Hk' & a & c & Hedge & Hc & Hn).
      split; [apply elem_of_app; by left|]. exists a, c. split; [done|].
      destruct (Hsame k') as [-> _]; [apply elem_of_app; by left|]. by rewrite Hl.
    + rewrite Hp' in Hp. injection Hp as <-.
      split; [apply elem_of_app; right; by left|]. exists a, q.
      split; [by apply row_edge|].
      destruct (Hsame k) as [-> _]; [apply elem_of_app; right; by left|]. done.
  - intros n c Hc.
    destruct (Hcases n) as [(Hl & Hp' & _)|(a & old & _ & _ & _ & _ & _ & Hp' & _)].
    + rewrite Hl in Hc. destruct (Hroot n c Hc) as [->|[k' Hk']]; [by left|].
      right. exists k'. by rewrite Hp'.
    + right. by exists k.
  - intros k' n a Hk' Hedge. rewrite Hv1 in Hk'.
    destruct (Hcases n) as [(Hl & _ & Hno)|(a' & old & _ & _ & _ & _ & Hl & _)];
      [|by eexists].
    rewrite Hl. apply elem_of_app in Hk' as [Hk'| ->%list_elem_of_singleton].
    + by apply (Hreach k' n a).
    + apply row_edge in Hedge as Hrow.
      destruct (relaxes_false _ _ _ _ _ (Hno a Hrow)) as [Hn|[Hn|(c0 & Hc0 & _)]];
        simpl in *.
      * apply elem_of_app in Hn as [Hn| ->%list_elem_of_singleton].
        -- by apply (inv_visited _ _ _ _ HI).
        -- by exists q.
      * destruct (inv_keys _ _ _ _ HI n (HV _ _ _ Hedge)) as [x Hx]. congruence.
      * by exists c0.
Qed.

Lemma tree_step (st st1 : state) (q : Q) (k : string) (rest : list entry) :
  Inv st → tree self destination st →
  heappop (queue st) = Some ((q, k), rest) →
  iteration self hospitals st q k rest = Ok st1 →
  tree self destination st1.
Proof.
  intros HI Ht Hpop Hit.
  destruct (iteration_cases self destination hospitals HV st q k rest HI Hpop)
    as [(c & Hc & Hskip & Hit')|(Hk & Hkv & st1' & Hit' & Hpost)].
  - rewrite Hit' in Hit. injection Hit as <-. by apply tree_skip.
  - rewrite Hit' in Hit. injection Hit as <-. by eapply tree_visit.
Qed.

Lemma ordered_visit (st st1 : state) (q : Q) (k : string) (rest : list entry) :
  Inv st → opt self st → ordered_visits st →
  heappop (queue st) = Some ((q, k), rest) →
  lam st !! k = Some (Fin q) →
  k ∉ visited st →
  relax_post self q k (get_default (G_prime self) k ∅)
    (visit_state hospitals st q k rest) st1 →
  ordered_visits st1.
Proof.
  intros HI Hopt Hord Hpop Hk Hkv Hpost.
  destruct (heappop_spec _ _ _ Hpop) as [Hperm _].
  pose proof (post_visited_same _ _ _ _ _ _ Hpost) as Hsame.
  pose proof (post_visited _ _ _ _ _ _ Hpost) as Hv1.
  simpl in Hsame, Hv1.
  intros i j n m c d Hij Hi Hj Hc Hd. rewrite Hv1 in Hi, Hj.
  assert (Hil : (i < length (visited st))%nat).
  { apply lookup_lt_Some in Hj. rewrite length_app in Hj. simpl in Hj. lia. }
  rewrite lookup_app_l in Hi by done.
  assert (Hn : n ∈ visited st) by (by apply list_elem_of_lookup_2 in Hi).
  destruct (Hsame n) as [Hln _]; [apply elem_of_app; by left|]. rewrite Hln in Hc.
  destruct (Hsame m) as [Hlm _]; [by apply list_elem_of_lookup_2 in Hj|]. rewrite Hlm in Hd.
  destruct (decide (j < length (visited st))%nat) as [Hjl|Hjl].
  - rewrite lookup_app_l in Hj by done. by apply (Hord i j n m).
  - rewrite lookup_app_r in Hj by lia.
    apply list_lookup_singleton_Some in Hj as [_ <-].
    rewrite Hk in Hd. injection Hd as <-.
    apply (opt_frontier _ _ Hopt n c (q, k)); [done..|]. rewrite Hperm. by left.
Qed.

Lemma search_tree :
  ∃ st, search self destination hospitals = Ok st ∧ Inv st ∧
    tree self destination st ∧ queue st = [].
Proof.
  destruct (loop_total self destination hospitals HV (tree self destination))
    with (fuel := loop_fuel self) (st := initial_state self destination)
    as (st & H1 & H2 & H3 & H4).
  - intros st q k rest st1 HI Ht Hpop Hit. by eapply tree_step.
  - apply inv_initial.
  - apply tree_initial.
  - rewrite <- (degree_initial self). simpl. lia.
  - by exists st.
Qed.

Lemma search_full :
  nonneg_weights self →
  ∃ st, search self destination hospitals = Ok st ∧ Inv st ∧ opt self st ∧
    tree self destination st ∧ ordered_visits st ∧ queue st = [].
Proof.
  intros Hnn.
  destruct (loop_total self destination hospitals HV
              (λ st, opt self st ∧ tree self destination st ∧ ordered_visits st))
    with (fuel := loop_fuel self) (st := initial_state self destination)
    as (st & H1 & H2 & (H3 & H4 & H5) & H6).
  - intros st q k rest st1 HI (Hopt & Ht & Hord) Hpop Hit.
    split; [|split; [by eapply tree_step|]].
    + destruct (iteration_cases self destination hospitals HV st q k rest HI Hpop)
        as [(c & Hc & Hskip & Hit')|(Hk & Hkv & st1' & Hit' & Hpost)].
      * rewrite Hit' in Hit. injection Hit as <-. by eapply opt_skip.
      * rewrite Hit' in Hit. injection Hit as <-. by eapply opt_visit.
    + destruct (iteration_cases self destination hospitals HV st q k rest HI Hpop)
        as [(c & Hc & Hskip & Hit')|(Hk & Hkv & st1' & Hit' & Hpost)].
      * rewrite Hit' in Hit. injection Hit as <-. done.
      * rewrite Hit' in Hit. injection Hit as <-. by eapply ordered_visit.
  - apply inv_initial.
  - split; [apply opt_initial|]. split; [apply tree_initial|].
    intros i j n m c d _ Hi. simpl in Hi. by rewrite lookup_nil in Hi.
  - rewrite <- (degree_initial self). simpl. lia.
  - by exists st.
Qed.
End Tree.

(** ** The search, for any weights *)

(** X4: whatever the edge attributes, the search leaves the destination at
    distance 0, without predecessor, and as the first node visited. *)
Theorem destination_is_root (g : graph) (destination : string) (hospitals : list string) :
  ∃ self st, init g = Ok self ∧ search self destination hospitals = Ok st ∧
    lam st !! destination = Some (Fin 0) ∧
    get_default (pred st) destination None = None ∧
    head (visited st) = Some destination.
Proof.
  destruct (init_spec g) as (self & Hinit & _).
  pose proof (init_targets g self Hinit) as HV.
  destruct (search_tree self destination hospitals HV) as (st & Hsearch & HI & Ht & Hq).
  exists self, st. split; [done|]. split; [done|].
  split; [apply (tree_dest_lam _ _ _ Ht)|]. split; [apply (tree_dest_pred _ _ _ Ht)|].
  destruct (inv_first _ _ _ _ HI) as [->|[tail ->]]; done.
Qed.



(** ** The candidates do not steer the search *)

Lemma relax_forget (self : ReverseSingleSourceDijkstra) (q : Q) (k : string)
    (st : state) (na : string * attributes) :
  exc_map forget_found (relax self q k st na) = relax self q k (forget_found st) na.
Proof.
  unfold relax. simpl. destruct (bool_decide (na.1 ∈ visited st)); [done|].
  destruct (getitem (lam st) na.1) as [cur|e]; [|done]. cbn -[num_ltb].
  destruct cur as [y|]; [|done].
  by destruct (Qltb (q + _calculate_composite_weight self na.2) y).
Qed.

Lemma relax_loop_forget (self : ReverseSingleSourceDijkstra) (q : Q) (k : string)
    (l : list (string * attributes)) (st : state) :
  exc_map forget_found (for_each (relax self q k) st l)
  = for_each (relax self q k) (forget_found st) l.
Proof.
  revert st. induction l as [|x l IH]; intros st; simpl; [done|].
  rewrite <- relax_forget. destruct (relax self q k st x); simpl; [apply IH|done].
Qed.

Lemma iteration_forget (self : ReverseSingleSourceDijkstra) (hospitals : list string)
    (st : state) (q : Q) (k : string) (rest : list entry) :
  exc_map forget_found (iteration self hospitals st q k rest)
  = iteration self [] (forget_found st) q k rest.
Proof.
  unfold iteration. simpl. destruct (getitem (lam st) k) as [cur|e]; [|done].
  cbn -[num_ltb for_each].
  destruct (num_ltb cur (Fin q) || bool_decide (k ∈ visited st)); [done|].
  destruct (bool_decide (k ∈ hospitals) && negb (in_found k (found_hospitals st)));
    cbn -[for_each]; by rewrite relax_loop_forget.
Qed.

Lemma dijkstra_loop_forget (self : ReverseSingleSourceDijkstra) (hospitals : list string)
    (fuel : nat) (st : state) :
  exc_map forget_found (dijkstra_loop self hospitals fuel st)
  = dijkstra_loop self [] fuel (forget_found st).
Proof.
  revert st. induction fuel as [|fuel IH]; intros st; simpl.
  - by destruct (heappop (queue st)) as [[[q k] rest]|].
  - destruct (heappop (queue st)) as [[[q k] rest]|]; [|done].
    rewrite <- (iteration_forget self hospitals).
    destruct (iteration self hospitals st q k rest); simpl; [apply IH|done].
Qed.

Lemma search_same_maps (self : ReverseSingleSourceDijkstra) (destination : string)
    (hospitals hospitals' : list string) (st st' : state) :
  search self destination hospitals = Ok st →
  search self destination hospitals' = Ok st' →
  lam st' = lam st ∧ pred st' = pred st ∧ visited st' = visited st.
Proof.
  intros Hsearch Hsearch'.
  pose proof (dijkstra_loop_forget self hospitals (loop_fuel self)
                (initial_state self destination)) as H.
  pose proof (dijkstra_loop_forget self hospitals' (loop_fuel self)
                (initial_state self destination)) as H'.
  unfold search in Hsearch, Hsearch'. rewrite Hsearch in H. rewrite Hsearch' in H'.
  rewrite <- H in H'. simpl in H'. injection H' as Hl Hp _ Hv. done.
Qed.

(** X7: the distances, the predecessors and the order of the visits that the
    search leaves are the same for every list of candidates. *)
Theorem search_ignores_candidates (g : graph) (destination : string)
    (hospitals hospitals' : list string) :
  ∃ self st st', init g = Ok self ∧
    search self destination hospitals = Ok st ∧
    search self destination hospitals' = Ok st' ∧
    lam st' = lam st ∧ pred st' = pred st ∧ visited st' = visited st.
Proof.
  destruct (init_spec g) as (self & Hinit & _).
  pose proof (init_targets g self Hinit) as HV.
  destruct (search_inv self destination hospitals HV) as (st & Hsearch & _).
  destruct (search_inv self destination hospitals' HV) as (st' & Hsearch' & _).
  exists self, st, st'. split; [done|]. split; [done|]. split; [done|].
  by apply (search_same_maps self destination hospitals hospitals').
Qed.

(** ** The search, for non-negative attributes *)

(** X8: with non-negative edge attributes no finite distance is negative. *)
Theorem distances_nonnegative (g : graph) (destination : string)
    (hospitals : list string) :
  nonnegative g →
  ∃ self st, init g = Ok self ∧ search self destination hospitals = Ok st ∧
    ∀ n c, lam st !! n = Some (Fin c) → (0 <= c)%Q.
Proof.
  intros Hnn. destruct (init_spec g) as (self & Hinit & _).
  pose proof (init_targets g self Hinit) as HV.
  pose proof (init_nonneg g self Hinit Hnn) as Hw.
  destruct (search_inv self destination hospitals HV) as (st & Hsearch & HI & _).
  exists self, st. split; [done|]. split; [done|].
  intros n c Hc. apply (walk_nonneg self destination n c Hw).
  by apply (inv_walk _ _ _ _ HI).
Qed.

Lemma distances_nonnegative_witness :
  ∃ self st, init create_network = Ok self ∧
    search self "Tunisia_Mall" main_hospitals = Ok st ∧
    ∀ n c, lam st !! n = Some (Fin c) → (0 <= c)%Q.
Proof.
  apply (distances_nonnegative create_network "Tunisia_Mall" main_hospitals).
  apply nonnegativeb_spec. vm_compute. reflexivity.
Defined.

(** X9: with non-negative edge attributes the search leaves no edge of the
    graph that a relaxation could still use: for an edge [n → k] with payload
    [a] whose head [k] has a finite distance, the distance of [k] plus the
    composite weight of [a] is not less than the distance of [n]. *)
Theorem distances_relaxed (g : graph) (destination : string) (hospitals : list string) :
  nonnegative g →
  ∃ self st, init g = Ok self ∧ search self destination hospitals = Ok st ∧
    ∀ n k a c, has_edge g n k a → lam st !! k = Some (Fin c) →
      ∃ x, lam st !! n = Some x ∧
           num_ltb (Fin (c + _calculate_composite_weight self a)) x = false.
Proof.
  intros Hnn. destruct (init_spec g) as (self & Hinit & _ & _ & _ & Hedges & _).
  pose proof (init_targets g self Hinit) as HV.
  pose proof (init_nonneg g self Hinit Hnn) as Hw.
  destruct (search_opt self destination hospitals HV Hw) as (st & Hsearch & HI & Hopt & Hq).
  exists self, st. split; [done|]. split; [done|].
  intros n k a c Hedge Hc.
  destruct (opt_relaxed _ _ Hopt k c n a) as (c' & Hc' & Hle); [|done|by apply Hedges|].
  { by apply (final_visited self destination hospitals st k c). }
  exists (Fin c'). split; [done|]. simpl. by apply Qltb_ge.
Qed.

Lemma distances_relaxed_witness :
  ∃ self st, init create_network = Ok self ∧
    search self "Tunisia_Mall" main_hospitals = Ok st ∧
    ∀ n k a c, has_edge create_network n k a → lam st !! k = Some (Fin c) →
      ∃ x, lam st !! n = Some x ∧
           num_ltb (Fin (c + _calculate_composite_weight self a)) x = false.
Proof.
  apply (distances_relaxed create_network "Tunisia_Mall" main_hospitals).
  apply nonnegativeb_spec. vm_compute. reflexivity.
Defined.

(** X10: with non-negative edge attributes the nodes are visited in the
    order of their distances: a node visited before another is at most as
    far from the destination. *)
Theorem visits_in_distance_order (g : graph) (destination : string)
    (hospitals : list string) :
  nonnegative g →
  ∃ self st, init g = Ok self ∧ search self destination hospitals = Ok st ∧
    ∀ n m c d, visited_before (visited st) n m →
      lam st !! n = Some (Fin c) → lam st !! m = Some (Fin d) → (c <= d)%Q.
Proof.
  intros Hnn. destruct (init_spec g) as (self & Hinit & _).
  pose proof (init_targets g self Hinit) as HV.
  pose proof (init_nonneg g self Hinit Hnn) as Hw.
  destruct (search_full self destination hospitals HV Hw)
    as (st & Hsearch & HI & Hopt & Ht & Hord & Hq).
  exists self, st. split; [done|]. split; [done|].
  intros n m c d (i & j & Hi & Hj & Hij) Hc Hd. by apply (Hord i j n m).
Qed.

Lemma visits_in_distance_order_witness :
  ∃ self st, init create_network = Ok self ∧
    search self "Tunisia_Mall" main_hospitals = Ok st ∧
    ∀ n m c d, visited_before (visited st) n m →
      lam st !! n = Some (Fin c) → lam st !! m = Some (Fin d) → (c <= d)%Q.
Proof.
  apply (visits_in_distance_order create_network "Tunisia_Mall" main_hospitals).
  apply nonnegativeb_spec. vm_compute. reflexivity.
Defined.

(** ** Metrics, by recursion on the route *)

Lemma metrics_step_segment (self : ReverseSingleSourceDijkstra)
    (pre post : list string) (u v : string) (acc : metrics) :
  metrics_step self (pre ++ u :: v :: post) acc (length pre)
  = Ok (add_segment self acc u v).
Proof.
  unfold metrics_step, route_at.
  rewrite (list_lookup_middle pre (v :: post) u (length pre)) by done.
  replace (pre ++ u :: v :: post) with ((pre ++ [u]) ++ v :: post)
    by (by rewrite <- app_assoc).
  rewrite (list_lookup_middle (pre ++ [u]) post v (length pre + 1))
    by (rewrite length_app; simpl; lia).
  simpl. unfold add_segment, edge_lookup.
  destruct (G self !! u) as [row|]; [|done]. by destruct (row !! v).
Qed.

Lemma metrics_loop_along (self : ReverseSingleSourceDijkstra)
    (rest pre : list string) (acc : metrics) :
  for_each (metrics_step self (pre ++ rest)) acc (seq (length pre) (length rest - 1))
  = Ok (metrics_along self acc rest).
Proof.
  revert pre acc. induction rest as [|u rest IH]; intros pre acc; [done|].
  destruct rest as [|v rest]; [done|].
  replace (length (u :: v :: rest) - 1)%nat with (S (length rest)) by (simpl; lia).
  cbn [seq for_each]. rewrite metrics_step_segment.
  specialize (IH (pre ++ [u]) (add_segment self acc u v)).
  rewrite <- app_assoc in IH. simpl in IH.
  rewrite length_app in IH. simpl in IH.
  replace (length pre + 1)%nat with (S (length pre)) in IH by lia.
  replace (length rest - 0)%nat with (length rest) in IH by lia.
  exact IH.
Qed.

Lemma metrics_is_along (self : ReverseSingleSourceDijkstra) (route : list string) :
  _calculate_route_metrics self route = Ok (metrics_along self metrics_zero route).
Proof. apply (metrics_loop_along self route []). Qed.

Lemma Qsum_app (l1 l2 : list Q) : Qsum (l1 ++ l2) == Qsum l1 + Qsum l2.
Proof.
  induction l1 as [|x l1 IH]; simpl; [ring|]. rewrite IH. ring.
Qed.

Lemma Qsum_reverse (l : list Q) : Qsum (reverse l) == Qsum l.
Proof.
  induction l as [|x l IH]; [reflexivity|].
  rewrite reverse_cons, Qsum_app, IH. simpl. ring.
Qed.

Lemma metrics_along_cost (self : ReverseSingleSourceDijkstra) (p : list string)
    (acc : metrics) :
  metrics_cost self (metrics_along self acc p)
  == metrics_cost self acc
     + Qsum (_calculate_composite_weight self <$> route_payloads (G self) p).
Proof.
  revert acc. induction p as [|u p IH]; intros acc; [simpl; ring|].
  destruct p as [|v p]; [simpl; ring|].
  change (metrics_along self acc (u :: v :: p))
    with (metrics_along self (add_segment self acc u v) (v :: p)).
  rewrite IH. unfold add_segment.
  change (route_payloads (G self) (u :: v :: p))
    with (match edge_lookup (G self) u v with
          | Some a => a :: route_payloads (G self) (v :: p)
          | None => route_payloads (G self) (v :: p)
          end).
  destruct (edge_lookup (G self) u v) as [a|]; [|reflexivity].
  rewrite fmap_cons. cbn [Qsum foldr]. fold (Qsum (_calculate_composite_weight self <$>
    route_payloads (G self) (v :: p))).
  unfold metrics_cost, _calculate_composite_weight. simpl. ring.
Qed.

(** X12: appending a node to a route adds one segment to its metrics: the
    metrics of [l ++ [u; v]] are those of [l ++ [u]] with the attributes of
    the edge [u → v] added, or unchanged when the graph has no such edge; a
    route of fewer than two nodes has the metrics zero. *)
Theorem metrics_extend_route (self : ReverseSingleSourceDijkstra)
    (l : list string) (u v : string) :
  (∃ m, _calculate_route_metrics self (l ++ [u]) = Ok m ∧
        _calculate_route_metrics self (l ++ [u; v]) = Ok (add_segment self m u v)) ∧
  _calculate_route_metrics self [] = Ok metrics_zero ∧
  _calculate_route_metrics self [u] = Ok metrics_zero.
Proof.
  split; [|done].
  exists (metrics_along self metrics_zero (l ++ [u])).
  rewrite !metrics_is_along. split; [done|]. f_equal.
  generalize metrics_zero. induction l as [|x l IH]; intros acc; [done|].
  destruct l as [|y l]; [done|]. apply (IH (add_segment self acc x y)).
Qed.

(** ** Paths *)

Lemma path_edges_snoc (g : graph) (q : list string) (y x : string) :
  path_edges g ((q ++ [y]) ++ [x])
  = match path_edges g (q ++ [y]), edge_lookup g y x with
    | Some l, Some a => Some (l ++ [a])
    | _, _ => None
    end.
Proof.
  induction q as [|z q IH].
  - simpl. by destruct (edge_lookup g y x).
  - destruct q as [|z' q].
    + simpl. destruct (edge_lookup g z y), (edge_lookup g y x); done.
    + change (path_edges g (((z :: z' :: q) ++ [y]) ++ [x]))
        with (match edge_lookup g z z', path_edges g (((z' :: q) ++ [y]) ++ [x]) with
              | Some a, Some l => Some (a :: l)
              | _, _ => None
              end).
      change (path_edges g ((z :: z' :: q) ++ [y]))
        with (match edge_lookup g z z', path_edges g ((z' :: q) ++ [y]) with
              | Some a, Some l => Some (a :: l)
              | _, _ => None
              end).
      rewrite IH.
      destruct (edge_lookup g z z'), (path_edges g ((z' :: q) ++ [y])),
        (edge_lookup g y x); done.
Qed.

(** A path of a graph, read backwards, is a path of the graph with the
    edges swapped, with the same payloads. *)
Lemma path_edges_reverse (g g' : graph) (p : list string) :
  (∀ u v, edge_lookup g' v u = edge_lookup g u v) →
  path_edges g' (reverse p) = reverse <$> path_edges g p.
Proof.
  intros Hswap. induction p as [|u p IH]; [done|].
  destruct p as [|v p]; [done|].
  rewrite (reverse_cons (v :: p) u), (reverse_cons p v), path_edges_snoc.
  rewrite <- (reverse_cons p v), IH, Hswap.
  change (path_edges g (u :: v :: p))
    with (match edge_lookup g u v, path_edges g (v :: p) with
          | Some a, Some l => Some (a :: l)
          | _, _ => None
          end).
  destruct (edge_lookup g u v) as [a|], (path_edges g (v :: p)) as [l|]; simpl; try done.
  by rewrite reverse_cons.
Qed.

Lemma path_edges_payloads (g : graph) (p : list string) (l : list attributes) :
  path_edges g p = Some l → route_payloads g p = l.
Proof.
  revert l. induction p as [|u p IH]; intros l; [by intros [= <-]|].
  destruct p as [|v p]; [by intros [= <-]|].
  change (path_edges g (u :: v :: p))
    with (match edge_lookup g u v, path_edges g (v :: p) with
          | Some a, Some l => Some (a :: l)
          | _, _ => None
          end).
  change (route_payloads g (u :: v :: p))
    with (match edge_lookup g u v with
          | Some a => a :: route_payloads g (v :: p)
          | None => route_payloads g (v :: p)
          end).
  destruct (edge_lookup g u v) as [a|]; [|done].
  destruct (path_edges g (v :: p)) as [l'|]; [|done].
  intros [= <-]. by rewrite (IH l').
Qed.

(** A route whose consecutive pairs are no edges of the graph has the
    metrics it started with. *)
Lemma metrics_along_none (self : ReverseSingleSourceDijkstra) (gp : graph)
    (p : list string) (l : list attributes) (acc : metrics) :
  (∀ u v a, has_edge gp u v a → edge_lookup (G self) u v = None) →
  path_edges gp p = Some l →
  metrics_along self acc p = acc.
Proof.
  intros Hnone. revert l. induction p as [|u p IH]; intros l; [done|].
  destruct p as [|v p]; [done|].
  change (path_edges gp (u :: v :: p))
    with (match edge_lookup gp u v, path_edges gp (v :: p) with
          | Some a, Some l => Some (a :: l)
          | _, _ => None
          end).
  destruct (edge_lookup gp u v) as [a|] eqn:E; [|done].
  destruct (path_edges gp (v :: p)) as [l'|] eqn:E'; [|done]. intros _.
  change (metrics_along self acc (u :: v :: p))
    with (metrics_along self (add_segment self acc u v) (v :: p)).
  unfold add_segment. rewrite (Hnone u v a) by (by apply edge_lookup_has_edge).
  by apply (IH l').
Qed.

(** ** The predecessor chain *)

Section Chain.
Context (self : ReverseSingleSourceDijkstra) (destination : string)
        (hospitals : list string) (st : state).
Hypothesis HI : inv self destination hospitals st.
Hypothesis Ht : tree self destination st.
Hypothesis Hswap : ∀ v u a, has_edge (G_prime self) v u a ↔ has_edge (G self) u v a.

Local Abbreviation w := (_calculate_composite_weight self).

(** The chain from a visited node: it ends at the destination, follows
    edges of the graph, passes only nodes visited earlier, and its weights
    add up to the distance of the node. *)
Lemma chain_spec (fuel i : nat) (n : string) (c : Q) :
  visited st !! i = Some n → (i < fuel)%nat → lam st !! n = Some (Fin c) →
  ∃ path payloads,
    trace_pred (pred st) fuel (Some n) = Ok (n :: path) ∧
    last (n :: path) = Some destination ∧
    path_edges (G self) (n :: path) = Some payloads ∧
    c == Qsum (w <$> payloads) ∧
    ∀ x, x ∈ path → ∃ i', (i' < i)%nat ∧ visited st !! i' = Some x.
Proof.
  revert i n c. induction fuel as [|fuel IH]; intros i n c Hi Hlt Hc; [lia|].
  simpl. unfold get_default.
  destruct (pred st !! n) as [[k|]|] eqn:Hp; simpl.
  - destruct (tree_pred _ _ _ Ht n k Hp) as (Hk & a & ck & Hedge & Hck & Hn).
    destruct (inv_pred _ _ _ _ HI n k Hp) as (i' & Hi' & Hlt').
    specialize (Hlt' i Hi).
    destruct (IH i' k ck Hi' ltac:(lia) Hck) as (path & payloads & -> & Hlast & Hpath & Hsum & Hidx).
    exists (k :: path), (a :: payloads). split; [done|]. split; [done|]. split; [|split].
    + change (path_edges (G self) (n :: k :: path))
        with (match edge_lookup (G self) n k, path_edges (G self) (k :: path) with
              | Some a, Some l => Some (a :: l)
              | _, _ => None
              end).
      rewrite Hpath.
      assert (edge_lookup (G self) n k = Some a) as ->; [|done].
      by apply edge_lookup_has_edge, Hswap.
    + rewrite Hc in Hn. injection Hn as ->. rewrite fmap_cons. simpl.
      fold (Qsum (w <$> payloads)). rewrite <- Hsum. ring.
    + intros x [->|Hx]%elem_of_cons; [by exists i'|].
      destruct (Hidx x Hx) as (i'' & Hlt'' & Hx'). exists i''. split; [lia|done].
  - assert (n = destination) as ->.
    { destruct (tree_root _ _ _ Ht n c Hc) as [->|[k Hk]]; [done|congruence]. }
    rewrite (tree_dest_lam _ _ _ Ht) in Hc. injection Hc as <-.
    exists [], []. destruct fuel; repeat split; try done.
    all: intros x Hx; by apply elem_of_nil in Hx.
  - assert (n = destination) as ->.
    { destruct (tree_root _ _ _ Ht n c Hc) as [->|[k Hk]]; [done|congruence]. }
    rewrite (tree_dest_lam _ _ _ Ht) in Hc. injection Hc as <-.
    exists [], []. destruct fuel; repeat split; try done.
    all: intros x Hx; by apply elem_of_nil in Hx.
Qed.

Lemma chain_nodup (i : nat) (n : string) (path : list string) :
  visited st !! i = Some n →
  (∀ x, x ∈ path → ∃ i', (i' < i)%nat ∧ visited st !! i' = Some x) →
  n ∉ path.
Proof.
  intros Hi Hidx Hn. destruct (Hidx n Hn) as (i' & Hlt & Hi').
  pose proof (NoDup_lookup _ _ _ _ (inv_nodup _ _ _ _ HI) Hi Hi'). lia.
Qed.

(** The chain from a node with a finite distance, with the fuel of
    [route_of]. *)
Lemma chain_of (h : string) (c : Q) :
  queue st = [] → lam st !! h = Some (Fin c) →
  ∃ path payloads,
    trace_pred (pred st) (S (length (visited st))) (Some h) = Ok (h :: path) ∧
    last (h :: path) = Some destination ∧
    path_edges (G self) (h :: path) = Some payloads ∧
    c == Qsum (w <$> payloads) ∧
    h ∉ path.
Proof.
  intros Hq Hc.
  assert (Hv : h ∈ visited st) by (by apply (final_visited self destination hospitals st h c)).
  apply list_elem_of_lookup in Hv as [i Hi].
  destruct (chain_spec (S (length (visited st))) i h c Hi) as
    (path & payloads & H1 & H2 & H3 & H4 & H5); [|done|].
  { apply lookup_lt_Some in Hi. lia. }
  exists path, payloads. repeat split; try done. by apply (chain_nodup i).
Qed.

(** The route of the dispatch for a node with a finite distance: the chain
    reversed, a path of the reversed graph from the destination. *)
Lemma route_of_spec (h : string) (c : Q) :
  queue st = [] → lam st !! h = Some (Fin c) →
  ∃ route payloads,
    route_of st h = Ok route ∧
    head route = Some destination ∧ last route = Some h ∧
    path_edges (G_prime self) route = Some payloads ∧
    c == Qsum (w <$> payloads).
Proof.
  intros Hq Hc. destruct (chain_of h c Hq Hc) as (path & payloads & H1 & H2 & H3 & H4 & _).
  exists (reverse (h :: path)), (reverse payloads). unfold route_of. rewrite H1. simpl.
  split; [done|]. split; [by rewrite head_reverse|]. split; [by rewrite last_reverse|].
  split.
  - rewrite (path_edges_reverse (G self) (G_prime self)), H3; [done|].
    apply edge_lookup_ext. intros u v a. apply Hswap.
  - rewrite fmap_reverse, Qsum_reverse. done.
Qed.
End Chain.

Lemma init_swap (g : graph) (self : ReverseSingleSourceDijkstra) :
  init g = Ok self →
  G self = g ∧ ∀ v u a, has_edge (G_prime self) v u a ↔ has_edge (G self) u v a.
Proof.
  intros Hinit. destruct (init_spec g) as (self' & Hinit' & HG & _ & _ & Hedges & _).
  rewrite Hinit in Hinit'. injection Hinit' as <-. split; [done|]. by rewrite HG.
Qed.

(** X13: after the search, [_reconstruct_original_path] for a node with a
    finite distance returns a path of the graph from that node to the
    destination: it starts at the node, ends at the destination, follows
    edges of the graph, comes back to no node, and the composite weights of
    its edges add up to the distance of the node. *)
Theorem reconstructed_path_reaches_destination (g : graph) (destination : string)
    (hospitals : list string) :
  ∃ self st, init g = Ok self ∧ search self destination hospitals = Ok st ∧
    ∀ h c, lam st !! h = Some (Fin c) →
      ∃ path payloads,
        _reconstruct_original_path (S (length (visited st))) h (pred st) = Ok path ∧
        head path = Some h ∧ last path = Some destination ∧
        path_edges g path = Some payloads ∧
        c == Qsum (_calculate_composite_weight self <$> payloads) ∧
        NoDup path.
Proof.
  destruct (init_spec g) as (self & Hinit & _).
  pose proof (init_targets g self Hinit) as HV.
  destruct (init_swap g self Hinit) as [HG Hswap].
  destruct (search_tree self destination hospitals HV) as (st & Hsearch & HI & Ht & Hq).
  exists self, st. split; [done|]. split; [done|].
  intros h c Hc.
  assert (Hv : h ∈ visited st) by (by apply (final_visited self destination hospitals st h c)).
  apply list_elem_of_lookup in Hv as [i Hi].
  assert (Hgen : ∀ fuel j n d, visited st !! j = Some n → (j < fuel)%nat →
            lam st !! n = Some (Fin d) →
            ∃ path, trace_pred (pred st) fuel (Some n) = Ok (n :: path) ∧ NoDup (n :: path) ∧
              ∀ x, x ∈ path → ∃ j', (j' < j)%nat ∧ visited st !! j' = Some x).
  { induction fuel as [|fuel IH]; intros j n d Hj Hlt Hd; [lia|].
    simpl. unfold get_default.
    destruct (pred st !! n) as [[k|]|] eqn:Hp; simpl.
    - destruct (tree_pred _ _ _ Ht n k Hp) as (Hk & a & ck & _ & Hck & _).
      destruct (inv_pred _ _ _ _ HI n k Hp) as (j' & Hj' & Hlt').
      specialize (Hlt' j Hj).
      destruct (IH j' k ck Hj' ltac:(lia) Hck) as (path & -> & Hnd & Hidx).
      assert (Hall : ∀ x, x ∈ k :: path → ∃ j'', (j'' < j)%nat ∧ visited st !! j'' = Some x).
      { intros x [->|Hx]%elem_of_cons; [by exists j'|].
        destruct (Hidx x Hx) as (j'' & Hlt'' & Hx'). exists j''. split; [lia|done]. }
      exists (k :: path). split; [done|]. split; [|done].
      apply NoDup_cons. split; [|done].
      by apply (chain_nodup self destination hospitals st HI j).
    - exists []. destruct fuel; repeat split; try apply NoDup_singleton.
      all: intros x Hx; by apply elem_of_nil in Hx.
    - exists []. destruct fuel; repeat split; try apply NoDup_singleton.
      all: intros x Hx; by apply elem_of_nil in Hx. }
  destruct (chain_of self destination hospitals st HI Ht Hswap h c Hq Hc)
    as (path & payloads & H1 & H2 & H3 & H4 & _).
  destruct (Hgen (S (length (visited st))) i h c Hi) as (path' & H1' & Hnd & _); [|done|].
  { apply lookup_lt_Some in Hi. lia. }
  rewrite H1 in H1'. injection H1' as <-.
  exists (h :: path), payloads. unfold _reconstruct_original_path.
  rewrite <- HG. done.
Qed.

(** ** The result of a dispatch *)

Lemma details_get_Ok (details : list (string * hospital_detail)) (h : string)
    (d : hospital_detail) :
  NoDup details.*1 → (h, d) ∈ details → details_get details h = Ok d.
Proof.
  induction details as [|[k y] details IH]; intros Hnd Hin; simpl.
  - by apply elem_of_nil in Hin.
  - simpl in Hnd. apply NoDup_cons in Hnd as [Hk Hnd].
    apply elem_of_cons in Hin as [[= -> ->]|Hin].
    + by rewrite decide_True.
    + rewrite decide_False; [by apply IH|]. intros ->. apply Hk.
      apply list_elem_of_fmap. by exists (h, d).
Qed.

Lemma details_get_missing (details : list (string * hospital_detail)) (h : string) :
  h ∉ details.*1 → details_get details h = Raise (KeyError h).
Proof.
  induction details as [|[k y] details IH]; intros Hh; simpl; [done|].
  simpl in Hh. apply not_elem_of_cons in Hh as [Hne Hh].
  rewrite decide_False by done. by apply IH.
Qed.

Section Dispatched.
Context (self : ReverseSingleSourceDijkstra) (destination : string)
        (hospitals : list string) (st : state).
Hypothesis HI : inv self destination hospitals st.

Local Abbreviation key h := (default Inf (lam st !! h)).

(** What a successful extraction returns, in terms of the state. *)
Lemma dispatched_spec :
  found_hospitals st ≠ [] →
  ∃ r l1 l2,
    extract_solution self st = Ok (Dispatched r) ∧
    filter (λ h, h ∈ hospitals) (visited st) = l1 ++ optimal_hospital r :: l2 ∧
    (∀ h, h ∈ l1 → num_ltb (key (optimal_hospital r)) (key h) = true) ∧
    (∀ h, h ∈ l2 → num_ltb (key h) (key (optimal_hospital r)) = false) ∧
    optimal_cost r = key (optimal_hospital r) ∧
    route_of st (optimal_hospital r) = Ok (optimal_route r) ∧
    (all_hospitals r).*1 = filter (λ h, h ∈ hospitals) (visited st) ∧
    ∀ h d, (h, d) ∈ all_hospitals r →
      route_of st h = Ok (detail_route d) ∧ detail_lam d = key h ∧
      ∃ m, _calculate_route_metrics self (detail_route d) = Ok m ∧
           detail_travel_time d = travel_time m ∧
           detail_total_cost d = total_cost m ∧
           detail_it_components d = it_components m.
Proof.
  intros Hne.
  destruct (extract_some self destination hospitals st HI Hne)
    as (r & l1 & l2 & Hex & Hsplit & H1 & H2 & Hcost & Hroute & _ & _ & Hdet).
  destruct (details_total self destination hospitals st HI) as (details & Hrun & Hkeys & Hall).
  rewrite Hrun in Hdet. injection Hdet as Hdet. subst details.
  rewrite (found_fst self destination hospitals st HI) in Hsplit, Hkeys.
  exists r, l1, l2. done.
Qed.

Lemma candidate_visited (h : string) :
  h ∈ filter (λ h, h ∈ hospitals) (visited st) →
  h ∈ hospitals ∧ ∃ c, lam st !! h = Some (Fin c).
Proof.
  intros [Hh Hv]%list_elem_of_filter. split; [done|]. by apply (inv_visited _ _ _ _ HI).
Qed.
End Dispatched.

Lemma dispatch_cases (self : ReverseSingleSourceDijkstra) (destination : string)
    (hospitals : list string) (st : state) :
  search self destination hospitals = Ok st →
  inv self destination hospitals st →
  find_optimal_dispatch self destination hospitals
    = Ok (NoReachable "No reachable hospitals found")
  ∨ (found_hospitals st ≠ [] ∧
     find_optimal_dispatch self destination hospitals = extract_solution self st).
Proof.
  intros Hsearch HI. rewrite (find_optimal_dispatch_run _ _ _ st Hsearch).
  destruct (found_hospitals st) as [|hx found] eqn:Hfound.
  - left. by apply extract_none.
  - right. done.
Qed.

(** X15: whatever the edge attributes, the route of a successful dispatch
    starts at the destination and ends at the selected candidate; it is a
    path of the reversed graph, and the composite weights of its edges add up
    to the cost returned. Every route of the details likewise starts at the
    destination and ends at its candidate. *)
Theorem dispatch_route_from_destination (g : graph) (destination : string)
    (hospitals : list string) :
  ∃ self, init g = Ok self ∧
    (find_optimal_dispatch self destination hospitals
       = Ok (NoReachable "No reachable hospitals found")
     ∨ ∃ r c payloads,
         find_optimal_dispatch self destination hospitals = Ok (Dispatched r) ∧
         optimal_cost r = Fin c ∧
         head (optimal_route r) = Some destination ∧
         last (optimal_route r) = Some (optimal_hospital r) ∧
         path_edges (G_prime self) (optimal_route r) = Some payloads ∧
         c == Qsum (_calculate_composite_weight self <$> payloads) ∧
         ∀ h d, (h, d) ∈ all_hospitals r →
           head (detail_route d) = Some destination ∧ last (detail_route d) = Some h).
Proof.
  destruct (init_spec g) as (self & Hinit & _).
  pose proof (init_targets g self Hinit) as HV.
  destruct (init_swap g self Hinit) as [HG Hswap].
  destruct (search_tree self destination hospitals HV) as (st & Hsearch & HI & Ht & Hq).
  exists self. split; [done|].
  destruct (dispatch_cases self destination hospitals st Hsearch HI) as [Hnone|[Hne Hrun]];
    [by left|right].
  destruct (dispatched_spec self destination hospitals st HI Hne)
    as (r & l1 & l2 & Hex & Hsplit & _ & _ & Hcost & Hroute & Hkeys & Hall).
  assert (Hstar : optimal_hospital r ∈ filter (λ h, h ∈ hospitals) (visited st)).
  { rewrite Hsplit. apply elem_of_app. right. by left. }
  apply (candidate_visited self destination hospitals st HI) in Hstar as [_ [c Hc]].
  destruct (route_of_spec self destination hospitals st HI Ht Hswap _ c Hq Hc)
    as (route & payloads & Hr & Hhead & Hlast & Hpath & Hsum).
  rewrite Hroute in Hr. injection Hr as <-.
  exists r, c, payloads. split; [congruence|]. split; [by rewrite Hcost, Hc|].
  repeat split; try done.
  - destruct (Hall h d H) as (Hrd & _).
    assert (Hh : h ∈ filter (λ h, h ∈ hospitals) (visited st)).
    { rewrite <- Hkeys. apply list_elem_of_fmap. by exists (h, d). }
    apply (candidate_visited self destination hospitals st HI) in Hh as [_ [c' Hc']].
    destruct (route_of_spec self destination hospitals st HI Ht Hswap _ c' Hq Hc')
      as (route' & payloads' & Hr' & Hhead' & _).
    rewrite Hrd in Hr'. by injection Hr' as <-.
  - destruct (Hall h d H) as (Hrd & _).
    assert (Hh : h ∈ filter (λ h, h ∈ hospitals) (visited st)).
    { rewrite <- Hkeys. apply list_elem_of_fmap. by exists (h, d). }
    apply (candidate_visited self destination hospitals st HI) in Hh as [_ [c' Hc']].
    destruct (route_of_spec self destination hospitals st HI Ht Hswap _ c' Hq Hc')
      as (route' & payloads' & Hr' & _ & Hlast' & _).
    rewrite Hrd in Hr'. by injection Hr' as <-.
Qed.


Lemma filter_lookup_before (P : string → Prop) `{∀ x, Decision (P x)}
    (vis : list string) (i j : nat) (a b : string) :
  filter P vis !! i = Some a → filter P vis !! j = Some b → (i < j)%nat →
  visited_before vis a b.
Proof.
  intros Hi Hj Hij.
  apply (filter_split_before P vis (take i (filter P vis)) (drop (S i) (filter P vis))).
  - by rewrite take_drop_middle.
  - apply list_elem_of_lookup. exists (j - S i)%nat. rewrite lookup_drop. rewrite <- Hj.
    f_equal. lia.
Qed.

(** X17: with non-negative edge attributes the selected candidate is the
    first candidate the search visits, the first entry of the details, and
    the entries of the details are in the order of their distances. *)
Theorem first_found_is_optimal (g : graph) (destination : string)
    (hospitals : list string) :
  nonnegative g →
  ∃ self, init g = Ok self ∧
    (find_optimal_dispatch self destination hospitals
       = Ok (NoReachable "No reachable hospitals found")
     ∨ ∃ r, find_optimal_dispatch self destination hospitals = Ok (Dispatched r) ∧
         head (all_hospitals r).*1 = Some (optimal_hospital r) ∧
         sorted_details (all_hospitals r)).
Proof.
  intros Hnn. destruct (init_spec g) as (self & Hinit & _).
  pose proof (init_targets g self Hinit) as HV.
  pose proof (init_nonneg g self Hinit Hnn) as Hw.
  destruct (search_full self destination hospitals HV Hw)
    as (st & Hsearch & HI & Hopt & Ht & Hord & Hq).
  exists self. split; [done|].
  destruct (dispatch_cases self destination hospitals st Hsearch HI) as [Hnone|[Hne Hrun]];
    [by left|right].
  destruct (dispatched_spec self destination hospitals st HI Hne)
    as (r & l1 & l2 & Hex & Hsplit & H1 & _ & _ & _ & Hkeys & Hall).
  assert (Hlam : ∀ i h d, all_hospitals r !! i = Some (h, d) →
            filter (λ h, h ∈ hospitals) (visited st) !! i = Some h ∧
            ∃ c, lam st !! h = Some (Fin c) ∧ detail_lam d = Fin c).
  { intros i h d Hi. split.
    - rewrite <- Hkeys, list_lookup_fmap, Hi. done.
    - assert (Hin : (h, d) ∈ all_hospitals r) by (by apply list_elem_of_lookup_2 in Hi).
      destruct (Hall h d Hin) as (_ & -> & _).
      assert (Hh : h ∈ filter (λ h, h ∈ hospitals) (visited st)).
      { rewrite <- Hkeys. apply list_elem_of_fmap. by exists (h, d). }
      apply (candidate_visited self destination hospitals st HI) in Hh as [_ [c Hc]].
      exists c. by rewrite Hc. }
  exists r. split; [congruence|]. split.
  - rewrite Hkeys, Hsplit. destruct l1 as [|x l1]; [done|]. exfalso.
    specialize (H1 x ltac:(by left)).
    assert (Hb : visited_before (visited st) x (optimal_hospital r)).
    { apply (filter_lookup_before (λ h, h ∈ hospitals) (visited st) 0 (S (length l1))).
      - by rewrite Hsplit.
      - rewrite Hsplit. simpl. by rewrite list_lookup_middle.
      - lia. }
    destruct Hb as (i & j & Hi & Hj & Hij).
    destruct (inv_visited _ _ _ _ HI x) as [c Hc];
      [by apply list_elem_of_lookup_2 in Hi|].
    destruct (inv_visited _ _ _ _ HI (optimal_hospital r)) as [d Hd];
      [by apply list_elem_of_lookup_2 in Hj|].
    rewrite Hc, Hd in H1. simpl in H1. apply Qltb_lt in H1.
    pose proof (Hord i j _ _ c d Hij Hi Hj Hc Hd) as Hle.
    by apply Qle_not_lt in Hle.
  - intros i j [h d] [h' d'] Hij Hi Hj. simpl.
    destruct (Hlam i h d Hi) as (Hfi & c & Hc & ->).
    destruct (Hlam j h' d' Hj) as (Hfj & c' & Hc' & ->).
    simpl. apply Qltb_ge.
    destruct (filter_lookup_before (λ h, h ∈ hospitals) (visited st) i j h h' Hfi Hfj Hij)
      as (i0 & j0 & Hi0 & Hj0 & Hij0).
    by apply (Hord i0 j0 h h').
Qed.

Lemma first_found_is_optimal_witness :
  ∃ self, init create_network = Ok self ∧
    (find_optimal_dispatch self "Tunisia_Mall" main_hospitals
       = Ok (NoReachable "No reachable hospitals found")
     ∨ ∃ r, find_optimal_dispatch self "Tunisia_Mall" main_hospitals = Ok (Dispatched r) ∧
         head (all_hospitals r).*1 = Some (optimal_hospital r) ∧
         sorted_details (all_hospitals r)).
Proof.
  apply (first_found_is_optimal create_network "Tunisia_Mall" main_hospitals).
  apply nonnegativeb_spec. vm_compute. reflexivity.
Defined.

Lemma one_wayb_spec (g : graph) : one_wayb g = true → one_way g.
Proof.
  unfold one_wayb, one_way. rewrite forallb_forall.
  intros Hall u v a (row & Hrow & Ha).
  specialize (Hall (u, row)). rewrite forallb_forall in Hall.
  specialize (Hall ltac:(by apply list_elem_of_In, elem_of_map_to_list) (v, a)
                   ltac:(by apply list_elem_of_In, elem_of_map_to_list)).
  simpl in Hall. by destruct (edge_lookup g v u).
Qed.

(** X18: when no two nodes of the graph are joined by edges in both
    directions, as in the network of [create_network], every entry of the
    details of a dispatch has the travel time, the cost and the three risk
    components zero: no consecutive pair of a returned route is an edge of
    the graph. *)
Theorem one_way_details_are_zero (g : graph) (destination : string)
    (hospitals : list string) :
  one_way g →
  ∃ self, init g = Ok self ∧
    (find_optimal_dispatch self destination hospitals
       = Ok (NoReachable "No reachable hospitals found")
     ∨ ∃ r, find_optimal_dispatch self destination hospitals = Ok (Dispatched r) ∧
         ∀ h d, (h, d) ∈ all_hospitals r →
           detail_travel_time d = 0%Q ∧ detail_total_cost d = 0%Q ∧
           detail_it_components d = {| network := 0; gps := 0; data := 0 |}).
Proof.
  intros Hone. destruct (init_spec g) as (self & Hinit & _).
  pose proof (init_targets g self Hinit) as HV.
  destruct (init_swap g self Hinit) as [HG Hswap].
  destruct (search_tree self destination hospitals HV) as (st & Hsearch & HI & Ht & Hq).
  exists self. split; [done|].
  destruct (dispatch_cases self destination hospitals st Hsearch HI) as [Hnone|[Hne Hrun]];
    [by left|right].
  destruct (dispatched_spec self destination hospitals st HI Hne)
    as (r & l1 & l2 & Hex & _ & _ & _ & _ & _ & Hkeys & Hall).
  exists r. split; [congruence|]. intros h d Hd.
  destruct (Hall h d Hd) as (Hrd & _ & m & Hm & -> & -> & ->).
  assert (Hh : h ∈ filter (λ h, h ∈ hospitals) (visited st)).
  { rewrite <- Hkeys. apply list_elem_of_fmap. by exists (h, d). }
  apply (candidate_visited self destination hospitals st HI) in Hh as [_ [c Hc]].
  destruct (route_of_spec self destination hospitals st HI Ht Hswap _ c Hq Hc)
    as (route & payloads & Hr & _ & _ & Hpath & _).
  rewrite Hrd in Hr. injection Hr as <-.
  rewrite metrics_is_along in Hm. injection Hm as <-.
  rewrite (metrics_along_none self (G_prime self) _ payloads); [done| |done].
  intros u v a Hedge. rewrite HG. apply (Hone v u a). rewrite <- HG. by apply Hswap.
Qed.

Lemma one_way_details_are_zero_witness :
  ∃ self, init create_network = Ok self ∧
    (find_optimal_dispatch self "Tunisia_Mall" main_hospitals
       = Ok (NoReachable "No reachable hospitals found")
     ∨ ∃ r, find_optimal_dispatch self "Tunisia_Mall" main_hospitals = Ok (Dispatched r) ∧
         ∀ h d, (h, d) ∈ all_hospitals r →
           detail_travel_time d = 0%Q ∧ detail_total_cost d = 0%Q ∧
           detail_it_components d = {| network := 0; gps := 0; data := 0 |}).
Proof.
  apply (one_way_details_are_zero create_network "Tunisia_Mall" main_hospitals).
  apply one_wayb_spec. vm_compute. reflexivity.
Defined.

(** ** The report *)

Lemma insert_by_lam_length (x : string * hospital_detail)
    (l : list (string * hospital_detail)) :
  length (insert_by_lam x l) = S (length l).
Proof.
  induction l as [|y l IH]; simpl; [done|].
  destruct (num_ltb (detail_lam x.2) (detail_lam y.2)); simpl; [done|]. by rewrite IH.
Qed.

Lemma sorted_by_lam_length (l : list (string * hospital_detail)) :
  length (sorted_by_lam l) = length l.
Proof.
  unfold sorted_by_lam. induction l as [|x l IH] using rev_ind; [done|].
  rewrite foldl_snoc, insert_by_lam_length, IH, length_app. simpl. lia.
Qed.

Lemma insert_by_lam_last (x : string * hospital_detail)
    (l : list (string * hospital_detail)) :
  (∀ y, y ∈ l → num_ltb (detail_lam x.2) (detail_lam y.2) = false) →
  insert_by_lam x l = l ++ [x].
Proof.
  induction l as [|y l IH]; intros Hall; simpl; [done|].
  rewrite (Hall y) by (by left). f_equal. apply IH. intros z Hz. apply Hall. by right.
Qed.

(** The stable sort leaves a list in the order of the distances as it is. *)
Lemma sorted_by_lam_id (l : list (string * hospital_detail)) :
  sorted_details l → sorted_by_lam l = l.
Proof.
  unfold sorted_by_lam. induction l as [|x l IH] using rev_ind; intros Hs; [done|].
  rewrite foldl_snoc, IH.
  - apply insert_by_lam_last. intros y [i Hi]%list_elem_of_lookup.
    apply (Hs i (length l) y x).
    + by apply lookup_lt_Some in Hi.
    + by apply lookup_app_l_Some.
    + by rewrite list_lookup_middle.
  - intros i j y z Hij Hi Hj. apply (Hs i j y z Hij); by apply lookup_app_l_Some.
Qed.

Lemma row_route_str_total (route : list string) : ∃ s, row_route_str route = Ok s.
Proof.
  unfold row_route_str. case_bool_decide as Hlen; [by eexists|].
  unfold route_at, route_last. destruct route as [|u route]; [simpl in Hlen; lia|].
  simpl. destruct (last (u :: route)) as [v|] eqn:E; [by eexists|].
  by apply last_None in E.
Qed.

(** The rows of the table: one for each item, in the order of the items. *)
Lemma print_rows_spec (r : dispatch) (items : list (string * hospital_detail))
    (acc : list report_line) :
  ∃ rows, for_each (print_row r) acc items = Ok (acc ++ rows) ∧
    Forall2 (λ line hd, ∃ s, row_route_str (detail_route hd.2) = Ok s ∧
               line = PRow (bool_decide (hd.1 = optimal_hospital r)) hd.1
                        (detail_lam hd.2) s)
            rows items.
Proof.
  revert acc. induction items as [|hd items IH]; intros acc; simpl.
  - exists []. by rewrite app_nil_r.
  - unfold print_row at 1. destruct (row_route_str_total (detail_route hd.2)) as [s Hs].
    rewrite Hs. simpl. destruct (IH (acc ++ [PRow (bool_decide (hd.1 = optimal_hospital r))
      hd.1 (detail_lam hd.2) s])) as (rows & -> & Hrows).
    eexists (_ :: rows). rewrite <- app_assoc. split; [done|].
    constructor; [|done]. by exists s.
Qed.

Lemma details_get_in (details : list (string * hospital_detail)) (h : string) :
  h ∈ details.*1 → ∃ d, details_get details h = Ok d.
Proof.
  induction details as [|[k y] l IH]; intros Hh; simpl.
  - by apply elem_of_nil in Hh.
  - destruct (decide (k = h)) as [->|Hne]; [by eexists|].
    apply IH. simpl in Hh. apply elem_of_cons in Hh as [Hh|Hh]; [congruence|done].
Qed.

(** X20: on the result of a dispatch the first steps of [print_results]
    raise nothing: the selected candidate is a key of the details, and the
    route that the direction check reads is not empty. The check, written
    for routes from the candidate to ['Tunisia_Mall'], holds for a dispatch
    only when the selected candidate is the destination and the destination
    is ['Tunisia_Mall']: for any other selection the report says that the
    route is wrong. *)
Theorem direction_check_on_dispatch (g : graph) (destination : string)
    (hospitals : list string) :
  ∃ self result, init g = Ok self ∧
    find_optimal_dispatch self destination hospitals = Ok result ∧
    (result = NoReachable "No reachable hospitals found"
     ∨ ∃ r d, result = Dispatched r ∧
         details_get (all_hospitals r) (optimal_hospital r) = Ok d ∧
         direction_check r
           = Ok (bool_decide (optimal_hospital r = destination ∧
                              destination = "Tunisia_Mall"))).
Proof.
  destruct (init_spec g) as (self & Hinit & _).
  pose proof (init_targets g self Hinit) as HV.
  destruct (init_swap g self Hinit) as [HG Hswap].
  destruct (search_tree self destination hospitals HV) as (st & Hsearch & HI & Ht & Hq).
  destruct (dispatch_cases self destination hospitals st Hsearch HI) as [Hnone|[Hne Hrun]].
  { exists self, (NoReachable "No reachable hospitals found").
    split; [done|]. split; [done|]. by left. }
  destruct (dispatched_spec self destination hospitals st HI Hne)
    as (r & l1 & l2 & Hex & Hsplit & _ & _ & Hcost & Hroute & Hkeys & Hall).
  assert (Hstar : optimal_hospital r ∈ filter (λ h, h ∈ hospitals) (visited st)).
  { rewrite Hsplit. apply elem_of_app. right. by left. }
  pose proof Hstar as Hstar'.
  apply (candidate_visited self destination hospitals st HI) in Hstar' as [_ [c Hc]].
  destruct (route_of_spec self destination hospitals st HI Ht Hswap _ c Hq Hc)
    as (route & payloads & Hr & Hhead & Hlast & _).
  rewrite Hroute in Hr. injection Hr as <-.
  assert (Hin : optimal_hospital r ∈ (all_hospitals r).*1) by (by rewrite Hkeys).
  apply list_elem_of_fmap in Hin as ([h' d] & Heq & Hin). simpl in Heq. subst h'.
  assert (Hget : details_get (all_hospitals r) (optimal_hospital r) = Ok d).
  { apply details_get_Ok; [|done]. rewrite Hkeys.
    apply NoDup_filter, (inv_nodup _ _ _ _ HI). }
  exists self, (Dispatched r). split; [done|]. split; [congruence|]. right.
  exists r, d. split; [done|]. split; [done|].
  unfold direction_check, route_at, route_last.
  rewrite <- head_lookup, Hhead. cbn [mbind exc_mbind exc_bind].
  destruct (decide (destination = optimal_hospital r)) as [Heq|Hne'].
  - rewrite Hlast. cbn [mbind exc_mbind exc_bind]. f_equal.
    apply bool_decide_ext. rewrite <- Heq. tauto.
  - f_equal. symmetry. apply bool_decide_eq_false. intros [Heq _]. congruence.
Qed.

(** X21: with non-negative edge attributes the table of [print_results] has
    the rows of the details in their order, since the details are already in
    the order of their distances; each row carries the candidate, its
    distance and the mark of the selected candidate. *)
Theorem print_results_rows_in_order (g : graph) (destination : string)
    (hospitals : list string) :
  nonnegative g →
  ∃ self, init g = Ok self ∧
    (find_optimal_dispatch self destination hospitals
       = Ok (NoReachable "No reachable hospitals found")
     ∨ ∃ r lines,
         find_optimal_dispatch self destination hospitals = Ok (Dispatched r) ∧
         print_results (Dispatched r) = Ok lines ∧
         Forall2 (λ line hd, ∃ s, row_route_str (detail_route hd.2) = Ok s ∧
                    line = PRow (bool_decide (hd.1 = optimal_hospital r)) hd.1
                             (detail_lam hd.2) s)
                 (drop 5 lines) (all_hospitals r)).
Proof.
  intros Hnn. destruct (init_spec g) as (self & Hinit & _).
  pose proof (init_targets g self Hinit) as HV.
  pose proof (init_nonneg g self Hinit Hnn) as Hw.
  destruct (init_swap g self Hinit) as [HG Hswap].
  destruct (search_full self destination hospitals HV Hw)
    as (st & Hsearch & HI & Hopt & Ht & Hord & Hq).
  exists self. split; [done|].
  destruct (dispatch_cases self destination hospitals st Hsearch HI) as [Hnone|[Hne Hrun]];
    [by left|right].
  destruct (dispatched_spec self destination hospitals st HI Hne)
    as (r & l1 & l2 & Hex & Hsplit & _ & _ & Hcost & Hroute & Hkeys & Hall).
  assert (Hsorted : sorted_details (all_hospitals r)).
  { intros i j [h d] [h' d'] Hij Hi Hj. simpl.
    assert (Hlam : ∀ i h d, all_hospitals r !! i = Some (h, d) →
              filter (λ h, h ∈ hospitals) (visited st) !! i = Some h ∧
              ∃ c, lam st !! h = Some (Fin c) ∧ detail_lam d = Fin c).
    { intros i0 h0 d0 Hi0. split.
      - rewrite <- Hkeys, list_lookup_fmap, Hi0. done.
      - assert (Hin : (h0, d0) ∈ all_hospitals r) by (by apply list_elem_of_lookup_2 in Hi0).
        destruct (Hall h0 d0 Hin) as (_ & -> & _).
        assert (Hh : h0 ∈ filter (λ h, h ∈ hospitals) (visited st)).
        { rewrite <- Hkeys. apply list_elem_of_fmap. by exists (h0, d0). }
        apply (candidate_visited self destination hospitals st HI) in Hh as [_ [c Hc]].
        exists c. by rewrite Hc. }
    destruct (Hlam i h d Hi) as (Hfi & c & Hc & ->).
    destruct (Hlam j h' d' Hj) as (Hfj & c' & Hc' & ->).
    simpl. apply Qltb_ge.
    destruct (filter_lookup_before (λ h, h ∈ hospitals) (visited st) i j h h' Hfi Hfj Hij)
      as (i0 & j0 & Hi0 & Hj0 & Hij0).
    by apply (Hord i0 j0 h h'). }
  assert (Hstar : optimal_hospital r ∈ filter (λ h, h ∈ hospitals) (visited st)).
  { rewrite Hsplit. apply elem_of_app. right. by left. }
  pose proof Hstar as Hstar'.
  apply (candidate_visited self destination hospitals st HI) in Hstar' as [_ [c Hc]].
  destruct (route_of_spec self destination hospitals st HI Ht Hswap _ c Hq Hc)
    as (route & payloads & Hr & Hhead & Hlast & _).
  rewrite Hroute in Hr. injection Hr as <-.
  assert (Hin : optimal_hospital r ∈ (all_hospitals r).*1) by (by rewrite Hkeys).
  apply list_elem_of_fmap in Hin as ([h' d] & Heq & Hin). simpl in Heq. subst h'.
  assert (Hget : details_get (all_hospitals r) (optimal_hospital r) = Ok d).
  { apply details_get_Ok; [|done]. rewrite Hkeys.
    apply NoDup_filter, (inv_nodup _ _ _ _ HI). }
  assert (∃ ok, direction_check r = Ok ok) as [ok Hcheck].
  { unfold direction_check, route_at, route_last.
    rewrite <- head_lookup, Hhead. cbn [mbind exc_mbind exc_bind].
    destruct (decide (destination = optimal_hospital r)); [|by eexists].
    rewrite Hlast. by eexists. }
  destruct (print_rows_spec r (all_hospitals r)
    [PSolution (optimal_hospital r) (optimal_cost r);
     PRoute (join_arrow (optimal_route r));
     PCheck ok;
     PMetrics (detail_travel_time d) (detail_total_cost d);
     PVerification
       (0.619 * detail_travel_time d / 10 + network (detail_it_components d)
        + gps (detail_it_components d) + data (detail_it_components d)
        + 0.096 * detail_total_cost d / 10)%Q (optimal_cost r)])
    as (rows & Hrows & HF).
  eexists r, _. split; [congruence|]. split.
  - unfold print_results. rewrite Hget. cbn [mbind exc_mbind exc_bind].
    rewrite Hcheck. cbn [mbind exc_mbind exc_bind].
    rewrite (sorted_by_lam_id _ Hsorted). exact Hrows.
  - exact HF.
Qed.

Lemma print_results_rows_in_order_witness :
  ∃ self, init create_network = Ok self ∧
    (find_optimal_dispatch self "Tunisia_Mall" main_hospitals
       = Ok (NoReachable "No reachable hospitals found")
     ∨ ∃ r lines,
         find_optimal_dispatch self "Tunisia_Mall" main_hospitals = Ok (Dispatched r) ∧
         print_results (Dispatched r) = Ok lines ∧
         Forall2 (λ line hd, ∃ s, row_route_str (detail_route hd.2) = Ok s ∧
                    line = PRow (bool_decide (hd.1 = optimal_hospital r)) hd.1
                             (detail_lam hd.2) s)
                 (drop 5 lines) (all_hospitals r)).
Proof.
  apply (print_results_rows_in_order create_network "Tunisia_Mall" main_hospitals).
  apply nonnegativeb_spec. vm_compute. reflexivity.
Defined.

(** ** More candidates, and a destination outside the graph *)



Lemma walk_stays_at_destination (self : ReverseSingleSourceDijkstra)
    (destination n : string) (c : Q) :
  destination ∉ dom (G_prime self) →
  walk self destination n c → n = destination.
Proof.
  intros Hd Hwalk. induction Hwalk as [|k n a c Hwalk -> (row & Hrow & _)]; [done|].
  exfalso. apply Hd, elem_of_dom. by exists row.
Qed.

(** X23: a destination that is no vertex of the graph is the only node the
    search visits. The dispatch then returns the error result when the
    destination is not a candidate, and otherwise selects the destination
    with the cost 0 and the route that holds it alone. *)
Theorem destination_outside_graph (g : graph) (destination : string)
    (hospitals : list string) :
  destination ∉ _get_all_nodes g →
  ∃ self st, init g = Ok self ∧ search self destination hospitals = Ok st ∧
    visited st = [destination] ∧
    (∀ n d, lam st !! n = Some (Fin d) → n = destination) ∧
    (destination ∉ hospitals →
     find_optimal_dispatch self destination hospitals
       = Ok (NoReachable "No reachable hospitals found")) ∧
    (destination ∈ hospitals →
     ∃ r, find_optimal_dispatch self destination hospitals = Ok (Dispatched r) ∧
       optimal_hospital r = destination ∧ optimal_cost r = Fin 0 ∧
       optimal_route r = [destination]).
Proof.
  unfold _get_all_nodes. intros Hout.
  destruct (init_spec g) as (self & Hinit & _ & _ & Hdom & _).
  pose proof (init_targets g self Hinit) as HV.
  destruct (search_tree self destination hospitals HV) as (st & Hsearch & HI & Ht & Hq).
  rewrite <- Hdom in Hout.
  assert (Hfin : ∀ n d, lam st !! n = Some (Fin d) → n = destination).
  { intros n d Hd. apply (walk_stays_at_destination self destination n d Hout).
    by apply (inv_walk _ _ _ _ HI). }
  assert (Hvis : visited st = [destination]).
  { destruct (inv_first _ _ _ _ HI) as [->|[tail Htail]]; [done|].
    rewrite Htail. destruct tail as [|x tail]; [done|]. exfalso.
    pose proof (inv_nodup _ _ _ _ HI) as Hnd. rewrite Htail in Hnd.
    apply NoDup_cons in Hnd as [Hnotin _].
    destruct (inv_visited _ _ _ _ HI x) as [d Hd]; [rewrite Htail; right; by left|].
    apply Hfin in Hd. subst x. apply Hnotin. by left. }
  exists self, st. split; [done|]. split; [done|]. split; [done|]. split; [done|].
  rewrite (find_optimal_dispatch_run _ _ _ st Hsearch). split.
  - intros Hd. apply extract_none.
    destruct (found_hospitals st) as [|[h x] found] eqn:Hfound; [done|]. exfalso.
    assert (Hh : h ∈ (found_hospitals st).*1) by (rewrite Hfound; by left).
    apply (found_visited self destination hospitals st HI) in Hh as [Hv Hh].
    rewrite Hvis in Hv. apply list_elem_of_singleton in Hv. by subst h.
  - intros Hd.
    assert (Hkeys : filter (λ h, h ∈ hospitals) (visited st) = [destination]).
    { rewrite Hvis, filter_cons, decide_True by done. done. }
    assert (Hne : found_hospitals st ≠ []).
    { intros Hnil. pose proof (found_fst self destination hospitals st HI) as Hf.
      by rewrite Hnil, Hkeys in Hf. }
    destruct (dispatched_spec self destination hospitals st HI Hne)
      as (r & l1 & l2 & Hex & Hsplit & _ & _ & Hcost & Hroute & _).
    assert (Hstar : optimal_hospital r = destination).
    { assert (Hin : optimal_hospital r ∈ [destination]).
      { rewrite <- Hkeys, Hsplit. apply elem_of_app. right. by left. }
      by apply list_elem_of_singleton in Hin. }
    exists r. split; [done|]. split; [done|].
    rewrite Hstar in Hcost, Hroute. rewrite (tree_dest_lam _ _ _ Ht) in Hcost.
    split; [done|].
    unfold route_of in Hroute. cbn [trace_pred] in Hroute.
    rewrite (tree_dest_pred _ _ _ Ht) in Hroute.
    destruct (length (visited st)); simpl in Hroute; by injection Hroute as <-.
Qed.

Lemma destination_outside_graph_witness :
  ∃ self st, init create_network = Ok self ∧
    search self "Carthage" main_hospitals = Ok st ∧
    visited st = ["Carthage"] ∧
    find_optimal_dispatch self "Carthage" main_hospitals
      = Ok (NoReachable "No reachable hospitals found").
Proof.
  destruct (destination_outside_graph create_network "Carthage" main_hospitals)
    as (self & st & Hinit & Hsearch & Hvis & _ & Hnone & _).
  - apply (bool_decide_unpack _). vm_compute. exact I.
  - exists self, st. split; [exact Hinit|]. split; [exact Hsearch|]. split; [exact Hvis|].
    apply Hnone. apply (bool_decide_unpack _). vm_compute. exact I.
Defined.

(** X24: the maps ['lambda'] and ['pred'] of a dispatch have an entry for
    every vertex of the graph; ['lambda'] has one more for a destination that
    is no vertex, and no entry for any other node. *)
Theorem result_maps_keys (g : graph) (destination : string) (hospitals : list string) :
  ∃ self, init g = Ok self ∧
    (find_optimal_dispatch self destination hospitals
       = Ok (NoReachable "No reachable hospitals found")
     ∨ ∃ r, find_optimal_dispatch self destination hospitals = Ok (Dispatched r) ∧
         dom (result_lambda r) = _get_all_nodes g ∪ {[destination]} ∧
         dom (result_pred r) = _get_all_nodes g).
Proof.
  destruct (init_spec g) as (self & Hinit & _ & HVg & _).
  pose proof (init_targets g self Hinit) as HV.
  destruct (loop_total self destination hospitals HV
              (λ st, dom (lam st) = V self ∪ {[destination]} ∧ dom (pred st) = V self))
    with (fuel := loop_fuel self) (st := initial_state self destination)
    as (st & Hsearch & HI & (Hdl & Hdp) & Hq).
  - intros st q k rest st1 HI [Hdl Hdp] Hpop Hit.
    destruct (iteration_cases self destination hospitals HV st q k rest HI Hpop)
      as [(c & Hc & Hskip & Hit')|(Hk & Hkv & st1' & Hit' & Hpost)].
    + rewrite Hit' in Hit. injection Hit as <-. done.
    + rewrite Hit' in Hit. injection Hit as <-.
      pose proof (post_cases _ _ _ _ _ _ Hpost) as Hcases. simpl in Hcases.
      rewrite <- Hdl, <- Hdp. split; apply set_eq; intros n; rewrite !elem_of_dom.
      * destruct (Hcases n) as [(-> & _)|(a & old & _ & _ & Hold & _ & -> & _)]; [done|].
        rewrite Hold. split; by eexists.
      * destruct (Hcases n) as [(_ & -> & _)|(a & old & Hrow & _ & _ & _ & _ & -> & _)];
          [done|].
        split; [|by eexists]. intros _.
        assert (Hn : n ∈ dom (pred st)).
        { rewrite Hdp. apply (HV k n a). by apply row_edge. }
        by apply elem_of_dom in Hn.
  - apply inv_initial.
  - simpl. split.
    + rewrite dom_insert_L, dom_gset_to_gmap. set_solver.
    + by rewrite dom_gset_to_gmap.
  - rewrite <- (degree_initial self). simpl. lia.
  - exists self. split; [done|].
    destruct (dispatch_cases self destination hospitals st Hsearch HI) as [Hnone|[Hne Hrun]];
      [by left|right].
    destruct (extract_some self destination hospitals st HI Hne)
      as (r & l1 & l2 & Hex & _ & _ & _ & _ & _ & Hp & Hl & _).
    exists r. split; [congruence|]. unfold _get_all_nodes. rewrite Hl, Hp, <- HVg. done.
Qed.
